(** * dsa::task and dsa::task_system (task.hpp): a shallow embedding

    The development follows the drain variant of task.hpp: the type-erased
    [task], the per-worker [task_queue], the worker function [run] and the
    public members [push], [done], [wait_to_completion] and [reset] of
    [task_system].

    Granularity.  One step of the model is one access to shared data: one
    read-modify-write of an atomic, or one critical section of a queue (the
    mutex is held for the whole of it, so nothing can be observed inside).
    A [try_to_lock] acquisition is given its outcome by the schedule: it may
    fail because another thread holds the mutex, and the standard also lets
    it fail spuriously.  A blocking [pop] whose wait condition holds has no
    step; it is re-examined whenever the thread is scheduled again, which is
    what a wake-up (notified or spurious) followed by the re-test of the loop
    condition amounts to.  [std::size_t] is taken to be 64 bits wide.

    Assumptions.  The plain members [current_index_] and [exited_] are read
    and written in one step each, as if they were atomics; for
    [current_index_] this is what the code does as long as the calls of
    [push] do not overlap.  Callables are side-effect free: running one
    yields a value or a failure and touches nothing but its own shared
    state.  Arguments are values: [_args] holds what the callable is applied
    to, which is the case of an argument passed as an rvalue; one passed as
    an lvalue is stored as a reference, and is covered as long as the object
    it refers to is left alone until the job has run.  [task_model::invoke_]
    calls the packaged task on the stored arguments, as [std::apply] would:
    [utility::apply] as written does not accept the lvalue it is given there
    (see [utility.apply]).  A task handed to [push (task &&)] is empty or
    fresh from [make_task]; a client that calls a task itself before handing
    it over is not part of the executions.  An exception that leaves [run]
    ends the process ([std::terminate]): nothing steps afterwards and the
    thread is left at the call.  [reset] clears the vectors in one step,
    which is defined only while every other call is outside the member
    functions that use them.  The constructor has returned before anything
    else happens.  The destructor is not a step of the executions: what is
    stated of an execution is stated of a pool that is alive, and
    [task_system_destructor] is the destruction of a pool whose workers and
    calls have returned.

    Around the pool.  [utility] holds the index sequences of
    utilities/sequence.hpp and [invoke] and [apply] of
    utilities/functions.hpp, for callables that are not pointers to members;
    a tuple is a list of values of one type, passed as an lvalue or as an
    rvalue.  [fsearch] holds [parse_args] of the file-search example: what
    [boost::program_options] makes of the command line, the file system and
    the constructor of [std::regex] are given from outside. *)

From Stdlib Require Import Recdef.
From stdpp Require Import base numbers list option strings gmap.

#[local] Ltac Zify.zify_post_hook ::= Z.to_euclidean_division_equations.

(** ** std::size_t arithmetic *)

Definition size_modulus : N := 18446744073709551616.

Definition size_add (x y : N) : N := ((x + y) mod size_modulus)%N.
Definition size_mul (x y : N) : N := ((x * y) mod size_modulus)%N.
Definition size_inc (x : N) : N := size_add x 1.
Definition size_dec (x : N) : N := ((x + size_modulus - 1) mod size_modulus)%N.

(** [x % n] on [std::size_t], as an index; the remainder by zero is
    undefined. *)
Definition size_rem (x n : N) : option nat :=
  if (n =? 0)%N then None else Some (N.to_nat (x mod n)).

Inductive exn :=
| logic_error (what : string)
| promise_already_satisfied.

Inductive cv_call := notify_one | notify_all.

(** ** utility: index sequences, invoke and apply *)

Module utility.

(** [index_sequence <I...>]: the pack [I...]. *)
Definition index_sequence := list nat.

(** [index_sequence::size]. *)
Definition size (s : index_sequence) : nat := length s.

(** [merge]: [index_sequence <I1..., (sizeof... (I1) + I2)...>]. *)
Definition merge (s1 s2 : index_sequence) : index_sequence :=
  s1 ++ ((λ i, size s1 + i) <$> s2).

(** [seq_gen <N>], with its two explicit specialisations. *)
Function seq_gen (n : nat) {measure id n} : index_sequence :=
  match n with
  | 0 => []
  | 1 => [0]
  | _ => merge (seq_gen (n / 2)) (seq_gen (n - n / 2))
  end.
Proof.
  - intros n n0 n1 -> ->. unfold id.
    assert (0 < S (S n1) / 2) by (apply Nat.div_str_pos; lia). lia.
  - intros n n0 n1 -> ->. unfold id. apply Nat.div_lt; lia.
Defined.

Definition make_index_sequence (n : nat) : index_sequence := seq_gen n.

(** How an argument is passed to a forwarding reference [T && t]: for an
    lvalue [T] is deduced as a reference type, for an rvalue as the type of
    the argument itself. *)
Inductive value_category := lvalue | rvalue.

(** [std::tuple_size <T>::value] for the [T] deduced from a tuple of [n]
    elements: [std::tuple_size] is specialised for the tuple types and not
    for the references to them, for which the expression does not compile:
    [None]. *)
Definition tuple_size (c : value_category) (n : nat) : option nat :=
  match c with
  | rvalue => Some n
  | lvalue => None
  end.

Module detail.

(** [invoke_ (Callable && c, Args && ... args)]: the overload for what is
    called as a function, which is the one a packaged task selects.  A
    callable of the arguments [V...] is a function of their list. *)
Definition invoke_ {V Res : Type} (c : list V → Res) (args : list V) : Res :=
  c args.

(** [apply_ (f, t, index_sequence <I...>)]:
    [invoke_ (f, std::get <I> (t)...)].  [std::get <I>] past the end of the
    tuple does not compile: [None]. *)
Definition apply_ {V Res : Type} (f : list V → Res) (t : list V)
    (s : index_sequence) : option Res :=
  match mapM (M := option) (λ i, t !! i) s with
  | Some args => Some (invoke_ f args)
  | None => None
  end.

End detail.

Definition invoke {V Res : Type} (f : list V → Res) (args : list V) : Res :=
  detail.invoke_ f args.

(** [apply (f, t)], the tuple [t] as the list of its elements and [c] the
    category in which it is passed.  The return type and the exception
    specification name [std::tuple_size <T>::value]: where that does not
    compile no [apply] is viable and neither does the call: [None]. *)
Definition apply {V Res : Type} (f : list V → Res) (c : value_category)
    (t : list V) : option Res :=
  n ← tuple_size c (length t);
  detail.apply_ f t (make_index_sequence n).

End utility.

(** ** fsearch: parse_args *)

Module fsearch.

(** [std::regex_constants::syntax_option_type], the grammars of the table. *)
Inductive syntax_option_type := ECMAScript | basic | extended | awk | grep | egrep.

(** A [std::regex]: the pattern it was built from and its grammar. *)
Record regex := Regex { pattern : string; flags : syntax_option_type }.

(** What [parse_args] asks of the world around it: whether the status query
    of a path fails, in which case [bfs::is_directory], [bfs::exists] and
    [bfs::is_regular_file] throw, and what the status says otherwise; the
    lines [std::getline] reads from a file, in order; and whether the
    constructor of [std::regex] accepts a pattern in a grammar. *)
Record environment := Environment {
  status_error : string → bool;
  is_directory : string → bool;
  exists_ : string → bool;
  is_regular_file : string → bool;
  getlines : string → list string;
  well_formed : string → syntax_option_type → bool }.

(** The command line as [boost::program_options] parsed it, defaults filled
    in; a flag is its [count] being non-zero. *)
Record variables_map := VariablesMap {
  opt_search : option (list string);
  opt_path : string;
  opt_filter : string;
  opt_syntax : string;
  opt_threads : N;
  opt_help : bool;
  opt_use_file : bool;
  opt_suppress_matches : bool;
  opt_suppress_files : bool;
  opt_verbose : bool }.

Record context := Context {
  search_path : string;
  matcher_strings : list string;
  matchers : list regex;
  filter_string : string;
  filter : regex;
  syntax : string;
  num_threads : N;
  help : bool;
  use_file : bool;
  print_matches : bool;
  print_files : bool;
  verbose : bool }.

(** The messages of the [std::runtime_error]s, without the usage text that
    follows each of them. *)
Inductive input_error :=
| must_provide_search
| not_a_directory (path : string)
| does_not_exist (path : string)
| unrecognized_syntax (name : string)
| not_a_file (name : string)
| no_search_regex.

Inductive exception :=
| runtime_error (what : input_error)
| regex_error (pattern : string)
| out_of_range
| filesystem_error (path : string)
| program_options_error (what : string).

Definition syntaxes : gmap string syntax_option_type :=
  list_to_map
    [("ECMAScript", ECMAScript); ("posix", basic); ("eposix", extended);
     ("awk", awk); ("grep", grep); ("egrep", egrep)]%string.

Definition filters : gmap string string :=
  list_to_map
    [("ECMAScript", ".*"); ("posix", ".*"); ("eposix", ".*");
     ("awk", "/.*/"); ("grep", ".*"); ("egrep", ".*")]%string.

(** [std::map::at]. *)
Definition at_ {V : Type} (m : gmap string V) (k : string) : exception + V :=
  match m !! k with
  | Some v => inr v
  | None => inl out_of_range
  end.

(** [std::regex {pattern, flags}]. *)
Definition make_regex (env : environment) (p : string) (fl : syntax_option_type)
  : exception + regex :=
  if well_formed env p fl then inr (Regex p fl) else inl (regex_error p).

(** [c.matchers.emplace_back (s, regex_syntax)] for each of the strings. *)
Fixpoint emplace_all (env : environment) (fl : syntax_option_type)
    (ps : list string) (acc : list regex) : exception + list regex :=
  match ps with
  | [] => inr acc
  | p :: ps' =>
      match make_regex env p fl with
      | inl e => inl e
      | inr r => emplace_all env fl ps' (acc ++ [r])
      end
  end.

(** [while (std::getline (regex_file, line) && !line.empty ())]: the lines
    the loop body sees. *)
Fixpoint read_patterns (ls : list string) : list string :=
  match ls with
  | [] => []
  | l :: ls' => if bool_decide (l = ""%string) then [] else l :: read_patterns ls'
  end.

(** The loop over the pattern files of [--use-file]. *)
Fixpoint from_files (env : environment) (fl : syntax_option_type)
    (fs : list string) (acc : list regex) : exception + list regex :=
  match fs with
  | [] => inr acc
  | f :: fs' =>
      if status_error env f then inl (filesystem_error f)
      else if negb (is_regular_file env f) then
        inl (runtime_error (not_a_file f))
      else
        match emplace_all env fl (read_patterns (getlines env f)) acc with
        | inl e => inl e
        | inr acc' => from_files env fl fs' acc'
        end
  end.

(** [parse_args] from the parsed options on (past [bpo::notify]). *)
Definition parse_args (env : environment) (vars : variables_map)
  : exception + context :=
  match opt_search vars with
  | None => inl (runtime_error must_provide_search)
  | Some search =>
      let path := opt_path vars in
      let syn := opt_syntax vars in
      if status_error env path then inl (filesystem_error path)
      else if negb (is_directory env path) then
        inl (runtime_error (not_a_directory path))
      else if negb (exists_ env path) then
        inl (runtime_error (does_not_exist path))
      else if bool_decide (syntaxes !! syn = None) then
        inl (runtime_error (unrecognized_syntax syn))
      else
        match at_ syntaxes syn with
        | inl e => inl e
        | inr regex_syntax =>
            match (if bool_decide (opt_filter vars = ""%string)
                   then at_ filters syn else inr (opt_filter vars)) with
            | inl e => inl e
            | inr filter_pattern =>
                match make_regex env filter_pattern regex_syntax with
                | inl e => inl e
                | inr fltr =>
                    match (if opt_use_file vars
                           then from_files env regex_syntax search []
                           else emplace_all env regex_syntax search []) with
                    | inl e => inl e
                    | inr ms =>
                        if bool_decide (ms = []) then
                          inl (runtime_error no_search_regex)
                        else
                          inr {| search_path := path;
                                 matcher_strings := search;
                                 matchers := ms;
                                 filter_string := opt_filter vars;
                                 filter := fltr;
                                 syntax := syn;
                                 num_threads := opt_threads vars;
                                 help := opt_help vars;
                                 use_file := opt_use_file vars;
                                 print_matches := negb (opt_suppress_matches vars);
                                 print_files := negb (opt_suppress_files vars);
                                 verbose := opt_verbose vars |}
                    end
                end
            end
        end
  end.

(** [parse_args (argc, argv)] from its first line: [parsed] is what
    [bpo::store] and [bpo::notify] make of the command line, the message of
    the exception of [boost::program_options] (an unknown option, a value
    that does not parse, a positional argument) or the map of the options. *)
Definition parse_command_line (env : environment)
    (parsed : string + variables_map) : exception + context :=
  match parsed with
  | inl what => inl (program_options_error what)
  | inr vars => parse_args env vars
  end.

(** A directory [.] and nothing else, every pattern well formed; and the
    command line [fsearch --search foo]. *)
Definition sample_environment : environment :=
  {| status_error := λ _, false;
     is_directory := λ p, bool_decide (p = "."%string);
     exists_ := λ p, bool_decide (p = "."%string);
     is_regular_file := λ _, false;
     getlines := λ _, [];
     well_formed := λ _ _, true |}.

Definition sample_variables : variables_map :=
  {| opt_search := Some ["foo"%string];
     opt_path := ".";
     opt_filter := ".*";
     opt_syntax := "ECMAScript";
     opt_threads := 4;
     opt_help := false;
     opt_use_file := false;
     opt_suppress_matches := false;
     opt_suppress_files := false;
     opt_verbose := false |}.

End fsearch.

Section TaskSystem.

(** [A] stands for the stored argument tuple [std::tuple <Args...>], [R] for
    the return type and [Exn] for what a callable may throw. *)
Context {A R Exn : Type}.

(** ** task *)

(** What a side-effect-free callable does on its arguments. *)
Inductive result :=
| Value (r : R)
| Raised (e : Exn).

(** Content of the shared state of a [std::packaged_task]. *)
Inductive settled :=
| Completed (o : result)
| BrokenPromise.

Record packaged_task := PackagedTask {
  callable : A → result;
  shared_state : option settled }.

(** [task_model <R (Args...)>]. *)
Record task_model := TaskModel {
  _f : packaged_task;
  _args : A }.

(** The free store holding the [task_model] objects; an address is a position
    in it.  The shared state lives with the object it was created for. *)
Abbreviation heap := (list task_model).

(** [std::unique_ptr <task_concept> _t]: an address, or null (default
    constructed or moved from). *)
Definition task := option nat.

(** [std::future <R>]: the address of the shared state. *)
Abbreviation future := nat.

Definition settle (s : settled) (m : task_model) : task_model :=
  {| _f := {| callable := callable (_f m); shared_state := Some s |};
     _args := _args m |}.

(** [operator bool]. *)
Definition task_bool (t : task) : bool :=
  match t with Some _ => true | None => false end.

(** [make_task (f, args...)]: the new task and the future of its result.
    [x] is what the stored tuple gives the callable: the values of the
    arguments stored by value, and the objects referred to by those stored
    as references. *)
Definition make_task (f : A → result) (x : A) (hp : heap) : (task * future) * heap :=
  let a := length hp in
  ((Some a, a),
   hp ++ [ {| _f := {| callable := f; shared_state := None |}; _args := x |} ]).

(** [task_model::invoke_]: [utility::apply (_f, _args)], taken as the call
    operator of the packaged task on the stored arguments.  [None] stands for
    undefined behaviour (a dangling address). *)
Definition invoke_ (a : nat) (hp : heap) : option (exn + heap) :=
  m ← hp !! a;
  match shared_state (_f m) with
  | Some _ => Some (inl promise_already_satisfied)
  | None =>
      Some (inr (<[a := settle (Completed (callable (_f m) (_args m))) m]> hp))
  end.

(** [task::operator()]. *)
Definition task_call (t : task) (hp : heap) : option (exn + heap) :=
  match t with
  | Some a => invoke_ a hp
  | None => Some (inl (logic_error "bad task access"))
  end.

(** Destruction of a task: a packaged task that was never invoked abandons
    its shared state. *)
Definition task_drop (hp : heap) (t : task) : heap :=
  match t with
  | Some a =>
      match hp !! a with
      | Some m =>
          match shared_state (_f m) with
          | None => <[a := settle BrokenPromise m]> hp
          | Some _ => hp
          end
      | None => hp
      end
  | None => hp
  end.

(** [std::future::get]: [None] while the shared state is not ready. *)
Definition await (hp : heap) (fut : future) : option settled :=
  m ← hp !! fut; shared_state (_f m).

(** ** task_system::task_queue *)

Record task_queue := TaskQueue {
  tasks_ : list task;
  done_ : bool }.

Definition task_queue_new : task_queue := {| tasks_ := []; done_ := false |}.

Definition set_done (q : task_queue) : task_queue * list cv_call :=
  ({| tasks_ := tasks_ q; done_ := true |}, [notify_all]).

(** [acquired] is the outcome of the [std::try_to_lock] acquisition. *)
Definition try_pop (acquired : bool) (q : task_queue) : (bool * task) * task_queue :=
  if negb acquired || bool_decide (tasks_ q = []) then ((false, None), q)
  else
    match tasks_ q with
    | t :: rest => ((true, t), {| tasks_ := rest; done_ := done_ q |})
    | [] => ((false, None), q)
    end.

(** The second component is the caller's task after the call: it is moved
    from only when the push took place. *)
Definition try_push (acquired : bool) (t : task) (q : task_queue)
  : (bool * task) * task_queue * list cv_call :=
  if negb acquired then ((false, t), q, [])
  else ((true, None), {| tasks_ := tasks_ q ++ [t]; done_ := done_ q |}, [notify_one]).

(** [None]: the thread waits on the condition variable. *)
Definition pop (q : task_queue) : option ((bool * task) * task_queue) :=
  if bool_decide (tasks_ q = []) && negb (done_ q) then None
  else
    match tasks_ q with
    | [] => Some ((false, None), q)
    | t :: rest => Some ((true, t), {| tasks_ := rest; done_ := done_ q |})
    end.

Definition push (t : task) (q : task_queue) : task_queue * list cv_call :=
  ({| tasks_ := tasks_ q ++ [t]; done_ := done_ q |}, [notify_one]).

(** ** task_system *)

(** Where a worker thread stands in [run (id)]. *)
Inductive thread :=
| Scan (k : N)                 (* first [for], at the test of [k] *)
| Dec (t : task)               (* [try_pop] or [pop] gave [t]: at [queued_--] *)
| Call (t : task)              (* [call: p.second ()] *)
| Finish                       (* at the test of [while (this->queued_)] *)
| Drain (k : N)                (* second [for], at the test of [k] *)
| DrainDec (t : task) (k : N)  (* at [queued_--] inside the second [for] *)
| DrainCall (t : task) (k : N) (* at [p.second ()] inside the second [for] *)
| SetExited                    (* at [exited_ [id] = true] *)
| Terminated.                  (* [run] has returned *)

Record task_system := TaskSystem {
  queues_ : list task_queue;
  threads_ : list thread;
  exited_ : list bool;
  nthreads_ : N;
  current_index_ : N;
  queued_ : N }.

(** The public member functions a client may call.  [PushTask] is
    [push (task &&)] of an empty task or of one the client has just made
    with [make_task] and not called. *)
Inductive api :=
| Push (f : A → result) (x : A)                 (* [push (f, args...)] *)
| PushTask (mk : option ((A → result) * A))     (* [push (task &&)] *)
| Done
| WaitToCompletion
| Reset.

(** Where a call of a member function stands. *)
Inductive frame :=
| Entry
| Made (t : task) (fut : option future)             (* at [current_index_++] *)
| TryInc (t : task) (fut : option future) (idx k : N)   (* at [queued_++] *)
| TryPush (t : task) (fut : option future) (idx k : N)  (* at [try_push] *)
| Revert (t : task) (fut : option future) (idx k : N)   (* at [queued_--] *)
| BlockingPush (t : task) (fut : option future) (idx : N)
| SetDone (k : nat)            (* [done]: at [q.set_done ()] of queue [k] *)
| Join (j : nat)               (* [join]: at [th.join ()] of thread [j] *)
| Rebuild                      (* [reset]: past [join] *)
| Yielding                     (* [wait_to_completion]: at [yield] *)
| ReadQueued                   (* at [if (this->queued_)] *)
| ReadExited (i : nat) (should_exit : bool)
| Returned (r : option future).

Record world := World {
  pool : task_system;
  store : heap;
  calls : list (api * frame);
  aborted : bool }.                (* [std::terminate] was called *)

Inductive event :=
| EvMakeTask (t : task)
| EvNextIndex (idx : N)
| EvInc
| EvDec
| EvLoad (v : N)
| EvTryPush (q : nat) (t : task) (ok : bool)
| EvPush (q : nat) (t : task)
| EvTryPop (q : nat) (r : bool * task)
| EvPop (q : nat) (r : bool * task)
| EvNotify (q : nat) (c : cv_call)
| EvSetDone (q : nat)
| EvInvoke (t : task)
| EvThrow (e : exn)
| EvYield
| EvExited (id : nat)
| EvReadExited (i : nat) (b : bool)
| EvJoined (j : nat)
| EvClear (dropped : list (list task))
| EvReturn (r : option future).

Definition with_queues (qs : list task_queue) (p : task_system) : task_system :=
  {| queues_ := qs; threads_ := threads_ p; exited_ := exited_ p;
     nthreads_ := nthreads_ p; current_index_ := current_index_ p;
     queued_ := queued_ p |}.
Definition with_threads (ths : list thread) (p : task_system) : task_system :=
  {| queues_ := queues_ p; threads_ := ths; exited_ := exited_ p;
     nthreads_ := nthreads_ p; current_index_ := current_index_ p;
     queued_ := queued_ p |}.
Definition with_exited (ex : list bool) (p : task_system) : task_system :=
  {| queues_ := queues_ p; threads_ := threads_ p; exited_ := ex;
     nthreads_ := nthreads_ p; current_index_ := current_index_ p;
     queued_ := queued_ p |}.
Definition with_index (i : N) (p : task_system) : task_system :=
  {| queues_ := queues_ p; threads_ := threads_ p; exited_ := exited_ p;
     nthreads_ := nthreads_ p; current_index_ := i; queued_ := queued_ p |}.
Definition with_queued (c : N) (p : task_system) : task_system :=
  {| queues_ := queues_ p; threads_ := threads_ p; exited_ := exited_ p;
     nthreads_ := nthreads_ p; current_index_ := current_index_ p;
     queued_ := c |}.

Definition with_pool (p : task_system) (w : world) : world :=
  {| pool := p; store := store w; calls := calls w; aborted := aborted w |}.
Definition with_store (hp : heap) (w : world) : world :=
  {| pool := pool w; store := hp; calls := calls w; aborted := aborted w |}.
Definition with_calls (cs : list (api * frame)) (w : world) : world :=
  {| pool := pool w; store := store w; calls := cs; aborted := aborted w |}.
Definition abort (w : world) : world :=
  {| pool := pool w; store := store w; calls := calls w; aborted := true |}.

Definition with_queue (q : nat) (tq : task_queue) (w : world) : world :=
  with_pool (with_queues (<[q := tq]> (queues_ (pool w))) (pool w)) w.
Definition with_thread (id : nat) (th : thread) (w : world) : world :=
  with_pool (with_threads (<[id := th]> (threads_ (pool w))) (pool w)) w.
Definition with_call (c : nat) (op : api) (fr : frame) (w : world) : world :=
  with_calls (<[c := (op, fr)]> (calls w)) w.

(** [task_system (nthreads)] once the constructor has returned. *)
Definition task_system_new (nthreads : N) : task_system :=
  {| queues_ := replicate (N.to_nat nthreads) task_queue_new;
     threads_ := replicate (N.to_nat nthreads) (Scan 0);
     exited_ := replicate (N.to_nat nthreads) false;
     nthreads_ := nthreads;
     current_index_ := 0;
     queued_ := 0 |}.

Definition init (nthreads : N) : world :=
  {| pool := task_system_new nthreads; store := []; calls := [];
     aborted := false |}.

(** [p.second ()] in [run]: an exception leaves the thread function. *)
Definition run_call (t : task) (next : thread) (w : world)
  : option (world * thread * list event) :=
  r ← task_call t (store w);
  match r with
  | inl e => Some (abort w, Call t, [EvThrow e])
  | inr hp => Some (with_store hp w, next, [EvInvoke t])
  end.

(** One step of [run (id)] from the point [th]. *)
Definition run (id : nat) (acquired : bool) (th : thread) (w : world)
  : option (world * thread * list event) :=
  let p := pool w in
  match th with
  | Scan k =>
      if (k <? size_mul 10 (nthreads_ p))%N then
        q ← size_rem (size_add (N.of_nat id) k) (nthreads_ p);
        tq ← queues_ p !! q;
        let '(r, tq') := try_pop acquired tq in
        Some (with_queue q tq' w,
              if r.1 then Dec r.2 else Scan (size_inc k),
              [EvTryPop q r])
      else
        tq ← queues_ p !! id;
        match pop tq with
        | Some (r, tq') =>
            Some (with_queue id tq' w,
                  if r.1 then Dec r.2 else Finish,
                  [EvPop id r])
        | None => None
        end
  | Dec t =>
      Some (with_pool (with_queued (size_dec (queued_ p)) p) w, Call t, [EvDec])
  | Call t => run_call t (Scan 0) w
  | Finish =>
      Some (w, if (queued_ p =? 0)%N then SetExited else Drain 0,
            [EvLoad (queued_ p)])
  | Drain k =>
      if (k <? nthreads_ p)%N then
        q ← size_rem (size_add (N.of_nat id) k) (nthreads_ p);
        tq ← queues_ p !! q;
        let '(r, tq') := try_pop acquired tq in
        Some (with_queue q tq' w,
              if r.1 then DrainDec r.2 k else Drain (size_inc k),
              [EvTryPop q r])
      else Some (w, Finish, [EvYield])
  | DrainDec t k =>
      Some (with_pool (with_queued (size_dec (queued_ p)) p) w,
            DrainCall t k, [EvDec])
  | DrainCall t k => run_call t (Drain (size_inc k)) w
  | SetExited =>
      if bool_decide (id < length (exited_ p))%nat then
        Some (with_pool (with_exited (<[id := true]> (exited_ p)) p) w,
              Terminated, [EvExited id])
      else None
  | Terminated => None
  end.

(** One step of [push]; both overloads share the frames past [Entry], where
    [push (f, args...)] makes its task and [push (task &&)] takes the one it
    was given.  The test of [k] touches nothing shared and is followed by
    [queued_++] whichever way it goes, so [TryInc] takes both in one step. *)
Definition task_system_push (op : api) (acquired : bool) (fr : frame) (w : world)
  : option (world * frame * list event) :=
  let p := pool w in
  match fr with
  | Entry =>
      match op with
      | Push f x =>
          let '((t, fut), hp) := make_task f x (store w) in
          Some (with_store hp w, Made t (Some fut), [EvMakeTask t])
      | PushTask (Some (f, x)) =>
          let '((t, _), hp) := make_task f x (store w) in
          Some (with_store hp w, Made t None, [EvMakeTask t])
      | PushTask None => Some (w, Made None None, [EvMakeTask None])
      | _ => None
      end
  | Made t fut =>
      let idx := current_index_ p in
      Some (with_pool (with_index (size_inc idx) p) w, TryInc t fut idx 0,
            [EvNextIndex idx])
  | TryInc t fut idx k =>
      Some (with_pool (with_queued (size_inc (queued_ p)) p) w,
            if (k <? size_mul 10 (nthreads_ p))%N then TryPush t fut idx k
            else BlockingPush t fut idx,
            [EvInc])
  | TryPush t fut idx k =>
      q ← size_rem (size_add idx k) (nthreads_ p);
      tq ← queues_ p !! q;
      let '(r, tq', cvs) := try_push acquired t tq in
      Some (with_queue q tq' w,
            if r.1 then Returned fut else Revert r.2 fut idx k,
            EvTryPush q t r.1 :: (EvNotify q <$> cvs)
              ++ (if r.1 then [EvReturn fut] else []))
  | Revert t fut idx k =>
      Some (with_pool (with_queued (size_dec (queued_ p)) p) w,
            TryInc t fut idx (size_inc k), [EvDec])
  | BlockingPush t fut idx =>
      q ← size_rem idx (nthreads_ p);
      tq ← queues_ p !! q;
      let '(tq', cvs) := push t tq in
      Some (with_queue q tq' w, Returned fut,
            EvPush q t :: (EvNotify q <$> cvs) ++ [EvReturn fut])
  | _ => None
  end.

(** One step of [done]; [reset] runs it through [join]. *)
Definition task_system_done (op : api) (fr : frame) (w : world)
  : option (world * frame * list event) :=
  let p := pool w in
  match fr with
  | SetDone k =>
      match queues_ p !! k with
      | Some tq =>
          let '(tq', cvs) := set_done tq in
          Some (with_queue k tq' w, SetDone (S k),
                EvSetDone k :: (EvNotify k <$> cvs))
      | None =>
          match op with
          | Reset => Some (w, Join 0, [])
          | _ => Some (w, Returned None, [EvReturn None])
          end
      end
  | _ => None
  end.

Definition wait_to_completion (fr : frame) (w : world)
  : option (world * frame * list event) :=
  let p := pool w in
  match fr with
  | Yielding => Some (w, ReadQueued, [EvYield])
  | ReadQueued =>
      Some (w, if (queued_ p =? 0)%N then ReadExited 0 true else Yielding,
            [EvLoad (queued_ p)])
  | ReadExited i should_exit =>
      match exited_ p !! i with
      | Some b => Some (w, ReadExited (S i) (should_exit && b), [EvReadExited i b])
      | None =>
          if should_exit then Some (w, Returned None, [EvReturn None])
          else Some (w, Yielding, [])
      end
  | _ => None
  end.

(** Calls that [reset] may overlap with: those not yet begun, those that have
    returned and those spinning in [wait_to_completion].  Clearing the
    vectors under any other call is a data race. *)
Definition bystander (c : api * frame) : bool :=
  match c.2 with
  | Entry | Returned _ | Yielding | ReadQueued | ReadExited _ _ => true
  | _ => false
  end.

Definition others_quiet (c : nat) (cs : list (api * frame)) : bool :=
  forallb bystander (take c cs) && forallb bystander (drop (S c) cs).

(** One step of [reset] past the [done ()] of [join]. *)
Definition reset (c : nat) (fr : frame) (w : world)
  : option (world * frame * list event) :=
  let p := pool w in
  match fr with
  | Join j =>
      match threads_ p !! j with
      | Some Terminated => Some (w, Join (S j), [EvJoined j])
      | Some _ => None
      | None => Some (w, Rebuild, [])
      end
  | Rebuild =>
      if others_quiet c (calls w) then
        let dropped := tasks_ <$> queues_ p in
        let n := N.to_nat (nthreads_ p) in
        Some (with_store (foldl task_drop (store w) (concat dropped))
                (with_pool
                   {| queues_ := replicate n task_queue_new;
                      threads_ := replicate n (Scan 0);
                      exited_ := exited_ p;
                      nthreads_ := nthreads_ p;
                      current_index_ := current_index_ p;
                      queued_ := 0 |} w),
              Returned None, [EvClear dropped; EvReturn None])
      else None
  | _ => None
  end.

Definition first_frame (op : api) : frame :=
  match op with
  | Push _ _ | PushTask _ => Entry
  | Done | Reset => SetDone 0
  | WaitToCompletion => Yielding
  end.

(** One step of a call: each call runs the member function it entered;
    [reset] first runs [done] through [join]. *)
Definition call_step (c : nat) (acquired : bool) (op : api) (fr : frame) (w : world)
  : option (world * frame * list event) :=
  match op with
  | Push _ _ | PushTask _ => task_system_push op acquired fr w
  | Done => task_system_done op fr w
  | Reset =>
      match fr with
      | SetDone _ => task_system_done op fr w
      | _ => reset c fr w
      end
  | WaitToCompletion => wait_to_completion fr w
  end.

(** ** Executions *)

Inductive agent := Worker (id : nat) | Caller (c : nat).

Inductive action :=
| Begin (op : api)                       (* a client enters a member function *)
| Work (id : nat) (acquired : bool)      (* worker [id] takes a step *)
| Advance (c : nat) (acquired : bool).   (* call number [c] takes a step *)

Abbreviation trace := (list (agent * event)).

(** [None] when the action is not enabled. *)
Definition step (a : action) (w : world) : option (world * trace) :=
  if aborted w then None
  else
    match a with
    | Begin op =>
        Some (with_calls (calls w ++ [(op, first_frame op)]) w, [])
    | Work id acquired =>
        match threads_ (pool w) !! id with
        | Some th =>
            match run id acquired th w with
            | Some (w', th', evs) =>
                Some (with_thread id th' w', pair (Worker id) <$> evs)
            | None => None
            end
        | None => None
        end
    | Advance c acquired =>
        match calls w !! c with
        | Some (op, fr) =>
            match call_step c acquired op fr w with
            | Some (w', fr', evs) =>
                Some (with_call c op fr' w', pair (Caller c) <$> evs)
            | None => None
            end
        | None => None
        end
    end.

(** An action that is not enabled leaves everything as it is. *)
Definition apply_action (s : world * trace) (a : action) : world * trace :=
  match step a s.1 with
  | Some (w', evs) => (w', s.2 ++ evs)
  | None => s
  end.

Definition exec (acts : list action) (w : world) : world * trace :=
  foldl apply_action (w, []) acts.

Definition final (acts : list action) (w : world) : world := (exec acts w).1.
Definition history (acts : list action) (w : world) : trace := (exec acts w).2.

(** ** Observations on a world *)

(** Jobs accepted by some queue and not yet popped. *)
Definition jobs_queued (w : world) : nat :=
  sum_list_with (λ q, length (tasks_ q)) (queues_ (pool w)).

(** A call stands between its increment of [queued_] and the push that
    follows it, or between a failed [try_push] and the decrement. *)
Definition call_pending (c : api * frame) : nat :=
  match c.2 with
  | TryPush _ _ _ _ | Revert _ _ _ _ | BlockingPush _ _ _ => 1
  | _ => 0
  end.

(** A worker has popped a job and not yet decremented [queued_]. *)
Definition thread_pending (th : thread) : nat :=
  match th with
  | Dec _ | DrainDec _ _ => 1
  | _ => 0
  end.

Definition in_flight (w : world) : nat :=
  sum_list_with call_pending (calls w)
  + sum_list_with thread_pending (threads_ (pool w)).

(** The events of one agent, in order. *)
Definition events_of (a : agent) (tr : trace) : list event :=
  omap (λ e : agent * event,
          match a, e.1 with
          | Worker i, Worker j | Caller i, Caller j =>
              if bool_decide (i = j) then Some e.2 else None
          | _, _ => None
          end) tr.

(** What the outstanding-work counter holds: the jobs in the queues and the
    increments and pops whose counterpart is still to come, on [std::size_t]. *)
Definition counter_ok (w : world) : Prop :=
  queued_ (pool w) = (N.of_nat (jobs_queued w + in_flight w) mod size_modulus)%N.

(** The vectors of a pool of [n] workers have [n] elements. *)
Record shaped (n : N) (w : world) : Prop := {
  shaped_nthreads : nthreads_ (pool w) = n;
  shaped_queues : length (queues_ (pool w)) = N.to_nat n;
  shaped_threads : length (threads_ (pool w)) = N.to_nat n;
  shaped_exited : length (exited_ (pool w)) = N.to_nat n }.

(** The member functions entered so far, in the order of entry. *)
Definition ops (w : world) : list api := (calls w).*1.

(** Jobs a queue accepted, in the order of the pushes. *)
Definition pushed_to (q : nat) (tr : trace) : list task :=
  flat_map (λ e : agent * event,
              match e.2 with
              | EvTryPush q' t true | EvPush q' t =>
                  if bool_decide (q' = q) then [t] else []
              | _ => []
              end) tr.

(** Jobs the workers popped from a queue, in the order of the pops. *)
Definition popped_from (q : nat) (tr : trace) : list task :=
  flat_map (λ e : agent * event,
              match e.2 with
              | EvTryPop q' (true, t) | EvPop q' (true, t) =>
                  if bool_decide (q' = q) then [t] else []
              | _ => []
              end) tr.

(** Jobs that left a queue, popped or discarded by [reset], in order. *)
Definition taken_from (q : nat) (tr : trace) : list task :=
  flat_map (λ e : agent * event,
              match e.2 with
              | EvTryPop q' (true, t) | EvPop q' (true, t) =>
                  if bool_decide (q' = q) then [t] else []
              | EvClear dropped => default [] (dropped !! q)
              | _ => []
              end) tr.

(** What was pushed to a queue is what left it, then what it holds. *)
Definition fifo_ok (w : world) (tr : trace) : Prop :=
  ∀ q tq, queues_ (pool w) !! q = Some tq →
    pushed_to q tr = taken_from q tr ++ tasks_ tq.

(** Jobs accepted by the pool, in the order of acceptance. *)
Definition accepted (tr : trace) : list task :=
  flat_map (λ e : agent * event,
              match e.2 with
              | EvTryPush _ t true | EvPush _ t => [t]
              | _ => []
              end) tr.

(** Jobs whose invocation returned, in the order of completion. *)
Definition executed (tr : trace) : list task :=
  flat_map (λ e : agent * event,
              match e.2 with EvInvoke t => [t] | _ => [] end) tr.

(** Jobs that are no more: executed or discarded by [reset], in order. *)
Definition retired (tr : trace) : list task :=
  flat_map (λ e : agent * event,
              match e.2 with
              | EvInvoke t => [t]
              | EvClear dropped => concat dropped
              | _ => []
              end) tr.

(** The job a worker has popped and not yet finished with. *)
Definition holding (th : thread) : list task :=
  match th with
  | Dec t | Call t | DrainDec t _ | DrainCall t _ => [t]
  | _ => []
  end.

(** A pool of one worker: what it accepted is what is no more, then what the
    worker holds, then what its queue holds. *)
Definition single_ok (w : world) (tr : trace) : Prop :=
  ∃ th0 q0, threads_ (pool w) = [th0] ∧ queues_ (pool w) = [q0]
            ∧ accepted tr = retired tr ++ holding th0 ++ tasks_ q0.

(** A worker that has returned from [run] has set its flag, and a [reset]
    that is past the [join] of a thread has found it terminated. *)
Definition joined_frame (ths : list thread) (fr : frame) : Prop :=
  match fr with
  | Join j => ∀ i, i < j → i < length ths → ths !! i = Some Terminated
  | Rebuild => ∀ i th, ths !! i = Some th → th = Terminated
  | _ => True
  end.

Definition join_ok (w : world) : Prop :=
  (∀ j, threads_ (pool w) !! j = Some Terminated →
        exited_ (pool w) !! j = Some true)
  ∧ (∀ c op fr, calls w !! c = Some (op, fr) →
                joined_frame (threads_ (pool w)) fr).

(** The reads of the first [i] flags, each of them finding the flag set. *)
Definition flags_read (i : nat) : list event :=
  (λ j, EvReadExited j true) <$> seq 0 i.

(** What a call of [wait_to_completion] has done when it stands at a frame,
    [ex] being the flags and [evs] the events of the call so far. *)
Definition wait_frame_ok (ex : list bool) (evs : list event) (fr : frame) : Prop :=
  match fr with
  | ReadExited i b =>
      i ≤ length ex
      ∧ (b = true →
         (∃ pre, evs = pre ++ EvLoad 0 :: flags_read i)
         ∧ ∀ j, j < i → ex !! j = Some true)
  | Returned _ =>
      (∃ pre, evs = pre ++ EvLoad 0 :: flags_read (length ex) ++ [EvReturn None])
      ∧ ∀ j, j < length ex → ex !! j = Some true
  | _ => True
  end.

Definition wait_ok (w : world) (tr : trace) : Prop :=
  ∀ c fr, calls w !! c = Some (WaitToCompletion, fr) →
    wait_frame_ok (exited_ (pool w)) (events_of (Caller c) tr) fr.

(** Actions that leave every call but [c] where it stands. *)
Definition leaves_others (c : nat) (a : action) : Prop :=
  match a with
  | Advance c' _ => c' = c
  | _ => True
  end.

(** The frames of [wait_to_completion] past its read of the counter. *)
Definition past_read (fr : frame) : bool :=
  match fr with
  | ReadExited _ _ | Returned _ => true
  | _ => false
  end.

(** A call of [wait_to_completion] past a read of zero, in a world whose
    counter has not wrapped around. *)
Definition waiting_ok (c : nat) (w : world) : Prop :=
  counter_ok w
  ∧ (N.of_nat (jobs_queued w + in_flight w) < size_modulus)%N
  ∧ ∃ fr, calls w !! c = Some (WaitToCompletion, fr)
          ∧ (past_read fr = true → queued_ (pool w) = 0%N).

(** ** The dispatch protocol of push, in the words of its description *)

(** The queue tried at attempt [k] of a scan anchored at [base]:
    [(base + k) % n] on [std::size_t]. *)
Definition queue_slot (n base : N) (k : nat) : nat :=
  N.to_nat (size_add base (N.of_nat k) mod n).

(** A failed attempt: increment, [try_push] refused, decrement. *)
Definition failed_attempt (n idx : N) (t : task) (k : nat) : list event :=
  [EvInc; EvTryPush (queue_slot n idx k) t false; EvDec].

Definition failed_attempts (n idx : N) (t : task) (fails : nat) : list event :=
  flat_map (failed_attempt n idx t) (seq 0 fails).

(** What a call of push does when its first [fails] attempts fail: it takes
    the index, fails [fails] times, and either succeeds at the next attempt
    or, having failed [10 * n] times, increments once more and pushes
    unconditionally on queue [idx % n]. *)
Definition dispatch_protocol (n idx : N) (t : task) (fut : option future)
    (fails : nat) : list event :=
  [EvMakeTask t; EvNextIndex idx]
  ++ failed_attempts n idx t fails
  ++ (if bool_decide (fails < N.to_nat (10 * n)) then
        [EvInc; EvTryPush (queue_slot n idx fails) t true;
         EvNotify (queue_slot n idx fails) notify_one; EvReturn fut]
      else
        [EvInc; EvPush (N.to_nat (idx mod n)) t;
         EvNotify (N.to_nat (idx mod n)) notify_one; EvReturn fut]).

Definition is_push (op : api) : bool :=
  match op with Push _ _ | PushTask _ => true | _ => false end.

(** What a call of push has done when it stands at a frame. *)
Definition push_frame_ok (n : N) (evs : list event) (fr : frame) : Prop :=
  match fr with
  | Entry => evs = []
  | Made t fut => evs = [EvMakeTask t]
  | TryInc t fut idx k =>
      (k ≤ 10 * n)%N
      ∧ evs = [EvMakeTask t; EvNextIndex idx]
              ++ failed_attempts n idx t (N.to_nat k)
  | TryPush t fut idx k =>
      (k < 10 * n)%N
      ∧ evs = [EvMakeTask t; EvNextIndex idx]
              ++ failed_attempts n idx t (N.to_nat k) ++ [EvInc]
  | Revert t fut idx k =>
      (k < 10 * n)%N
      ∧ evs = [EvMakeTask t; EvNextIndex idx]
              ++ failed_attempts n idx t (N.to_nat k)
              ++ [EvInc; EvTryPush (queue_slot n idx (N.to_nat k)) t false]
  | BlockingPush t fut idx =>
      evs = [EvMakeTask t; EvNextIndex idx]
            ++ failed_attempts n idx t (N.to_nat (10 * n)) ++ [EvInc]
  | Returned fut =>
      ∃ t idx fails, fails ≤ N.to_nat (10 * n)
                     ∧ evs = dispatch_protocol n idx t fut fails
  | _ => True
  end.

Definition push_ok (n : N) (w : world) (tr : trace) : Prop :=
  (∀ c, calls w !! c = None → events_of (Caller c) tr = [])
  ∧ ∀ c op fr, calls w !! c = Some (op, fr) → is_push op = true →
      push_frame_ok n (events_of (Caller c) tr) fr.

(** ** The draining phase of a worker, in the words of its description *)

(** One [try_pop] of a round; a job obtained is counted off and executed. *)
Definition drain_attempt (n : N) (id k : nat) (r : bool * task) : list event :=
  EvTryPop (queue_slot n (N.of_nat id) k) r
  :: (if r.1 then [EvDec; EvInvoke r.2] else []).

Definition drain_attempts (n : N) (id : nat) (rs : list (bool * task))
  : list event :=
  concat (imap (drain_attempt n id) rs).

(** A round: the counter is read, every queue is tried, the thread yields. *)
Definition drain_round (n : N) (id : nat) (rd : N * list (bool * task))
  : list event :=
  EvLoad rd.1 :: drain_attempts n id rd.2 ++ [EvYield].

Definition drain_rounds (n : N) (id : nat) (rds : list (N * list (bool * task)))
  : list event :=
  flat_map (drain_round n id) rds.

(** A full round is entered on a non-zero counter and tries [n] queues. *)
Definition full_round (n : N) (rd : N * list (bool * task)) : Prop :=
  rd.1 ≠ 0%N ∧ length rd.2 = N.to_nat n.

(** The events [evs] of worker [id] end with: its blocking pop returning
    not-ok, the full rounds [rds], and [tail]. *)
Definition draining (n : N) (id : nat) (evs : list event)
    (rds : list (N * list (bool * task))) (tail : list event) : Prop :=
  Forall (full_round n) rds
  ∧ ∃ pre, evs = pre ++ EvPop id (false, None) :: drain_rounds n id rds ++ tail.

(** What a worker has done when it stands at a point of the draining phase. *)
Definition drain_frame_ok (n : N) (id : nat) (evs : list event) (th : thread)
  : Prop :=
  match th with
  | Finish => ∃ rds, draining n id evs rds []
  | Drain k =>
      ∃ rds v rs, v ≠ 0%N ∧ length rs = N.to_nat k ∧ (k ≤ n)%N
        ∧ draining n id evs rds (EvLoad v :: drain_attempts n id rs)
  | DrainDec t k =>
      ∃ rds v rs, v ≠ 0%N ∧ length rs = N.to_nat k ∧ (k < n)%N
        ∧ draining n id evs rds
            (EvLoad v :: drain_attempts n id rs
               ++ [EvTryPop (queue_slot n (N.of_nat id) (N.to_nat k)) (true, t)])
  | DrainCall t k =>
      ∃ rds v rs, v ≠ 0%N ∧ length rs = N.to_nat k ∧ (k < n)%N
        ∧ draining n id evs rds
            (EvLoad v :: drain_attempts n id rs
               ++ [EvTryPop (queue_slot n (N.of_nat id) (N.to_nat k)) (true, t);
                   EvDec])
  | SetExited => ∃ rds, draining n id evs rds [EvLoad 0]
  | Terminated => ∃ rds, draining n id evs rds [EvLoad 0; EvExited id]
  | _ => True
  end.

Definition drain_ok (n : N) (w : world) (tr : trace) : Prop :=
  ∀ id th, threads_ (pool w) !! id = Some th →
    drain_frame_ok n id (events_of (Worker id) tr) th.

(** The points of the draining phase whose next step touches only the
    counter, the queues (without blocking) or the flag. *)
Definition drain_point (th : thread) : bool :=
  match th with
  | Finish | Drain _ | DrainDec _ _ | SetExited => true
  | _ => false
  end.

(** ** Results and handles *)

(** The future a call of push holds or has returned. *)
Definition frame_future (fr : frame) : option future :=
  match fr with
  | Made _ fut | TryInc _ fut _ _ | TryPush _ fut _ _ | Revert _ fut _ _
  | BlockingPush _ fut _ | Returned fut => fut
  | _ => None
  end.


(** The future of [push (f, x)] is the shared state of a task made of [f]
    and [x]. *)
Definition handle_ok (w : world) : Prop :=
  ∀ c f x fr a, calls w !! c = Some (Push f x, fr) → frame_future fr = Some a →
    ∃ m, store w !! a = Some m ∧ callable (_f m) = f ∧ _args m = x.


(** One step leaves a task object its callable and arguments, and leaves a
    shared state what it is once it holds something. *)
Definition store_extends (hp hp' : heap) : Prop :=
  ∀ a m, hp !! a = Some m →
    ∃ m', hp' !! a = Some m'
          ∧ callable (_f m') = callable (_f m) ∧ _args m' = _args m
          ∧ ∀ s, shared_state (_f m) = Some s → shared_state (_f m') = Some s.

(** ** Who holds a job *)

(** The task a call of push still holds. *)
Definition frame_task (fr : frame) : list task :=
  match fr with
  | Made t _ | TryInc t _ _ _ | TryPush t _ _ _ | Revert t _ _ _
  | BlockingPush t _ _ => [t]
  | _ => []
  end.

Definition task_count (t t' : task) : nat := if decide (t' = t) then 1 else 0.

(** How many times a task is held: by the queues, by the calls of push under
    way, by the workers. *)
Definition owners (t : task) (w : world) : nat :=
  sum_list_with (λ q, sum_list_with (task_count t) (tasks_ q)) (queues_ (pool w))
  + sum_list_with (λ c : api * frame,
                     sum_list_with (task_count t) (frame_task c.2)) (calls w)
  + sum_list_with (λ th, sum_list_with (task_count t) (holding th))
      (threads_ (pool w)).

(** How many times it ought to be: once while its shared state holds
    nothing, never otherwise (and never for the empty task). *)
Definition due (t : task) (hp : heap) : nat :=
  match t with
  | Some a =>
      match hp !! a with
      | Some m => match shared_state (_f m) with None => 1 | Some _ => 0 end
      | None => 0
      end
  | None => 0
  end.

Definition scanning (th : thread) : bool :=
  match th with Scan _ | Dec _ | Call _ => true | _ => false end.

(** Only a call of push holds a task. *)
Definition holders_ok (w : world) : Prop :=
  ∀ c op fr, calls w !! c = Some (op, fr) → is_push op = false →
    frame_task fr = [].

Definition is_begin (a : action) : bool :=
  match a with Begin _ => true | _ => false end.


(** ** Scenarios *)

(** A submission whose first [try_push] succeeds, up to and including the
    speculative increment. *)
Definition speculative_increment (f : A → result) (x : A) : list action :=
  [Begin (Push f x); Advance 0 true; Advance 0 true; Advance 0 true].

(** Pool of one worker: a submission, then the worker pops, counts off and
    runs the job. *)
Definition singleton (f : A → result) (x : A) : list action :=
  speculative_increment f x ++ [Advance 0 true; Work 0 true; Work 0 true; Work 0 true].

(** Pool of one worker: [done], after which the worker scans its empty queue
    ten times, is refused by the blocking pop, reads a zero counter, sets its
    flag and returns. *)
Definition shutdown : list action :=
  [Begin Done; Advance 0 true; Advance 0 true]
  ++ replicate 13 (Work 0 true).

(** A submission accepted after the worker has returned, then [reset] up to
    its last step. *)
Definition late_submission_then_reset (f : A → result) (x : A) : list action :=
  shutdown
  ++ [Begin (Push f x); Advance 1 true; Advance 1 true; Advance 1 true;
      Advance 1 true]
  ++ [Begin Reset; Advance 2 true; Advance 2 true; Advance 2 true;
      Advance 2 true].

(** [wait_to_completion] reads a zero counter; a submission is accepted;
    [wait_to_completion] reads the flag and returns. *)
Definition submission_during_wait (f : A → result) (x : A) : list action :=
  shutdown
  ++ [Begin WaitToCompletion; Advance 1 true; Advance 1 true]
  ++ [Begin (Push f x); Advance 2 true; Advance 2 true; Advance 2 true;
      Advance 2 true]
  ++ [Advance 1 true; Advance 1 true].

(** Pool of one worker that drains: [done] while a submission stands between
    its increment and its [try_push]; the worker makes one round in vain,
    the job is pushed, the worker makes a second round that runs it, reads
    zero and returns. *)
Definition drain_two_rounds (f : A → result) (x : A) : list action :=
  speculative_increment f x
  ++ [Begin Done; Advance 1 true; Advance 1 true]
  ++ replicate 11 (Work 0 true)
  ++ [Work 0 true; Work 0 true; Work 0 true; Work 0 true]
  ++ [Advance 0 true]
  ++ replicate 9 (Work 0 true).

(** Pool of one worker: two submissions accepted one after the other, then
    the worker pops, counts off and runs each job. *)
Definition two_submissions (f : A → result) (x : A) : list action :=
  speculative_increment f x ++ [Advance 0 true]
  ++ [Begin (Push f x); Advance 1 true; Advance 1 true; Advance 1 true;
      Advance 1 true]
  ++ replicate 6 (Work 0 true).

(** ** Further observations *)

Definition past_loop_ok (w : world) : Prop :=
  ∀ id th, threads_ (pool w) !! id = Some th → scanning th = false →
    ∃ tq, queues_ (pool w) !! id = Some tq ∧ done_ tq = true.

(** No latch is set unless [done] or [reset] was entered. *)
Definition quiet_ok (w : world) : Prop :=
  Done ∉ ops w → Reset ∉ ops w →
  Forall (λ q, done_ q = false) (queues_ (pool w)).

(** Short of a [reset], a flag is set only by a worker that has returned. *)
Definition exited_ok (w : world) : Prop :=
  Reset ∉ ops w →
  ∀ j, exited_ (pool w) !! j = Some true → threads_ (pool w) !! j = Some Terminated.

(** The queues below [k] have their latch set. *)
Definition latched (k : nat) (qs : list task_queue) : Prop :=
  ∀ i tq, i < k → qs !! i = Some tq → done_ tq = true.

Definition done_frame_ok (qs : list task_queue) (fr : frame) : Prop :=
  match fr with
  | SetDone k => latched k qs
  | Returned _ => latched (length qs) qs
  | _ => True
  end.

Definition done_ok (w : world) : Prop :=
  Reset ∉ ops w →
  ∀ c fr, calls w !! c = Some (Done, fr) → done_frame_ok (queues_ (pool w)) fr.

(** The indices the submissions took, in the order in which they took them. *)
Definition indices (tr : trace) : list N :=
  flat_map (λ e : agent * event,
              match e.2 with EvNextIndex idx => [idx] | _ => [] end) tr.

Definition index_ok (w : world) (tr : trace) : Prop :=
  current_index_ (pool w) = (N.of_nat (length (indices tr)) mod size_modulus)%N
  ∧ indices tr
    = (λ i, (N.of_nat i mod size_modulus)%N) <$> seq 0 (length (indices tr)).

(** A call of push that has taken its index. *)
Definition took_index (c : api * frame) : nat :=
  match c.2 with
  | TryInc _ _ _ _ | TryPush _ _ _ _ | Revert _ _ _ _ | BlockingPush _ _ _ => 1
  | Returned _ => if is_push c.1 then 1 else 0
  | _ => 0
  end.

Definition taken_ok (w : world) (tr : trace) : Prop :=
  length (indices tr) = sum_list_with took_index (calls w).

(** Where a call of push can stand in a pool of zero workers. *)
Definition zero_frame_ok (fr : frame) : Prop :=
  match fr with
  | Entry | Made _ _ | BlockingPush _ _ _ => True
  | TryInc _ _ _ k => k = 0%N
  | _ => False
  end.

Definition zero_ok (w : world) : Prop :=
  nthreads_ (pool w) = 0%N ∧ threads_ (pool w) = [] ∧ aborted w = false
  ∧ ∀ c op fr, calls w !! c = Some (op, fr) → is_push op = true →
      zero_frame_ok fr.

(** The steps a call of push still has to take at most, [T] being the
    length of its scan. *)
Definition push_steps_left (T : nat) (fr : frame) : nat :=
  match fr with
  | Entry => 3 * T + 4
  | Made _ _ => 3 * T + 3
  | TryInc _ _ _ k => 3 * (T - N.to_nat k) + 2
  | TryPush _ _ _ k => 3 * (T - N.to_nat k) + 1
  | Revert _ _ _ k => 3 * (T - N.to_nat k)
  | BlockingPush _ _ _ => 1
  | _ => 0
  end.

(** The frames of [push]. *)
Definition push_frame (fr : frame) : bool :=
  match fr with
  | Entry | Made _ _ | TryInc _ _ _ _ | TryPush _ _ _ _ | Revert _ _ _ _
  | BlockingPush _ _ _ | Returned _ => true
  | _ => false
  end.

Definition frames_ok (w : world) : Prop :=
  ∀ c op fr, calls w !! c = Some (op, fr) → is_push op = true →
    push_frame fr = true.

(** Every job not yet run or abandoned is held exactly once: by a queue, by
    the call of push that made it, or by a worker. *)
Definition owned_ok (w : world) : Prop :=
  ∀ a, owners (Some a) w = due (Some a) (store w).

(** Jobs that ran have their result in their shared state, and no job ran
    twice. *)
Definition ran_ok (w : world) (tr : trace) : Prop :=
  NoDup (executed tr)
  ∧ ∀ t, t ∈ executed tr →
      ∃ a m, t = Some a ∧ store w !! a = Some m
             ∧ shared_state (_f m)
               = Some (Completed (callable (_f m) (_args m))).

(** What leaves [run] by an exception. *)
Definition thrown (tr : trace) : list exn :=
  flat_map (λ e : agent * event,
              match e.2 with EvThrow x => [x] | _ => [] end) tr.

(** Unless an empty task was handed to [push (task &&)], nothing was thrown
    and nobody holds an empty task. *)
Definition empty_ok (w : world) : Prop :=
  PushTask None ∉ ops w → aborted w = false ∧ owners None w = 0.

(** A job obtained from a queue has been run, or is held by the worker that
    obtained it, or an exception has ended the process. *)
Definition popped_ok (w : world) (tr : trace) : Prop :=
  ∀ q t, t ∈ popped_from q tr →
    t ∈ executed tr ∨ aborted w = true
    ∨ ∃ id th, threads_ (pool w) !! id = Some th ∧ t ∈ holding th.

(** A call of [push (f, args...)] holds the task of its future until a
    queue has accepted it. *)
Definition submitted_frame_ok (n : N) (tr : trace) (fr : frame) (h : future)
  : Prop :=
  match fr with
  | Returned _ => ∃ q, q < N.to_nat n ∧ Some h ∈ pushed_to q tr
  | _ => frame_task fr = [Some h]
  end.

Definition submitted_ok (n : N) (w : world) (tr : trace) : Prop :=
  ∀ c f x fr h, calls w !! c = Some (Push f x, fr) → frame_future fr = Some h →
    submitted_frame_ok n tr fr h.

Definition returned (c : api * frame) : bool :=
  match c.2 with Returned _ => true | _ => false end.

(** The schedules in which a member function is entered only once every
    earlier call has returned: those of a pool used from a single thread. *)
Fixpoint serial (w : world) (acts : list action) : bool :=
  match acts with
  | [] => true
  | a :: acts' =>
      match a with Begin _ => forallb returned (calls w) | _ => true end
      && serial (final [a] w) acts'
  end.

(** The calls [perform_search] makes on its pool, [files] being the files of
    the walk that pass the filter: one submission of [find_matches] for each
    of them, then [done] and [wait_to_completion]. *)
Definition perform_search (find_matches : A → result) (files : list A) : list api :=
  (Push find_matches <$> files) ++ [Done; WaitToCompletion].

(** A call of [wait_to_completion] on its way out has read a zero counter. *)
Definition leaving (fr : frame) : bool :=
  match fr with
  | ReadExited _ true | Returned _ => true
  | _ => false
  end.

(** A call of [push (f, args...)] past its entry holds a future. *)
Definition future_ok (w : world) : Prop :=
  ∀ c f x fr, calls w !! c = Some (Push f x, fr) →
    match fr with Entry => True | _ => is_Some (frame_future fr) end.

(** The frames a call of a member function passes through. *)
Definition frame_of (op : api) (fr : frame) : bool :=
  match op with
  | Push _ _ | PushTask _ => push_frame fr
  | Done => match fr with SetDone _ | Returned _ => true | _ => false end
  | WaitToCompletion =>
      match fr with
      | Yielding | ReadQueued | ReadExited _ _ | Returned _ => true
      | _ => false
      end
  | Reset =>
      match fr with
      | SetDone _ | Join _ | Rebuild | Returned _ => true
      | _ => false
      end
  end.

Definition framed_ok (w : world) : Prop :=
  ∀ c op fr, calls w !! c = Some (op, fr) → frame_of op fr = true.

(** Jobs a worker obtained from the queues, in the order it obtained them. *)
Definition popped_by (id : nat) (tr : trace) : list task :=
  flat_map (λ e : event,
              match e with
              | EvTryPop _ (true, t) | EvPop _ (true, t) => [t]
              | _ => []
              end) (events_of (Worker id) tr).

(** Jobs a worker ran to their return, in the order it ran them. *)
Definition executed_by (id : nat) (tr : trace) : list task :=
  flat_map (λ e : event, match e with EvInvoke t => [t] | _ => [] end)
    (events_of (Worker id) tr).

(** A worker has run what it obtained, but for the job it holds. *)
Definition worker_ok (w : world) (tr : trace) : Prop :=
  ∀ id th, threads_ (pool w) !! id = Some th →
    popped_by id tr = executed_by id tr ++ holding th.

(** A call of push that has not returned. *)
Definition submitting (c : api * frame) : nat :=
  if is_push c.1 && negb (returned c) then 1 else 0.

(** The schedules in which [push] is entered only once every earlier call
    of [push] has returned: the submissions come from a single thread, or
    are otherwise kept from overlapping. *)
Fixpoint submitted_in_turn (w : world) (acts : list action) : bool :=
  match acts with
  | [] => true
  | a :: acts' =>
      match a with
      | Begin op =>
          negb (is_push op)
          || bool_decide (sum_list_with submitting (calls w) = 0)
      | _ => true
      end
      && submitted_in_turn (final [a] w) acts'
  end.












(** Pool of one worker, used from a single thread: a submission, [done],
    and the worker popping, counting off and running the job. *)
Definition client_session_start (f : A → result) (x : A) : list action :=
  speculative_increment f x ++ [Advance 0 true]
  ++ [Begin Done; Advance 1 true; Advance 1 true]
  ++ replicate 3 (Work 0 true).

(** The rest of the session: the worker scans in vain, is refused by its
    blocking pop, reads a zero counter, sets its flag and returns; then
    [wait_to_completion] runs to its return. *)
Definition client_session_end : list action :=
  replicate 13 (Work 0 true)
  ++ [Begin WaitToCompletion] ++ replicate 4 (Advance 2 true).

(** [reset] entered on a pool of one worker at work, up to its [join]. *)
Definition reset_joining : list action :=
  [Begin Reset; Advance 0 true; Advance 0 true].

(** Pool of two workers: two submissions accepted by queue 0, the second
    after a refused [try_push] on queue 1; worker 0 pops the first job,
    worker 1 steals the second and runs it, then worker 0 runs the first. *)
Definition overtaking (f : A → result) (x : A) : list action :=
  speculative_increment f x ++ [Advance 0 true]
  ++ [Begin (Push f x); Advance 1 true; Advance 1 true; Advance 1 true;
      Advance 1 false; Advance 1 true; Advance 1 true; Advance 1 true]
  ++ [Work 0 true]
  ++ replicate 4 (Work 1 true)
  ++ replicate 2 (Work 0 true).



(** ** Basic facts *)

Lemma exec_snoc (acts : list action) (a : action) (w : world) :
  exec (acts ++ [a]) w = apply_action (exec acts w) a.
Proof. unfold exec. by rewrite foldl_app. Qed.

Lemma exec_app (acts1 acts2 : list action) (w : world) :
  exec (acts1 ++ acts2) w = foldl apply_action (exec acts1 w) acts2.
Proof. unfold exec. by rewrite foldl_app. Qed.

(** Induction over the executions from a given world: a property of a world
    and the history that led to it. *)
Lemma exec_ind (P : world → trace → Prop) (w0 : world) :
  P w0 [] →
  (∀ w tr a w' evs, P w tr → step a w = Some (w', evs) → P w' (tr ++ evs)) →
  ∀ acts, P (final acts w0) (history acts w0).
Proof.
  intros H0 Hstep acts. unfold final, history.
  induction acts as [|a acts IH] using rev_ind; [done|].
  rewrite exec_snoc. unfold apply_action.
  destruct (exec acts w0) as [w tr]; simpl in *.
  destruct (step a w) as [[w' evs]|] eqn:Hs; simpl; eauto.
Qed.

(** ** The queue operations and the call operator *)

(** C6. Blocking pop: the call waits exactly while the FIFO is empty and the
    done latch is unset; once it returns, the result is not-ok with the empty
    task exactly when the FIFO is empty, the done latch is then set and the
    queue is left as it was; otherwise the head job is removed and returned. *)
Theorem pop_contract (q : task_queue) :
  (pop q = None ↔ tasks_ q = [] ∧ done_ q = false) ∧
  (∀ r q', pop q = Some (r, q') →
     (r.1 = false ↔ tasks_ q = []) ∧
     (tasks_ q = [] → r = (false, None) ∧ done_ q = true ∧ q' = q) ∧
     (∀ t rest, tasks_ q = t :: rest →
        r = (true, t) ∧ tasks_ q' = rest ∧ done_ q' = done_ q)).
Proof.
  unfold pop. destruct q as [[|t rest] [|]]; simpl;
    (split; [split; [try done; discriminate | by intros [? ?]] |]);
    intros r q' Hr; try discriminate; injection Hr as <- <-; simpl;
    split_and!; try done; intros ? ? Hq; by injection Hq as <- <-.
Qed.

(** C7. try_push: when the mutex is not acquired the call returns not-ok, the
    caller's job is the one it passed (still valid if it was) and the FIFO is
    unchanged, and nobody is notified; when the mutex is acquired the job is
    appended at the back of the FIFO, the caller's task is moved from, one
    [notify_one] is issued and the call returns ok. *)
Theorem try_push_contract (acquired : bool) (t : task) (q : task_queue) :
  let '((ok, t'), q', cvs) := try_push acquired t q in
  ok = acquired ∧
  (acquired = false →
     t' = t ∧ task_bool t' = task_bool t ∧ q' = q ∧ cvs = []) ∧
  (acquired = true →
     tasks_ q' = tasks_ q ++ [t] ∧ done_ q' = done_ q ∧ t' = None
     ∧ cvs = [notify_one]).
Proof. destruct acquired; simpl; repeat split; done. Qed.

(** C9. Invoking an empty (default constructed or moved from) task throws
    [std::logic_error] out of the call operator, on the thread that invoked
    it, and leaves the store untouched; a worker that does so is left with
    the exception.  The call operator throws that error for no other task: a
    failure raised by the callable is stored in the shared state and the call
    returns normally. *)
Theorem bad_task_access (hp : heap) :
  task_call None hp = Some (inl (logic_error "bad task access")) ∧
  (∀ t, task_bool t = false →
     task_call t hp = Some (inl (logic_error "bad task access"))) ∧
  (∀ t q, task_call (try_push true t q).1.1.2 hp
          = Some (inl (logic_error "bad task access"))) ∧
  (∀ t what, task_call t hp = Some (inl (logic_error what)) → t = None) ∧
  (∀ a m e, hp !! a = Some m → shared_state (_f m) = None →
     callable (_f m) (_args m) = Raised e →
     ∃ hp', task_call (Some a) hp = Some (inr hp')
            ∧ await hp' a = Some (Completed (Raised e))) ∧
  (∀ w next, run_call None next w
             = Some (abort w, Call None,
                     [EvThrow (logic_error "bad task access")])).
Proof.
  repeat split.
  - by intros [a|] [=].
  - intros [a|] what; [|done]. simpl. unfold invoke_.
    destruct (hp !! a) as [m|]; simpl; [|done].
    by destruct (shared_state (_f m)).
  - intros a m e Hm Hs He. eexists. split.
    + simpl. unfold invoke_. rewrite Hm. simpl. rewrite Hs. done.
    + unfold await. rewrite list_lookup_insert_eq by by eapply lookup_lt_Some.
      simpl. by rewrite He.
Qed.

(** ** Sums over updated vectors *)

Lemma sum_list_with_insert {X : Type} (f : X → nat) (l : list X) (i : nat) (x y : X) :
  l !! i = Some x →
  sum_list_with f (<[i:=y]> l) + f x = sum_list_with f l + f y.
Proof.
  revert i. induction l as [|z l IH]; intros [|i] Hi; simplify_eq/=; [lia|].
  specialize (IH _ Hi). lia.
Qed.

Lemma sum_list_with_lookup {X : Type} (f : X → nat) (l : list X) (i : nat) (x : X) :
  l !! i = Some x → f x ≤ sum_list_with f l.
Proof.
  revert i. induction l as [|z l IH]; intros [|i] Hi; simplify_eq/=; [lia|].
  specialize (IH _ Hi). lia.
Qed.

Lemma sum_list_with_replicate {X : Type} (f : X → nat) (n : nat) (x : X) :
  sum_list_with f (replicate n x) = n * f x.
Proof. induction n as [|n IH]; simpl; lia. Qed.

Lemma sum_list_with_zero {X : Type} (f : X → nat) (l : list X) :
  Forall (λ x, f x = 0) l → sum_list_with f l = 0.
Proof. induction 1 as [|x l Hx _ IH]; simpl; lia. Qed.

Lemma forallb_bystander_pending (cs : list (api * frame)) :
  forallb bystander cs = true → sum_list_with call_pending cs = 0.
Proof.
  intros H. apply sum_list_with_zero. apply Forall_forall. intros [op fr] Hin.
  rewrite forallb_forall in H. apply list_elem_of_In in Hin. apply H in Hin.
  unfold bystander, call_pending in *. simpl in *. by destruct fr.
Qed.

(** ** Case analysis of a step *)

Ltac step_cases H :=
  unfold step in H;
  let Hab := fresh "Hab" in
  match type of H with
  | context [aborted ?w] => destruct (aborted w) eqn:Hab; [discriminate|]
  end;
  match type of H with
  | (match ?a with _ => _ end = _) =>
      let op := fresh "op" in let id := fresh "id" in
      let c := fresh "c" in let b := fresh "b" in
      destruct a as [op|id b|c b]
  end;
  [ injection H as <- <-
  | let th := fresh "th" in let Hth := fresh "Hth" in
    let w1 := fresh "w1" in let th' := fresh "th'" in
    let evs1 := fresh "evs1" in let Hrun := fresh "Hrun" in
    match type of H with
    | (match ?l !! ?i with _ => _ end = _) =>
        destruct (l !! i) as [th|] eqn:Hth; [|discriminate]
    end;
    destruct (run _ _ th _) as [[[w1 th'] evs1]|] eqn:Hrun; [|discriminate];
    injection H as <- <-
  | let op := fresh "op" in let fr := fresh "fr" in let Hc := fresh "Hc" in
    let w1 := fresh "w1" in let fr' := fresh "fr'" in
    let evs1 := fresh "evs1" in let Hcs := fresh "Hcs" in
    match type of H with
    | (match ?l !! ?i with _ => _ end = _) =>
        destruct (l !! i) as [[op fr]|] eqn:Hc; [|discriminate]
    end;
    destruct (call_step _ _ op fr _) as [[[w1 fr'] evs1]|] eqn:Hcs;
      [|discriminate];
    injection H as <- <- ].

Ltac crush_step :=
  repeat (simplify_eq/= ||
          match goal with
          | H : context [match ?x with _ => _ end] |- _ =>
              let E := fresh "E" in destruct x eqn:E
          | H : (_ ≫= _) = Some _ |- _ => apply bind_Some in H as (? & ? & ?)
          end).

(** ** Shape of the reachable worlds *)

Lemma step_shaped (n : N) (a : action) (w w' : world) (evs : trace) :
  shaped n w → step a w = Some (w', evs) → shaped n w'.
Proof.
  intros [H1 H2 H3 H4] Hs. step_cases Hs.
  - done.
  - unfold run, run_call in *. destruct th; crush_step;
      split; simpl; rewrite ?length_insert; done.
  - unfold call_step, task_system_push, task_system_done, reset,
      wait_to_completion in *.
    destruct op, fr; crush_step; split; simpl;
      rewrite ?length_insert, ?length_replicate; done.
Qed.

Lemma others_quiet_pending (c : nat) (cs : list (api * frame)) (x : api * frame) :
  others_quiet c cs = true → cs !! c = Some x →
  sum_list_with call_pending cs = call_pending x.
Proof.
  unfold others_quiet. intros [Ht Hd]%andb_prop Hc.
  rewrite <- (take_drop_middle cs c x Hc), sum_list_with_app. simpl.
  rewrite !forallb_bystander_pending by done. lia.
Qed.

Ltac sum_facts :=
  repeat match goal with
  | H : ?l !! ?i = Some ?x |- context [sum_list_with ?f (<[?i := ?y]> ?l)] =>
      let F := fresh "F" in let s := fresh "s" in
      pose proof (sum_list_with_insert f l i x y H) as F;
      set (s := sum_list_with f (<[i := y]> l)) in *; clearbody s
  end.

Ltac split_lookup :=
  match goal with
  | H : <[?x := _]> ?l !! ?q = Some _ |- _ =>
      destruct (decide (x = q)) as [->|?];
      [ rewrite list_lookup_insert_eq in H by (by eapply lookup_lt_Some)
      | rewrite list_lookup_insert_ne in H by done ]
  end.

Ltac unfold_size :=
  unfold size_inc, size_dec, size_add, size_mul, size_modulus in *.

Ltac finish_sum :=
  cbn -[sum_list_with]; sum_facts; cbn in *;
  repeat match goal with H : tasks_ _ = _ |- _ => rewrite H in * end;
  repeat (case_match; simplify_eq/=);
  cbn in *; rewrite ?length_app in *; cbn in *; unfold_size; lia.

(** ** The outstanding-work counter *)

Lemma step_counter_ok (a : action) (w w' : world) (evs : trace) :
  counter_ok w → step a w = Some (w', evs) → counter_ok w'.
Proof.
  unfold counter_ok, jobs_queued, in_flight. intros Hq Hs. step_cases Hs.
  - simpl. rewrite sum_list_with_app. simpl.
    replace (call_pending (op, first_frame op)) with 0 by by destruct op.
    rewrite Hq. f_equal. lia.
  - unfold run, run_call, try_pop, pop in *. destruct th; crush_step;
      finish_sum.
  - unfold call_step, task_system_push, task_system_done, reset,
      wait_to_completion, try_push, push, set_done in *.
    destruct op, fr; crush_step; try finish_sum.
    cbn -[sum_list_with].
    pose proof (others_quiet_pending _ _ _ E Hc) as Hp.
    sum_facts. rewrite !sum_list_with_replicate.
    cbn in *. unfold_size. lia.
Qed.

Lemma init_counter_ok (n : N) : counter_ok (init n).
Proof.
  unfold counter_ok, jobs_queued, in_flight. simpl.
  rewrite !sum_list_with_replicate. simpl. rewrite !Nat.mul_0_r. done.
Qed.

Lemma reachable_counter_ok (n : N) (acts : list action) :
  counter_ok (final acts (init n)).
Proof.
  apply (exec_ind (λ w _, counter_ok w)); [apply init_counter_ok|].
  intros w tr a w' evs Hw Hs. by eapply step_counter_ok.
Qed.


(** ** Events of one agent *)

Lemma events_of_app (a : agent) (tr1 tr2 : trace) :
  events_of a (tr1 ++ tr2) = events_of a tr1 ++ events_of a tr2.
Proof. apply omap_app. Qed.

Lemma events_of_own (a : agent) (evs : list event) :
  events_of a (pair a <$> evs) = evs.
Proof.
  destruct a; unfold events_of; (induction evs as [|e evs IH]; [done|]);
    simpl; rewrite bool_decide_eq_true_2 by done; simpl; f_equal; apply IH.
Qed.

Lemma events_of_other (a a' : agent) (evs : list event) :
  a ≠ a' → events_of a (pair a' <$> evs) = [].
Proof.
  intros Hne.
  destruct a, a'; unfold events_of; (induction evs as [|e evs IH]; [done|]);
    simpl; try apply IH;
    rewrite bool_decide_eq_false_2 by congruence; apply IH.
Qed.

(** ** First in, first out *)

Lemma step_fifo_ok (n : N) (a : action) (w w' : world) (tr evs : trace) :
  shaped n w →
  fifo_ok w tr → step a w = Some (w', evs) → fifo_ok w' (tr ++ evs).
Proof.
  unfold fifo_ok, pushed_to, taken_from. intros Hsh IH Hs q tq.
  rewrite !flat_map_app. step_cases Hs.
  - simpl. rewrite !app_nil_r. apply IH.
  - unfold run, run_call, try_pop, pop in *. destruct th; crush_step;
      cbn; rewrite ?app_nil_r; try apply IH.
    all: intros Hq; split_lookup.
    all: simplify_eq/=; try case_bool_decide; try done;
         rewrite ?app_nil_r; try (by apply IH).
    all: erewrite IH by done; simplify_eq/=;
         repeat match goal with H : tasks_ _ = _ |- _ => rewrite H end;
         by rewrite <- ?app_assoc.
  - unfold call_step, task_system_push, task_system_done, reset,
      wait_to_completion, try_push, push, set_done in *.
    destruct op, fr; crush_step; cbn; rewrite ?app_nil_r; try apply IH.
    all: intros Hq; try split_lookup.
    all: simplify_eq/=; try case_bool_decide; try done;
         rewrite ?app_nil_r; try (by apply IH).
    all: try (erewrite IH by done; simplify_eq/=;
         repeat match goal with H : tasks_ _ = _ |- _ => rewrite H end;
         by rewrite <- ?app_assoc).
    apply lookup_replicate in Hq as [-> Hlt].
    destruct Hsh as [Hn Hlen _ _]. rewrite Hn, <- Hlen in Hlt.
    apply lookup_lt_is_Some in Hlt as [tq0 Htq0].
    rewrite list_lookup_fmap, Htq0. simpl.
    rewrite (IH _ _ Htq0). by rewrite ?app_nil_r, <- ?app_assoc.
Qed.

Lemma ops_with_call (c : nat) (op : api) (fr fr' : frame) (w w1 : world) :
  calls w !! c = Some (op, fr) → calls w1 = calls w →
  ops (with_call c op fr' w1) = ops w.
Proof.
  intros Hc Heq. unfold ops, with_call. simpl. rewrite Heq, list_fmap_insert.
  apply list_insert_id. by rewrite list_lookup_fmap, Hc.
Qed.

Lemma run_calls (id : nat) (b : bool) (th th' : thread) (w w' : world) evs :
  run id b th w = Some (w', th', evs) → calls w' = calls w.
Proof. intros H. unfold run, run_call in H. destruct th; crush_step; done. Qed.

Lemma call_step_calls c b op fr w w' fr' evs :
  call_step c b op fr w = Some (w', fr', evs) → calls w' = calls w.
Proof.
  intros H. unfold call_step, task_system_push, task_system_done, reset,
    wait_to_completion in H. destruct op, fr; crush_step; done.
Qed.

Lemma step_ops (a : action) (w w' : world) (evs : trace) :
  step a w = Some (w', evs) →
  ops w' = ops w ++ match a with Begin op => [op] | _ => [] end.
Proof.
  intros Hs. step_cases Hs.
  - unfold ops. simpl. by rewrite fmap_app.
  - rewrite app_nil_r. unfold ops. simpl. by erewrite run_calls.
  - rewrite app_nil_r. eapply ops_with_call; [done|].
    by eapply call_step_calls.
Qed.

(** ** Termination of the workers and [join] *)

Lemma others_quiet_lookup (c c' : nat) (cs : list (api * frame)) (x : api * frame) :
  others_quiet c cs = true → c' ≠ c → cs !! c' = Some x → bystander x = true.
Proof.
  unfold others_quiet. intros [Ht Hd]%andb_prop Hne Hx.
  rewrite forallb_forall in Ht, Hd.
  destruct (decide (c' < c)) as [Hlt|Hge].
  - apply Ht, list_elem_of_In, list_elem_of_lookup. exists c'.
    by rewrite lookup_take_lt.
  - apply Hd, list_elem_of_In, list_elem_of_lookup. exists (c' - S c).
    rewrite lookup_drop, <- Hx. f_equal. lia.
Qed.

Lemma run_not_terminated id b th w w' th' evs :
  run id b th w = Some (w', th', evs) → th ≠ Terminated.
Proof. by intros H ->. Qed.

Lemma run_exited id b th w w' th' evs :
  run id b th w = Some (w', th', evs) →
  threads_ (pool w') = threads_ (pool w)
  ∧ ((th' ≠ Terminated ∧ exited_ (pool w') = exited_ (pool w))
     ∨ (th' = Terminated ∧ id < length (exited_ (pool w))
        ∧ exited_ (pool w') = <[id := true]> (exited_ (pool w)))).
Proof.
  intros H. unfold run, run_call in H.
  destruct th; crush_step; (split; [done|]);
    try (left; split; [by repeat case_match|done]).
  right. by apply bool_decide_eq_true in E.
Qed.

Lemma joined_frame_insert ths id th th' fr :
  ths !! id = Some th → th ≠ Terminated →
  joined_frame ths fr → joined_frame (<[id:=th']> ths) fr.
Proof.
  intros Hid Hnt. destruct fr; simpl; try done.
  - intros H i Hi Hlen. rewrite length_insert in Hlen.
    destruct (decide (i = id)) as [->|Hne].
    + specialize (H _ Hi Hlen). congruence.
    + rewrite list_lookup_insert_ne by done. by apply H.
  - intros H i th0 Hi. by apply H in Hid.
Qed.

Lemma call_step_join c b op fr w w' fr' evs :
  call_step c b op fr w = Some (w', fr', evs) →
  exited_ (pool w') = exited_ (pool w)
  ∧ ((threads_ (pool w') = threads_ (pool w)
      ∧ (joined_frame (threads_ (pool w)) fr
         → joined_frame (threads_ (pool w)) fr'))
     ∨ (threads_ (pool w')
        = replicate (N.to_nat (nthreads_ (pool w))) (Scan 0)
        ∧ others_quiet c (calls w) = true ∧ fr' = Returned None)).
Proof.
  intros H. unfold call_step, task_system_push, task_system_done, reset,
    wait_to_completion in H.
  destruct op, fr; crush_step; (split; [done|]);
    try (left; split; [done|]; by repeat case_match);
    try (right; done); left; (split; [done|]); simpl.
  - intros _ i Hi. lia.
  - intros Hj i Hi Hlen. destruct (decide (i = j)) as [->|Hne]; [done|].
    apply Hj; [lia|done].
  - intros Hj i th Hi. pose proof (lookup_lt_Some _ _ _ Hi) as Hlt.
    apply lookup_ge_None in E. rewrite Hj in Hi by lia. congruence.
Qed.

Lemma init_join_ok (n : N) : join_ok (init n).
Proof.
  split.
  - intros j [[=] _]%lookup_replicate.
  - intros c op fr [=].
Qed.

Lemma step_join_ok (a : action) (w w' : world) (evs : trace) :
  join_ok w → step a w = Some (w', evs) → join_ok w'.
Proof.
  intros [Hex Hjoin] Hs. step_cases Hs.
  - split; [done|]. intros c op' fr. simpl.
    intros [Hc|[_ Hc]]%lookup_app_Some; [by eapply Hjoin|].
    apply list_lookup_singleton_Some in Hc as [_ [= <- <-]]. by destruct op.
  - pose proof (run_not_terminated _ _ _ _ _ _ _ Hrun) as Hnt.
    pose proof (run_calls _ _ _ _ _ _ _ Hrun) as Hcalls.
    apply run_exited in Hrun as [Hths Hexd]. split.
    + simpl. rewrite Hths. intros j Hj.
      destruct (decide (id = j)) as [->|Hne].
      * rewrite list_lookup_insert_eq in Hj by by eapply lookup_lt_Some.
        destruct Hexd as [[? _]|(_ & Hlt & ->)]; [congruence|].
        by rewrite list_lookup_insert_eq.
      * rewrite list_lookup_insert_ne in Hj by done. apply Hex in Hj.
        destruct Hexd as [[_ ->]|(_ & _ & ->)]; [done|].
        by rewrite list_lookup_insert_ne.
    + simpl. rewrite Hths, Hcalls. intros c op fr Hc.
      eapply joined_frame_insert; eauto.
  - pose proof (call_step_calls _ _ _ _ _ _ _ _ Hcs) as Hcalls.
    apply call_step_join in Hcs as [Hexd [[Hths Himp]|(Hths & Hq & ->)]].
    + split; simpl; rewrite Hths, ?Hexd; [done|]. rewrite Hcalls.
      intros c' op' fr'' Hc'. destruct (decide (c = c')) as [->|Hne].
      * rewrite list_lookup_insert_eq in Hc' by by eapply lookup_lt_Some.
        injection Hc' as <- <-. eapply Himp, Hjoin. done.
      * rewrite list_lookup_insert_ne in Hc' by done. by eapply Hjoin.
    + split; simpl; rewrite Hths.
      * intros j [[=] _]%lookup_replicate.
      * rewrite Hcalls. intros c' op' fr'' Hc'.
        destruct (decide (c = c')) as [->|Hne].
        -- rewrite list_lookup_insert_eq in Hc' by by eapply lookup_lt_Some.
           by injection Hc' as <- <-.
        -- rewrite list_lookup_insert_ne in Hc' by done.
           eapply others_quiet_lookup in Hq; [|done..].
           unfold bystander in Hq. simpl in Hq. by destruct fr''.
Qed.

Lemma step_single_ok (a : action) (w w' : world) (tr evs : trace) :
  shaped 1 w → join_ok w →
  single_ok w tr → step a w = Some (w', evs) → single_ok w' (tr ++ evs).
Proof.
  unfold single_ok, accepted, retired.
  intros [Hn _ _ _] [_ Hjoin] (th0 & q0 & Hths & Hqs & IH) Hs.
  rewrite !flat_map_app, IH.
  step_cases Hs.
  - exists th0, q0. simpl. by rewrite !app_nil_r.
  - rewrite Hths in Hth. apply list_lookup_singleton_Some in Hth as [-> <-].
    unfold run, run_call, try_pop, pop in *. rewrite ?Hqs in *.
    destruct th0; crush_step;
      repeat match goal with
      | H : [_] !! _ = Some _ |- _ =>
          apply list_lookup_singleton_Some in H as [-> ->]
      end;
      cbn; rewrite ?Hths, ?Hqs; cbn; do 2 eexists; (split_and!; [done..|]);
      cbn; 
      repeat match goal with H : tasks_ _ = _ |- _ => rewrite H end;
      rewrite ?app_nil_r, <- ?app_assoc; repeat case_match; done.
  - assert (calls w1 = calls w) as Hcalls by by eapply call_step_calls.
    specialize (Hjoin _ _ _ Hc). rewrite Hths in Hjoin.
    unfold call_step, task_system_push, task_system_done, reset,
      wait_to_completion, try_push, push, set_done in *. rewrite ?Hqs in *.
    destruct op, fr; crush_step;
      repeat match goal with
      | H : [_] !! _ = Some _ |- _ =>
          apply list_lookup_singleton_Some in H as [-> ->]
      end;
      cbn; rewrite ?Hths, ?Hqs, ?Hn; cbn; do 2 eexists;
      (split_and!; [done..|]); cbn;
      repeat match goal with H : tasks_ _ = _ |- _ => rewrite H end;
      rewrite ?app_nil_r, <- ?app_assoc; repeat case_match; try done.
    by rewrite (Hjoin 0 th0 eq_refl).
Qed.

Lemma init_shaped (n : N) : shaped n (init n).
Proof. split; simpl; by rewrite ?length_replicate. Qed.

Lemma reachable_shaped (n : N) (acts : list action) :
  shaped n (final acts (init n)).
Proof.
  apply (exec_ind (λ w _, shaped n w)); [apply init_shaped|].
  intros w tr a w' evs Hw Hs. by eapply step_shaped.
Qed.

Lemma reachable_join_ok (n : N) (acts : list action) :
  join_ok (final acts (init n)).
Proof.
  apply (exec_ind (λ w _, join_ok w)); [apply init_join_ok|].
  intros w tr a w' evs Hw Hs. by eapply step_join_ok.
Qed.

Lemma reachable_fifo_ok (n : N) (acts : list action) :
  fifo_ok (final acts (init n)) (history acts (init n)).
Proof.
  cut (shaped n (final acts (init n))
       ∧ fifo_ok (final acts (init n)) (history acts (init n))); [by intros []|].
  apply (exec_ind (λ w tr, shaped n w ∧ fifo_ok w tr)).
  - split; [apply init_shaped|]. intros q tq [-> _]%lookup_replicate. done.
  - intros w tr a w' evs [Hsh Hf] Hs. split.
    + by eapply step_shaped.
    + by eapply step_fifo_ok.
Qed.

Lemma reachable_single_ok (acts : list action) :
  single_ok (final acts (init 1)) (history acts (init 1)).
Proof.
  cut (shaped 1 (final acts (init 1)) ∧ join_ok (final acts (init 1))
       ∧ single_ok (final acts (init 1)) (history acts (init 1)));
    [by intros (_ & _ & ?)|].
  apply (exec_ind (λ w tr, shaped 1 w ∧ join_ok w ∧ single_ok w tr)).
  - split_and!; [apply init_shaped|apply init_join_ok|].
    by exists (Scan 0), task_queue_new.
  - intros w tr a w' evs (Hsh & Hj & Hf) Hs. split_and!.
    + by eapply step_shaped.
    + by eapply step_join_ok.
    + by eapply step_single_ok.
Qed.

Lemma step_no_clear (a : action) (w w' : world) (evs : trace) :
  step a w = Some (w', evs) → Reset ∉ ops w' →
  retired evs = executed evs
  ∧ ∀ q, taken_from q evs = popped_from q evs.
Proof.
  intros Hs Hno. pose proof (step_ops _ _ _ _ Hs) as Hops.
  step_cases Hs.
  - done.
  - unfold run, run_call, try_pop, pop in *.
    destruct th; crush_step; repeat case_match; done.
  - assert (op ≠ Reset) as Hop.
    { intros ->. apply Hno. rewrite Hops, app_nil_r.
      apply list_elem_of_lookup. exists c. unfold ops.
      by rewrite list_lookup_fmap, Hc. }
    unfold call_step, task_system_push, task_system_done, reset,
      wait_to_completion, try_push, push, set_done in *.
    destruct op, fr; crush_step; repeat case_match; done.
Qed.

Lemma reachable_no_clear (n : N) (acts : list action) :
  Reset ∉ ops (final acts (init n)) →
  retired (history acts (init n)) = executed (history acts (init n))
  ∧ ∀ q, taken_from q (history acts (init n))
         = popped_from q (history acts (init n)).
Proof.
  apply (exec_ind (λ w tr, Reset ∉ ops w →
           retired tr = executed tr ∧ ∀ q, taken_from q tr = popped_from q tr)).
  - done.
  - intros w tr a w' evs IH Hs Hno.
    destruct (step_no_clear _ _ _ _ Hs Hno) as [H1 H2].
    destruct IH as [IH1 IH2].
    { intros Hin. apply Hno. rewrite (step_ops _ _ _ _ Hs).
      apply elem_of_app. by left. }
    unfold retired, executed, taken_from, popped_from in *.
    split; [|intros q; specialize (IH2 q); specialize (H2 q)];
      rewrite !flat_map_app; congruence.
Qed.

Lemma executed_sublist_retired (tr : trace) :
  executed tr `sublist_of` retired tr.
Proof.
  induction tr as [|[ag e] tr IH]; simpl; [done|].
  destruct e; simpl; first [done | by constructor | by apply sublist_inserts_l].
Qed.

Lemma popped_sublist_taken (q : nat) (tr : trace) :
  popped_from q tr `sublist_of` taken_from q tr.
Proof.
  induction tr as [|[ag e] tr IH]; simpl; [done|].
  destruct e; simpl; repeat case_match; simpl;
    first [done | by constructor | by apply sublist_inserts_l].
Qed.

Lemma step_worker_ok (n : N) (a : action) (w w' : world) (tr evs : trace) :
  shaped n w → join_ok w → worker_ok w tr → step a w = Some (w', evs) →
  worker_ok w' (tr ++ evs).
Proof.
  unfold worker_ok, popped_by, executed_by.
  intros [Hn _ Hlt _] [_ Hjoin] Hok Hs id0 th0.
  rewrite !events_of_app, !flat_map_app.
  step_cases Hs.
  - simpl. rewrite !app_nil_r. apply Hok.
  - simpl. rewrite (proj1 (run_exited _ _ _ _ _ _ _ Hrun)).
    destruct (decide (id = id0)) as [->|Hne].
    + rewrite list_lookup_insert_eq by by eapply lookup_lt_Some.
      intros [= <-]. rewrite events_of_own, (Hok _ _ Hth).
      unfold run, run_call, try_pop, pop in *.
      destruct th; crush_step; simpl; rewrite ?app_nil_r, <- ?app_assoc;
        repeat case_match; simplify_eq/=; rewrite ?app_nil_r; done.
    + rewrite list_lookup_insert_ne by done. intros Hth0.
      rewrite events_of_other by congruence. simpl. rewrite !app_nil_r.
      by apply Hok.
  - rewrite events_of_other by done. simpl. rewrite !app_nil_r.
    specialize (Hjoin _ _ _ Hc).
    unfold call_step, task_system_push, task_system_done, reset,
      wait_to_completion, try_push, push, set_done in *.
    destruct op, fr; crush_step; simpl; try (by apply Hok);
      try (by repeat case_match; apply Hok).
    intros [-> Hlt0]%lookup_replicate.
    destruct (lookup_lt_is_Some_2 (threads_ (pool w)) id0) as [th Hth]; [lia|].
    by rewrite (Hok _ _ Hth), (Hjoin _ _ Hth).
Qed.

Lemma reachable_worker_ok (n : N) (acts : list action) :
  worker_ok (final acts (init n)) (history acts (init n)).
Proof.
  cut (shaped n (final acts (init n)) ∧ join_ok (final acts (init n))
       ∧ worker_ok (final acts (init n)) (history acts (init n)));
    [by intros (_ & _ & ?)|].
  apply (exec_ind (λ w tr, shaped n w ∧ join_ok w ∧ worker_ok w tr)).
  - split_and!; [apply init_shaped|apply init_join_ok|].
    intros id th [-> _]%lookup_replicate. done.
  - intros w tr a w' evs (Hsh & Hj & Hw) Hs.
    split_and!; [by eapply step_shaped|by eapply step_join_ok
                |by eapply step_worker_ok].
Qed.

(** C8 (as amended).  Each queue hands its jobs out in the order it
    accepted them: what was pushed to a queue is what left it (popped, or
    discarded by [reset]) followed by what it still holds, so the jobs
    popped from it come in the order of their pushes, and are a prefix of
    the pushes when no [reset] was called.  A worker runs the jobs it
    obtained in the order it obtained them, each of them before it obtains
    the next: what it popped is what it ran, followed by the job it holds.
    In a pool of one worker the jobs therefore complete in the order in
    which they were accepted; with several workers the jobs of one queue
    need not. *)
Theorem fifo_per_queue (n : N) (acts : list action) :
  (∀ q tq, queues_ (pool (final acts (init n))) !! q = Some tq →
     pushed_to q (history acts (init n))
     = taken_from q (history acts (init n)) ++ tasks_ tq
     ∧ popped_from q (history acts (init n))
         `sublist_of` pushed_to q (history acts (init n))
     ∧ (Reset ∉ ops (final acts (init n)) →
        popped_from q (history acts (init n))
          `prefix_of` pushed_to q (history acts (init n))))
  ∧ (∀ id th, threads_ (pool (final acts (init n))) !! id = Some th →
       popped_by id (history acts (init n))
       = executed_by id (history acts (init n)) ++ holding th)
  ∧ (n = 1%N →
     (∃ pending, accepted (history acts (init n))
                 = retired (history acts (init n)) ++ pending)
     ∧ executed (history acts (init n))
         `sublist_of` accepted (history acts (init n))
     ∧ (Reset ∉ ops (final acts (init n)) →
        executed (history acts (init n))
          `prefix_of` accepted (history acts (init n)))).
Proof.
  split_and!.
  - intros q tq Hq. pose proof (reachable_fifo_ok n acts q tq Hq) as Heq.
    split_and!; [done| |].
    + rewrite Heq. apply sublist_inserts_r, popped_sublist_taken.
    + intros Hno. destruct (reachable_no_clear n acts Hno) as [_ <-].
      rewrite Heq. by apply prefix_app_r.
  - apply reachable_worker_ok.
  - intros ->. destruct (reachable_single_ok acts) as (th0 & q0 & _ & _ & Heq).
    split_and!.
    + eauto.
    + rewrite Heq. apply sublist_inserts_r, executed_sublist_retired.
    + intros Hno. destruct (reachable_no_clear 1 acts Hno) as [<- _].
      rewrite Heq. by apply prefix_app_r.
Qed.

(** ** Running a suffix *)

Lemma foldl_apply_action_fst (acts : list action) (w : world) (tr : trace) :
  (foldl apply_action (w, tr) acts).1 = final acts w.
Proof.
  unfold final, exec. revert w tr.
  induction acts as [|a acts IH]; intros w tr; [done|]. simpl.
  unfold apply_action at 2 4. simpl.
  destruct (step a w) as [[w' evs]|]; simpl; by rewrite !IH.
Qed.

Lemma final_cons (a : action) (acts : list action) (w : world) :
  final (a :: acts) w
  = final acts (match step a w with Some (w', _) => w' | None => w end).
Proof.
  unfold final at 1, exec. simpl. unfold apply_action at 2. simpl.
  destruct (step a w) as [[w' evs]|]; simpl; by rewrite foldl_apply_action_fst.
Qed.

Lemma final_app (acts1 acts2 : list action) (w : world) :
  final (acts1 ++ acts2) w = final acts2 (final acts1 w).
Proof.
  unfold final at 1. rewrite exec_app.
  destruct (exec acts1 w) as [w1 tr1] eqn:E. rewrite foldl_apply_action_fst.
  unfold final. by rewrite E.
Qed.

Lemma final_cons' (a : action) (acts : list action) (w : world) :
  final (a :: acts) w = final acts (final [a] w).
Proof. by rewrite (final_app [a] acts). Qed.

Lemma with_call_with_call (c : nat) (op : api) (fr fr' : frame) (w : world) :
  with_call c op fr' (with_call c op fr w) = with_call c op fr' w.
Proof. unfold with_call, with_calls. simpl. by rewrite list_insert_insert_eq. Qed.

(** [wait_to_completion] goes through the flags without another thread
    taking a step, and returns if all of them are set. *)
Lemma wait_reads_flags (c : nat) (w : world) (m i : nat) :
  aborted w = false →
  c < length (calls w) →
  length (exited_ (pool w)) = i + m →
  (∀ j, j < i + m → exited_ (pool w) !! j = Some true) →
  final (replicate (S m) (Advance c true))
        (with_call c WaitToCompletion (ReadExited i true) w)
  = with_call c WaitToCompletion (Returned None) w.
Proof.
  intros Hab Hc. revert i. induction m as [|m IH]; intros i Hlen Hall.
  - simpl. rewrite final_cons. unfold step. simpl. rewrite Hab.
    rewrite list_lookup_insert_eq by done. simpl.
    rewrite (proj2 (lookup_ge_None _ _)) by lia.
    by rewrite with_call_with_call.
  - rewrite replicate_S, final_cons. unfold step. simpl. rewrite Hab.
    rewrite list_lookup_insert_eq by done. simpl.
    rewrite Hall by lia. simpl. rewrite with_call_with_call.
    apply IH; [lia|]. intros j Hj. apply Hall. lia.
Qed.

Lemma step_aborted (a : action) (w w' : world) (evs : trace) :
  step a w = Some (w', evs) →
  aborted w = false
  ∧ (aborted w' = true → ∃ id b, a = Work id b).
Proof.
  intros Hs. step_cases Hs; (split; [done|]).
  - simpl. congruence.
  - eauto.
  - unfold call_step, task_system_push, task_system_done, reset,
      wait_to_completion in *.
    destruct op, fr; crush_step; congruence.
Qed.

Lemma wait_after_quiet (w : world) (m : nat) :
  aborted w = false →
  queued_ (pool w) = 0%N →
  exited_ (pool w) = replicate m true →
  final (Begin WaitToCompletion
           :: replicate (m + 3) (Advance (length (calls w)) true)) w
  = with_calls (calls w ++ [(WaitToCompletion, Returned None)]) w.
Proof.
  intros Hab Hq Hex.
  set (w1 := with_calls (calls w ++ [(WaitToCompletion, Yielding)]) w).
  assert (∀ fr, with_call (length (calls w)) WaitToCompletion fr w1
                = with_calls (calls w ++ [(WaitToCompletion, fr)]) w) as Hw1.
  { intros fr. unfold with_call, with_calls, w1. simpl. f_equal.
    rewrite insert_app_r_alt, Nat.sub_diag by done. done. }
  assert (calls w1 !! length (calls w) = Some (WaitToCompletion, Yielding)) as Hc1.
  { unfold w1. simpl. rewrite lookup_app_r, Nat.sub_diag by done. done. }
  assert (step (Begin WaitToCompletion) w = Some (w1, [])) as S0.
  { unfold step. by rewrite Hab. }
  assert (∃ evs, step (Advance (length (calls w)) true) w1
                 = Some (with_call (length (calls w)) WaitToCompletion
                           ReadQueued w1, evs)) as [evs1 S1].
  { eexists. unfold step.
    replace (aborted w1) with false by done. by rewrite Hc1. }
  assert (∃ evs, step (Advance (length (calls w)) true)
                   (with_call (length (calls w)) WaitToCompletion ReadQueued w1)
                 = Some (with_call (length (calls w)) WaitToCompletion
                           (ReadExited 0 true) w1, evs)) as [evs2 S2].
  { eexists. unfold step.
    replace (aborted (with_call _ _ _ w1)) with false by done.
    replace (calls (with_call (length (calls w)) WaitToCompletion ReadQueued w1)
               !! length (calls w))
      with (Some (WaitToCompletion, ReadQueued)).
    2:{ symmetry. apply list_lookup_insert_eq. by eapply lookup_lt_Some. }
    unfold call_step, wait_to_completion.
    replace (queued_ (pool (with_call _ _ _ w1))) with 0%N by done.
    by rewrite with_call_with_call. }
  replace (m + 3) with (S (S (S m))) by lia.
  rewrite final_cons, S0, (replicate_S (S (S m))), final_cons, S1.
  rewrite (replicate_S (S m)), final_cons, S2.
  rewrite (wait_reads_flags _ w1 m 0); [apply Hw1|done|by eapply lookup_lt_Some| |].
  - simpl. by rewrite Hex, length_replicate.
  - intros j Hj. simpl. rewrite Hex. by apply lookup_replicate.
Qed.

(** C10. [reset] never writes [exited_]: when it returns the flags are what
    they were, namely all set by the workers it joined, while the workers are
    fresh, the queues are empty and the counter is zero; a
    [wait_to_completion] entered next returns after reading the counter and
    the flags, without any worker having taken a step. *)
Theorem reset_keeps_exited_flags (n : N) (acts : list action) (c : nat)
    (b : bool) (w' : world) (evs : trace) :
  calls (final acts (init n)) !! c = Some (Reset, Rebuild) →
  step (Advance c b) (final acts (init n)) = Some (w', evs) →
  calls w' !! c = Some (Reset, Returned None)
  ∧ exited_ (pool w') = exited_ (pool (final acts (init n)))
  ∧ exited_ (pool w') = replicate (N.to_nat n) true
  ∧ threads_ (pool w') = replicate (N.to_nat n) (Scan 0)
  ∧ queues_ (pool w') = replicate (N.to_nat n) task_queue_new
  ∧ queued_ (pool w') = 0%N
  ∧ final (Begin WaitToCompletion
             :: replicate (N.to_nat n + 3) (Advance (length (calls w')) true)) w'
    = with_calls (calls w' ++ [(WaitToCompletion, Returned None)]) w'.
Proof.
  intros Hc Hs.
  pose proof (reachable_shaped n acts) as [Hn Hlq Hlt Hle].
  pose proof (reachable_join_ok n acts) as [Hex Hjoin].
  specialize (Hjoin _ _ _ Hc). simpl in Hjoin.
  set (w := final acts (init n)) in *.
  assert (exited_ (pool w) = replicate (N.to_nat n) true) as Hall.
  { apply list_eq. intros j. destruct (decide (j < N.to_nat n)) as [Hj|Hj].
    - rewrite (proj2 (lookup_replicate _ _ _ _)) by done. apply Hex.
      rewrite <- Hlt in Hj. apply lookup_lt_is_Some in Hj as [th Hth].
      by rewrite (Hjoin _ _ Hth) in Hth.
    - rewrite !(proj2 (lookup_ge_None _ _)); [done|..];
        rewrite ?length_replicate; lia. }
  destruct (step_aborted _ _ _ _ Hs) as [Hab Hab'].
  assert (aborted w' = false) as Hab''.
  { destruct (aborted w') eqn:E; [|done]. by destruct Hab' as (? & ? & ?). }
  assert (exited_ (pool w') = exited_ (pool w) ∧ queued_ (pool w') = 0%N) as [He Hq].
  { unfold step in Hs. rewrite Hab, Hc in Hs. simpl in Hs.
    destruct (others_quiet c (calls w)); [|done]. by injection Hs as <- <-. }
  split_and!; try done; try congruence.
  - unfold step in Hs. rewrite Hab, Hc in Hs. simpl in Hs.
    destruct (others_quiet c (calls w)); [|done]. injection Hs as <- <-.
    simpl. rewrite list_lookup_insert_eq; [done|by eapply lookup_lt_Some].
  - unfold step in Hs. rewrite Hab, Hc in Hs. simpl in Hs.
    destruct (others_quiet c (calls w)); [|done]. injection Hs as <- <-.
    simpl. by rewrite Hn.
  - unfold step in Hs. rewrite Hab, Hc in Hs. simpl in Hs.
    destruct (others_quiet c (calls w)); [|done]. injection Hs as <- <-.
    simpl. by rewrite Hn.
  - apply wait_after_quiet; congruence.
Qed.

Lemma flags_read_S (i : nat) :
  flags_read (S i) = flags_read i ++ [EvReadExited i true].
Proof. unfold flags_read. by rewrite seq_S, fmap_app. Qed.

(** ** wait_to_completion *)

Lemma step_exited_mono (a : action) (w w' : world) (evs : trace) :
  step a w = Some (w', evs) →
  length (exited_ (pool w')) = length (exited_ (pool w))
  ∧ ∀ j, exited_ (pool w) !! j = Some true → exited_ (pool w') !! j = Some true.
Proof.
  intros Hs. step_cases Hs.
  - done.
  - apply run_exited in Hrun as [_ [[_ He]|(_ & Hlt & He)]]; simpl; rewrite He.
    + done.
    + rewrite length_insert. split; [done|]. intros j Hj.
      destruct (decide (id = j)) as [->|Hne].
      * by rewrite list_lookup_insert_eq.
      * by rewrite list_lookup_insert_ne.
  - apply call_step_join in Hcs as [He _]. simpl. by rewrite He.
Qed.

Lemma wait_frame_ok_mono (ex ex' : list bool) (evs : list event) (fr : frame) :
  length ex' = length ex →
  (∀ j, ex !! j = Some true → ex' !! j = Some true) →
  wait_frame_ok ex evs fr → wait_frame_ok ex' evs fr.
Proof.
  intros Hlen Hmono. destruct fr; simpl; try done; rewrite Hlen.
  - intros [Hi H]. split; [done|]. intros Hb. destruct (H Hb) as [Hpre Hj].
    split; [done|]. intros j Hlt. by apply Hmono, Hj.
  - intros [Hpre Hj]. split; [done|]. intros j Hlt. by apply Hmono, Hj.
Qed.

Lemma step_wait_ok (a : action) (w w' : world) (tr evs : trace) :
  wait_ok w tr → step a w = Some (w', evs) → wait_ok w' (tr ++ evs).
Proof.
  intros IH Hs. destruct (step_exited_mono _ _ _ _ Hs) as [Hlen Hmono].
  intros c0 fr0. rewrite events_of_app. step_cases Hs.
  - simpl. rewrite app_nil_r.
    intros [Hc|[_ Hc]]%lookup_app_Some; [by eapply IH|].
    by apply list_lookup_singleton_Some in Hc as [_ [= -> <-]].
  - rewrite events_of_other, app_nil_r by done. simpl.
    rewrite (run_calls _ _ _ _ _ _ _ Hrun). intros Hc0.
    eapply wait_frame_ok_mono; [| |by eapply IH]; done.
  - simpl. rewrite (call_step_calls _ _ _ _ _ _ _ _ Hcs).
    destruct (decide (c = c0)) as [->|Hne].
    2:{ rewrite list_lookup_insert_ne by done.
        rewrite events_of_other, app_nil_r by congruence. intros Hc0.
        eapply wait_frame_ok_mono; [| |by eapply IH]; done. }
    rewrite list_lookup_insert_eq by by eapply lookup_lt_Some.
    intros [= -> <-]. rewrite events_of_own.
    specialize (IH _ _ Hc). revert IH.
    generalize (events_of (Caller c0) tr). intros evs0 IH.
    unfold call_step, wait_to_completion in Hcs.
    destruct fr; crush_step; simpl in *; try done.
    + destruct (queued_ (pool w1) =? 0)%N eqn:E; [|done].
      apply N.eqb_eq in E. rewrite E. simpl. split; [lia|]. intros _.
      split; [by exists evs0|]. intros j Hj. lia.
    + destruct IH as [Hi IH]. split; [by eapply lookup_lt_Some|].
      intros [-> ->]%andb_prop. destruct (IH eq_refl) as [[pre ->] Hj].
      split.
      * exists pre. rewrite flags_read_S, <- app_assoc. done.
      * intros j Hlt. destruct (decide (j = i)) as [->|Hne]; [done|].
        apply Hj. lia.
    + destruct IH as [Hi IH]. destruct (IH eq_refl) as [[pre ->] Hj].
      apply lookup_ge_None in E.
      assert (i = length (exited_ (pool w1))) as -> by lia.
      split; [|done]. exists pre. by rewrite <- app_assoc.
Qed.

Lemma step_work_bound (a : action) (w w' : world) (evs : trace) :
  step a w = Some (w', evs) →
  jobs_queued w' + in_flight w' ≤ jobs_queued w + in_flight w + 1.
Proof.
  unfold jobs_queued, in_flight. intros Hs. step_cases Hs.
  - simpl. rewrite sum_list_with_app. simpl.
    replace (call_pending (op, first_frame op)) with 0 by by destruct op. lia.
  - unfold run, run_call, try_pop, pop in *. destruct th; crush_step;
      finish_sum.
  - unfold call_step, task_system_push, task_system_done, reset,
      wait_to_completion, try_push, push, set_done in *.
    destruct op, fr; crush_step; try finish_sum.
    cbn -[sum_list_with].
    pose proof (others_quiet_pending _ _ _ E Hc) as Hp.
    sum_facts. rewrite !sum_list_with_replicate.
    cbn in *. lia.
Qed.

Lemma reachable_work_bound (n : N) (acts : list action) :
  jobs_queued (final acts (init n)) + in_flight (final acts (init n))
  ≤ length acts.
Proof.
  induction acts as [|a acts IH] using rev_ind.
  - unfold jobs_queued, in_flight. simpl.
    rewrite !sum_list_with_replicate, !Nat.mul_0_r. simpl. lia.
  - unfold final in *. rewrite exec_snoc, length_app. simpl.
    unfold apply_action. destruct (exec acts (init n)) as [w tr]. simpl in *.
    destruct (step a w) as [[w' evs]|] eqn:Hs; simpl; [|lia].
    apply step_work_bound in Hs. lia.
Qed.

Lemma step_waiting_ok (c : nat) (a : action) (w w' : world) (evs : trace) :
  leaves_others c a →
  waiting_ok c w → step a w = Some (w', evs) → waiting_ok c w'.
Proof.
  intros Ha (Hq & Hlt & fr & Hc0 & Hfr) Hs.
  pose proof (step_counter_ok _ _ _ _ Hq Hs) as Hq'.
  unfold waiting_ok. split; [done|]. clear Hq'.
  unfold counter_ok, jobs_queued, in_flight in *. step_cases Hs.
  - simpl. rewrite sum_list_with_app. simpl.
    replace (call_pending (op, first_frame op)) with 0 by by destruct op.
    split; [lia|]. exists fr. split; [|done].
    by apply lookup_app_l_Some.
  - pose proof (sum_list_with_lookup thread_pending _ _ _ Hth) as Hp.
    unfold run, run_call, try_pop, pop in *.
    destruct th; crush_step;
      (split; [finish_sum|]); exists fr; (split; [done|]);
      intros Hpast; specialize (Hfr Hpast); cbn;
      try match goal with
      | H : queues_ _ !! _ = Some _ |- _ =>
          apply (sum_list_with_lookup (λ q, length (tasks_ q))) in H
      end;
      finish_sum.
  - simpl in Ha. simplify_eq.
    unfold call_step, wait_to_completion in *.
    destruct fr; crush_step; (split; [finish_sum|]); eexists;
      (split; [apply list_lookup_insert_eq; by eapply lookup_lt_Some|]);
      simpl; try done; try (by intros; apply Hfr).
    destruct (queued_ (pool w1) =? 0)%N eqn:E; [|done]. intros _.
    by apply N.eqb_eq.
Qed.

Lemma final_waiting_ok (c : nat) (acts : list action) (w : world) :
  Forall (leaves_others c) acts → waiting_ok c w → waiting_ok c (final acts w).
Proof.
  intros Hacts. revert w. induction Hacts as [|a acts Ha _ IH]; intros w Hw.
  - done.
  - rewrite final_cons. apply IH.
    destruct (step a w) as [[w' evs]|] eqn:Hs; [|done].
    by eapply step_waiting_ok.
Qed.

Lemma reachable_wait_ok (n : N) (acts : list action) :
  wait_ok (final acts (init n)) (history acts (init n)).
Proof.
  apply (exec_ind wait_ok).
  - intros c fr [=].
  - intros w tr a w' evs Hw Hs. by eapply step_wait_ok.
Qed.

(** C4 (as amended). [wait_to_completion] returns only after a read of the
    counter that found it zero, followed by one read of every exited flag,
    each of which found the flag set; all the flags are set when it returns.
    The counter is zero when it returns provided that, from the last read of
    the counter on, no other call took a step (the workers may run), in an
    execution too short for the counter to wrap around. *)
Theorem wait_to_completion_postcondition (n : N) :
  (∀ (acts : list action) (c : nat),
     calls (final acts (init n)) !! c = Some (WaitToCompletion, Returned None) →
     (∃ pre, events_of (Caller c) (history acts (init n))
             = pre ++ EvLoad 0 :: flags_read (N.to_nat n) ++ [EvReturn None])
     ∧ exited_ (pool (final acts (init n))) = replicate (N.to_nat n) true)
  ∧ (∀ (acts1 acts2 : list action) (c : nat) (fr : frame),
     (N.of_nat (length acts1) < size_modulus)%N →
     calls (final acts1 (init n)) !! c = Some (WaitToCompletion, fr) →
     past_read fr = false →
     Forall (leaves_others c) acts2 →
     calls (final (acts1 ++ acts2) (init n)) !! c
       = Some (WaitToCompletion, Returned None) →
     queued_ (pool (final (acts1 ++ acts2) (init n))) = 0%N).
Proof.
  split.
  - intros acts c Hc.
    pose proof (reachable_wait_ok n acts c _ Hc) as [Hpre Hall].
    pose proof (reachable_shaped n acts) as [_ _ _ Hlen].
    simpl in Hpre, Hall. rewrite Hlen in Hpre, Hall. split; [done|].
    apply list_eq. intros j. destruct (decide (j < N.to_nat n)) as [Hj|Hj].
    + rewrite (proj2 (lookup_replicate _ _ _ _)) by done. by apply Hall.
    + rewrite !(proj2 (lookup_ge_None _ _)); [done|..];
        rewrite ?length_replicate; lia.
  - intros acts1 acts2 c fr Hlen Hc Hfr Hacts Hret.
    assert (waiting_ok c (final acts1 (init n))) as Hw.
    { split_and!.
      - apply reachable_counter_ok.
      - pose proof (reachable_work_bound n acts1). lia.
      - exists fr. split; [done|]. congruence. }
    apply (final_waiting_ok _ _ _ Hacts) in Hw.
    rewrite <- final_app in Hw. destruct Hw as (_ & _ & fr' & Hc' & Hz).
    rewrite Hret in Hc'. injection Hc' as <-. by apply Hz.
Qed.

(** ** The dispatch of a submission *)

Lemma failed_attempts_S (n idx : N) (t : task) (k : nat) :
  failed_attempts n idx t (S k)
  = failed_attempts n idx t k ++ failed_attempt n idx t k.
Proof.
  unfold failed_attempts. rewrite seq_S, flat_map_app. done.
Qed.

Lemma size_rem_slot (n base k : N) (q : nat) :
  size_rem (size_add base k) n = Some q → q = queue_slot n base (N.to_nat k).
Proof.
  unfold size_rem, queue_slot. destruct (n =? 0)%N; [done|].
  intros [= <-]. by rewrite N2Nat.id.
Qed.

Lemma step_push_ok (n : N) (a : action) (w w' : world) (tr evs : trace) :
  (10 * n < size_modulus)%N →
  shaped n w →
  push_ok n w tr → step a w = Some (w', evs) → push_ok n w' (tr ++ evs).
Proof.
  intros Hn [Hnth _ _ _] [IH0 IH] Hs. split.
  - intros c0 Hnone. rewrite events_of_app. step_cases Hs.
    + simpl in *. rewrite app_nil_r. apply IH0.
      apply lookup_ge_None in Hnone. apply lookup_ge_None.
      rewrite length_app in Hnone. lia.
    + rewrite events_of_other, app_nil_r by done. apply IH0.
      simpl in Hnone. by rewrite (run_calls _ _ _ _ _ _ _ Hrun) in Hnone.
    + simpl in Hnone. rewrite (call_step_calls _ _ _ _ _ _ _ _ Hcs) in Hnone.
      apply lookup_ge_None in Hnone. rewrite length_insert in Hnone.
      assert (c ≠ c0) by (apply lookup_lt_Some in Hc; lia).
      rewrite events_of_other, app_nil_r by congruence.
      by apply IH0, lookup_ge_None.
  - intros c0 op0 fr0. rewrite events_of_app. step_cases Hs.
    + simpl. rewrite app_nil_r.
      intros [Hc|[Hlen Hc]]%lookup_app_Some; [by eapply IH|].
      apply list_lookup_singleton_Some in Hc as [Hz [= -> <-]].
      intros Hop. rewrite IH0 by (apply lookup_ge_None; lia). by destruct op0.
    + rewrite events_of_other, app_nil_r by done. simpl.
      rewrite (run_calls _ _ _ _ _ _ _ Hrun). apply IH.
    + simpl. rewrite (call_step_calls _ _ _ _ _ _ _ _ Hcs).
      destruct (decide (c = c0)) as [->|Hne].
      2:{ rewrite list_lookup_insert_ne by done.
          rewrite events_of_other, app_nil_r by congruence. apply IH. }
      rewrite list_lookup_insert_eq by by eapply lookup_lt_Some.
      intros [= -> <-] Hop. rewrite events_of_own.
      specialize (IH _ _ _ Hc Hop). revert IH.
      generalize (events_of (Caller c0) tr). intros evs0 IH.
      unfold call_step, task_system_push, try_push, push in Hcs.
      rewrite Hnth in Hcs.
      replace (size_mul 10 n) with (10 * n)%N in Hcs by (unfold_size; lia).
      destruct op0, fr; crush_step; simpl in *; try done.
      all: repeat match goal with
           | H : size_rem (size_add _ _) _ = Some _ |- _ =>
               apply size_rem_slot in H; subst
           end.
      all: try (destruct IH as [Hk ->]).
      all: try (split; [lia|done]).
      all: try (split; [done|]; simpl; by rewrite <- ?app_assoc).
      all: try (exists t, idx, (N.to_nat k); split; [lia|];
                unfold dispatch_protocol;
                rewrite bool_decide_eq_true_2 by lia; simpl;
                by rewrite <- ?app_assoc).
      all: try (destruct (k <? 10 * nthreads_ (pool w))%N eqn:E; simpl;
                [ apply N.ltb_lt in E; split; [done|by rewrite <- ?app_assoc]
                | apply N.ltb_ge in E;
                  assert (k = 10 * nthreads_ (pool w))%N as -> by lia; done ]).
      all: try (assert (size_inc k = k + 1)%N as -> by (unfold_size; lia);
                split; [lia|];
                replace (N.to_nat (k + 1)) with (S (N.to_nat k)) by lia;
                rewrite failed_attempts_S; unfold failed_attempt; simpl;
                by rewrite <- ?app_assoc).
      all: exists t, idx, (N.to_nat (10 * nthreads_ (pool w))); (split; [lia|]);
           unfold dispatch_protocol;
           rewrite bool_decide_eq_false_2 by lia; simpl;
           unfold size_rem in *; case_match; simplify_eq;
           by rewrite <- ?app_assoc.
Qed.

Lemma reachable_push_ok (n : N) (acts : list action) :
  (10 * n < size_modulus)%N →
  push_ok n (final acts (init n)) (history acts (init n)).
Proof.
  intros Hn.
  cut (shaped n (final acts (init n))
       ∧ push_ok n (final acts (init n)) (history acts (init n)));
    [by intros []|].
  apply (exec_ind (λ w tr, shaped n w ∧ push_ok n w tr)).
  - split; [apply init_shaped|]. split; [done|]. intros c op fr [=].
  - intros w tr a w' evs [Hsh Hp] Hs. split.
    + by eapply step_shaped.
    + by eapply step_push_ok.
Qed.

(** What the events of a submission stand for in the step that emits them. *)
Lemma step_event_meaning (a : action) (w w' : world) (evs : trace) :
  step a w = Some (w', evs) →
  (∀ ag idx, (ag, EvNextIndex idx) ∈ evs →
     current_index_ (pool w) = idx ∧ current_index_ (pool w') = size_inc idx)
  ∧ (∀ ag, (ag, EvInc) ∈ evs → queued_ (pool w') = size_inc (queued_ (pool w)))
  ∧ (∀ ag, (ag, EvDec) ∈ evs → queued_ (pool w') = size_dec (queued_ (pool w)))
  ∧ (∀ ag q t ok, (ag, EvTryPush q t ok) ∈ evs →
       ∃ tq, queues_ (pool w) !! q = Some tq
             ∧ queues_ (pool w')
               = <[q := (try_push ok t tq).1.2]> (queues_ (pool w)))
  ∧ (∀ ag q t, (ag, EvPush q t) ∈ evs →
       ∃ tq, queues_ (pool w) !! q = Some tq
             ∧ queues_ (pool w') = <[q := (push t tq).1]> (queues_ (pool w))).
Proof.
  intros Hs. step_cases Hs.
  - split_and!; intros; by decompose_list_elem_of.
  - unfold run, run_call, try_pop, pop in *.
    destruct th; crush_step; split_and!; intros;
      repeat case_match; decompose_list_elem_of; simplify_eq; done.
  - unfold call_step, task_system_push, task_system_done, reset,
      wait_to_completion, try_push, push, set_done in *.
    destruct op, fr; crush_step; split_and!; intros;
      repeat case_match; decompose_list_elem_of; simplify_eq; eauto.
Qed.

Lemma queue_slot_no_wrap (n idx : N) (k : nat) :
  (idx + N.of_nat k < size_modulus)%N →
  queue_slot n idx k = N.to_nat ((idx + N.of_nat k) mod n).
Proof.
  intros H. unfold queue_slot, size_add. by rewrite (N.mod_small _ size_modulus).
Qed.

(** C3. A call of push that has returned did, in this order and nothing else:
    take the task, read the dispatch counter [idx] and increment it; then for
    [fails] attempts, at most [10 * n] of them, on the queues
    [(idx + 0) % n], [(idx + 1) % n], ..., increment the outstanding-work
    counter, have [try_push] refused and decrement the counter again; then
    either, with fewer than [10 * n] failures, increment the counter, succeed
    in the next [try_push] and return the handle, or, after [10 * n]
    failures, increment the counter once more, push unconditionally on queue
    [idx % n] and return the handle.  The sums [idx + k] are those of
    [std::size_t]. *)
Theorem push_dispatch_protocol (n : N) (acts : list action) (c : nat)
    (op : api) (fut : option future) :
  (10 * n < size_modulus)%N →
  is_push op = true →
  calls (final acts (init n)) !! c = Some (op, Returned fut) →
  (∃ t idx fails,
     fails ≤ N.to_nat (10 * n)
     ∧ events_of (Caller c) (history acts (init n))
       = dispatch_protocol n idx t fut fails
     ∧ ∀ k, (idx + N.of_nat k < size_modulus)%N →
            queue_slot n idx k = N.to_nat ((idx + N.of_nat k) mod n))
  ∧ ∀ a w w' evs, step a w = Some (w', evs) →
      (∀ ag idx, (ag, EvNextIndex idx) ∈ evs →
         current_index_ (pool w) = idx
         ∧ current_index_ (pool w') = size_inc idx)
      ∧ (∀ ag, (ag, EvInc) ∈ evs →
           queued_ (pool w') = size_inc (queued_ (pool w)))
      ∧ (∀ ag, (ag, EvDec) ∈ evs →
           queued_ (pool w') = size_dec (queued_ (pool w)))
      ∧ (∀ ag q t ok, (ag, EvTryPush q t ok) ∈ evs →
           ∃ tq, queues_ (pool w) !! q = Some tq
                 ∧ queues_ (pool w')
                   = <[q := (try_push ok t tq).1.2]> (queues_ (pool w)))
      ∧ (∀ ag q t, (ag, EvPush q t) ∈ evs →
           ∃ tq, queues_ (pool w) !! q = Some tq
                 ∧ queues_ (pool w')
                   = <[q := (push t tq).1]> (queues_ (pool w))).
Proof.
  intros Hn Hop Hc. split; [|apply step_event_meaning].
  destruct (reachable_push_ok n acts Hn) as [_ H].
  destruct (H _ _ _ Hc Hop) as (t & idx & fails & Hle & Heq).
  exists t, idx, fails. split_and!; [done..|].
  intros k. apply queue_slot_no_wrap.
Qed.

(** ** The draining phase *)

Lemma drain_attempts_snoc (n : N) (id : nat) (rs : list (bool * task))
    (r : bool * task) :
  drain_attempts n id (rs ++ [r])
  = drain_attempts n id rs ++ drain_attempt n id (length rs) r.
Proof.
  unfold drain_attempts. rewrite imap_app, concat_app. simpl.
  by rewrite Nat.add_0_r, app_nil_r.
Qed.

Lemma drain_rounds_snoc (n : N) (id : nat) rds rd :
  drain_rounds n id (rds ++ [rd]) = drain_rounds n id rds ++ drain_round n id rd.
Proof. unfold drain_rounds. rewrite flat_map_app. simpl. by rewrite app_nil_r. Qed.

Lemma draining_snoc n id evs rds tail e :
  draining n id evs rds tail → draining n id (evs ++ [e]) rds (tail ++ [e]).
Proof.
  intros [Hf [pre ->]]. split; [done|]. exists pre.
  by rewrite <- !app_assoc, <- app_comm_cons, <- app_assoc.
Qed.

Lemma step_drain_ok (n : N) (a : action) (w w' : world) (tr evs : trace) :
  (n < size_modulus)%N →
  shaped n w →
  drain_ok n w tr → step a w = Some (w', evs) → drain_ok n w' (tr ++ evs).
Proof.
  intros Hn [Hnth _ _ _] IH Hs id0 th0. rewrite events_of_app. step_cases Hs.
  - simpl. rewrite app_nil_r. apply IH.
  - pose proof (run_exited _ _ _ _ _ _ _ Hrun) as [Hths _]. simpl.
    rewrite Hths. destruct (decide (id = id0)) as [->|Hne].
    2:{ rewrite list_lookup_insert_ne by done.
        rewrite events_of_other, app_nil_r by congruence. apply IH. }
    rewrite list_lookup_insert_eq by by eapply lookup_lt_Some.
    intros [= <-]. rewrite events_of_own.
    specialize (IH _ _ Hth). revert IH.
    generalize (events_of (Worker id0) tr). intros evs0 IH.
    unfold run, run_call, try_pop, pop in Hrun. rewrite Hnth in Hrun.
    destruct th; crush_step; simpl in *; try done.
    all: repeat match goal with
         | H : size_rem (size_add _ _) _ = Some _ |- _ =>
             apply size_rem_slot in H; subst
         end.
    + exists []. split; [constructor|]. by exists evs0.
    + destruct IH as [rds IH].
      destruct (queued_ (pool w1) =? 0)%N eqn:E; simpl.
      * apply N.eqb_eq in E. rewrite E. exists rds.
        by apply (draining_snoc _ _ _ _ []).
      * apply N.eqb_neq in E. exists rds, (queued_ (pool w1)), [].
        split_and!; [done|done|lia|]. by apply (draining_snoc _ _ _ _ []).
    + destruct IH as (rds & v & rs & Hv & Hlen & Hk & Hd).
      apply N.ltb_lt in E.
      assert (size_inc k = k + 1)%N as -> by (unfold_size; lia).
      exists rds, v, (rs ++ [(false, None)]).
      split_and!; [done|rewrite length_app; simpl; lia|lia|].
      rewrite drain_attempts_snoc, Hlen. unfold drain_attempt. simpl.
      by apply (draining_snoc _ _ _ _ (_ :: _)).
    + destruct IH as (rds & v & rs & Hv & Hlen & Hk & Hd).
      apply N.ltb_lt in E.
      assert (size_inc k = k + 1)%N as -> by (unfold_size; lia).
      exists rds, v, (rs ++ [(false, None)]).
      split_and!; [done|rewrite length_app; simpl; lia|lia|].
      rewrite drain_attempts_snoc, Hlen. unfold drain_attempt. simpl.
      by apply (draining_snoc _ _ _ _ (_ :: _)).
    + destruct IH as (rds & v & rs & Hv & Hlen & Hk & Hd).
      apply N.ltb_lt in E. exists rds, v, rs.
      split_and!; [done..|]. by apply (draining_snoc _ _ _ _ (_ :: _)).
    + destruct IH as (rds & v & rs & Hv & Hlen & Hk & [Hf [pre ->]]).
      apply N.ltb_ge in E. assert (k = nthreads_ (pool w1)) as -> by lia.
      exists (rds ++ [(v, rs)]). split.
      * apply Forall_app. split; [done|]. by repeat constructor.
      * exists pre. rewrite drain_rounds_snoc. unfold drain_round. simpl.
        by rewrite <- !app_assoc, <- !app_comm_cons, <- !app_assoc, app_nil_r.
    + destruct IH as (rds & v & rs & Hv & Hlen & Hk & Hd).
      exists rds, v, rs. split_and!; [done..|].
      apply (draining_snoc _ _ _ _ _ EvDec) in Hd.
      by rewrite <- app_comm_cons, <- app_assoc in Hd.
    + destruct IH as (rds & v & rs & Hv & Hlen & Hk & Hd).
      assert (size_inc k = k + 1)%N as -> by (unfold_size; lia).
      exists rds, v, (rs ++ [(true, t)]).
      split_and!; [done|rewrite length_app; simpl; lia|lia|].
      rewrite drain_attempts_snoc, Hlen. unfold drain_attempt. simpl.
      apply (draining_snoc _ _ _ _ _ (EvInvoke t)) in Hd.
      by rewrite <- app_comm_cons, <- app_assoc in Hd.
    + destruct IH as [rds IH]. exists rds.
      by apply (draining_snoc _ _ _ _ [_]).
  - apply call_step_join in Hcs as [_ [[Hths _]|(Hths & _ & _)]]; simpl;
      rewrite Hths, events_of_other, app_nil_r by done.
    + apply IH.
    + by intros [-> _]%lookup_replicate.
Qed.

Lemma reachable_drain_ok (n : N) (acts : list action) :
  (n < size_modulus)%N →
  drain_ok n (final acts (init n)) (history acts (init n)).
Proof.
  intros Hn.
  cut (shaped n (final acts (init n))
       ∧ drain_ok n (final acts (init n)) (history acts (init n)));
    [by intros []|].
  apply (exec_ind (λ w tr, shaped n w ∧ drain_ok n w tr)).
  - split; [apply init_shaped|]. by intros id th [-> _]%lookup_replicate.
  - intros w tr a w' evs [Hsh Hp] Hs. split.
    + by eapply step_shaped.
    + by eapply step_drain_ok.
Qed.

Lemma mod_below_twice (a n : N) :
  (a < 2 * n)%N → (a mod n = if (a <? n)%N then a else a - n)%N.
Proof.
  intros Ha. destruct (a <? n)%N eqn:E.
  - apply N.ltb_lt in E. by apply N.mod_small.
  - apply N.ltb_ge in E. symmetry. apply (N.mod_unique a n 1); lia.
Qed.

(** The queues tried in a full round are all the queues, each of them once. *)
Lemma round_visits_all (n : N) (id : nat) :
  (2 * n ≤ size_modulus)%N → id < N.to_nat n →
  queue_slot n (N.of_nat id) <$> seq 0 (N.to_nat n) ≡ₚ seq 0 (N.to_nat n).
Proof.
  intros Hn Hid.
  assert (∀ k, k < N.to_nat n →
            queue_slot n (N.of_nat id) k
            = if decide (id + k < N.to_nat n) then id + k
              else id + k - N.to_nat n) as Hslot.
  { intros k Hk. unfold queue_slot, size_add.
    rewrite (N.mod_small _ size_modulus) by lia.
    rewrite mod_below_twice by lia.
    destruct (N.ltb_spec (N.of_nat id + N.of_nat k) n); case_decide; lia. }
  apply submseteq_length_Permutation; [|by rewrite length_fmap].
  apply NoDup_submseteq.
  - apply NoDup_fmap_2_strong; [|apply NoDup_seq].
    intros k1 k2 [_ H1]%elem_of_seq [_ H2]%elem_of_seq.
    rewrite !Hslot by lia. repeat case_decide; lia.
  - intros q (k & -> & [_ Hk]%elem_of_seq)%list_elem_of_fmap.
    apply elem_of_seq. rewrite Hslot by lia. case_decide; lia.
Qed.

(** What the events of a worker stand for in the step that emits them. *)
Lemma step_worker_event_meaning (a : action) (w w' : world) (evs : trace) :
  step a w = Some (w', evs) →
  (∀ ag v, (ag, EvLoad v) ∈ evs →
     queued_ (pool w) = v ∧ queued_ (pool w') = v)
  ∧ (∀ ag q r, (ag, EvTryPop q r) ∈ evs →
       ∃ b tq, queues_ (pool w) !! q = Some tq
               ∧ r = (try_pop b tq).1
               ∧ queues_ (pool w') = <[q := (try_pop b tq).2]> (queues_ (pool w)))
  ∧ (∀ ag q r, (ag, EvPop q r) ∈ evs →
       ∃ tq tq', queues_ (pool w) !! q = Some tq
                 ∧ pop tq = Some (r, tq')
                 ∧ queues_ (pool w') = <[q := tq']> (queues_ (pool w)))
  ∧ (∀ ag t, (ag, EvInvoke t) ∈ evs →
       task_call t (store w) = Some (inr (store w')))
  ∧ (∀ ag id, (ag, EvExited id) ∈ evs →
       ag = Worker id
       ∧ exited_ (pool w') = <[id := true]> (exited_ (pool w))).
Proof.
  intros Hs. step_cases Hs.
  - split_and!; intros; by decompose_list_elem_of.
  - unfold run, run_call in *.
    destruct th; crush_step; split_and!; intros;
      repeat case_match; decompose_list_elem_of; simplify_eq; eauto.
    all: match goal with
         | H : try_pop ?b ?tq = _ |- _ => exists b, tq; by rewrite H
         end.
  - unfold call_step, task_system_push, task_system_done, reset,
      wait_to_completion, try_push, push, set_done in *.
    destruct op, fr; crush_step; split_and!; intros;
      repeat case_match; decompose_list_elem_of; simplify_eq; eauto.
Qed.

Lemma drain_never_blocks (n : N) (w : world) (id : nat) (th : thread) (b : bool) :
  shaped n w → aborted w = false →
  threads_ (pool w) !! id = Some th → drain_point th = true →
  is_Some (step (Work id b) w).
Proof.
  intros [Hn Hlq Hlt Hle] Hab Hth Hp. unfold step. rewrite Hab, Hth.
  pose proof (lookup_lt_Some _ _ _ Hth) as Hid.
  destruct th; try done; simpl; try (by eexists).
  - destruct (k <? nthreads_ (pool w))%N eqn:E; [|by eexists].
    apply N.ltb_lt in E. unfold size_rem.
    destruct (N.eqb_spec (nthreads_ (pool w)) 0); [lia|]. simpl.
    destruct (lookup_lt_is_Some_2 (queues_ (pool w))
      (N.to_nat (size_add (N.of_nat id) k `mod` nthreads_ (pool w))))
      as [tq ->].
    { rewrite Hlq, <- Hn.
      pose proof (N.mod_upper_bound (size_add (N.of_nat id) k)
                    (nthreads_ (pool w))). lia. }
    simpl. destruct (try_pop b tq). by eexists.
  - rewrite bool_decide_eq_true_2 by lia. by eexists.
Qed.

(** C5. Once the blocking pop of a worker has returned not-ok, the worker
    does this and nothing else: it reads the counter; on a non-zero value it
    makes one round of [try_pop] over the [n] queues, counting off and
    executing each job it obtains, yields, and reads the counter again; on
    zero it sets its exited flag and returns.  So a worker that has returned
    read zero just before setting its flag, and everything between its pop
    and that read is made of full rounds, each entered on a non-zero counter.
    A round tries every queue once, and no step of the phase can block. *)
Theorem draining_termination (n : N) (acts : list action) (id : nat) (th : thread) :
  (2 * n ≤ size_modulus)%N →
  threads_ (pool (final acts (init n))) !! id = Some th →
  drain_frame_ok n id (events_of (Worker id) (history acts (init n))) th
  ∧ (th = Terminated →
     ∃ rds pre,
       Forall (full_round n) rds
       ∧ events_of (Worker id) (history acts (init n))
         = pre ++ EvPop id (false, None)
               :: drain_rounds n id rds ++ [EvLoad 0; EvExited id])
  ∧ queue_slot n (N.of_nat id) <$> seq 0 (N.to_nat n) ≡ₚ seq 0 (N.to_nat n)
  ∧ (aborted (final acts (init n)) = false → drain_point th = true →
     ∀ b, is_Some (step (Work id b) (final acts (init n))))
  ∧ ∀ a w w' evs, step a w = Some (w', evs) →
      (∀ ag v, (ag, EvLoad v) ∈ evs →
         queued_ (pool w) = v ∧ queued_ (pool w') = v)
      ∧ (∀ ag q r, (ag, EvTryPop q r) ∈ evs →
           ∃ b tq, queues_ (pool w) !! q = Some tq
                   ∧ r = (try_pop b tq).1
                   ∧ queues_ (pool w')
                     = <[q := (try_pop b tq).2]> (queues_ (pool w)))
      ∧ (∀ ag q r, (ag, EvPop q r) ∈ evs →
           ∃ tq tq', queues_ (pool w) !! q = Some tq
                     ∧ pop tq = Some (r, tq')
                     ∧ queues_ (pool w') = <[q := tq']> (queues_ (pool w)))
      ∧ (∀ ag t, (ag, EvInvoke t) ∈ evs →
           task_call t (store w) = Some (inr (store w')))
      ∧ (∀ ag id, (ag, EvExited id) ∈ evs →
           ag = Worker id
           ∧ exited_ (pool w') = <[id := true]> (exited_ (pool w))).
Proof.
  intros Hn Hth.
  assert (n < size_modulus)%N as Hn' by (unfold_size; lia).
  pose proof (reachable_drain_ok n acts Hn' id th Hth) as Hd.
  pose proof (reachable_shaped n acts) as Hsh.
  split_and!; [done| | | |apply step_worker_event_meaning].
  - intros ->. destruct Hd as (rds & Hf & pre & Heq). by exists rds, pre.
  - apply round_visits_all; [done|].
    destruct Hsh as [_ _ Hlt _]. rewrite <- Hlt. by eapply lookup_lt_Some.
  - intros Hab Hp b. by eapply drain_never_blocks.
Qed.

(** ** What a step does to the shared states *)

Lemma store_extends_refl (hp : heap) : store_extends hp hp.
Proof. intros a m Hm. by exists m. Qed.

Lemma store_extends_trans (hp1 hp2 hp3 : heap) :
  store_extends hp1 hp2 → store_extends hp2 hp3 → store_extends hp1 hp3.
Proof.
  intros H12 H23 a m Hm. destruct (H12 _ _ Hm) as (m2 & Hm2 & Hc2 & Ha2 & Hs2).
  destruct (H23 _ _ Hm2) as (m3 & Hm3 & Hc3 & Ha3 & Hs3).
  exists m3. split_and!; [done|congruence|congruence|]. intros s Hs. eauto.
Qed.

Lemma store_extends_settle (hp : heap) (a : nat) (m : task_model) (s : settled) :
  hp !! a = Some m → shared_state (_f m) = None →
  store_extends hp (<[a := settle s m]> hp).
Proof.
  intros Hm Hs a' m' Hm'. destruct (decide (a = a')) as [->|Hne].
  - rewrite list_lookup_insert_eq by by eapply lookup_lt_Some.
    eexists. split; [done|]. simplify_eq. split_and!; [done..|]. congruence.
  - rewrite list_lookup_insert_ne by done. by exists m'.
Qed.

Lemma store_extends_drop (hp : heap) (t : task) :
  store_extends hp (task_drop hp t).
Proof.
  unfold task_drop. destruct t as [a|]; [|apply store_extends_refl].
  destruct (hp !! a) as [m|] eqn:Hm; [|apply store_extends_refl].
  destruct (shared_state (_f m)) eqn:Hs; [apply store_extends_refl|].
  by apply store_extends_settle.
Qed.

Lemma store_extends_drops (ts : list task) (hp : heap) :
  store_extends hp (foldl task_drop hp ts).
Proof.
  revert hp. induction ts as [|t ts IH]; intros hp; [apply store_extends_refl|].
  simpl. eapply store_extends_trans; [apply store_extends_drop|apply IH].
Qed.

Lemma step_store_extends (a : action) (w w' : world) (evs : trace) :
  step a w = Some (w', evs) → store_extends (store w) (store w').
Proof.
  intros Hs. step_cases Hs.
  - apply store_extends_refl.
  - unfold run, run_call, task_call, invoke_ in *.
    destruct th; crush_step; simpl; try apply store_extends_refl;
      by apply store_extends_settle.
  - unfold call_step, task_system_push, task_system_done, reset,
      wait_to_completion, make_task in *.
    destruct op, fr; crush_step; simpl; try apply store_extends_refl;
      try apply store_extends_drops.
    all: intros a0 m Hm; exists m; by rewrite (lookup_app_l_Some _ _ _ _ Hm).
Qed.




Lemma step_handle_ok (a : action) (w w' : world) (evs : trace) :
  handle_ok w → step a w = Some (w', evs) → handle_ok w'.
Proof.
  intros Hok Hs c0 f0 x0 fr0 a0.
  pose proof (step_store_extends _ _ _ _ Hs) as Hext.
  assert (∀ fr, calls w !! c0 = Some (Push f0 x0, fr) →
                frame_future fr = Some a0 →
                ∃ m, store w' !! a0 = Some m ∧ callable (_f m) = f0
                     ∧ _args m = x0) as Hold.
  { intros fr Hc Hfut. destruct (Hok _ _ _ _ _ Hc Hfut) as (m & Hm & <- & <-).
    destruct (Hext _ _ Hm) as (m' & Hm' & ? & ? & _). by exists m'. }
  step_cases Hs.
  - simpl. intros [Hc|[_ Hc]]%lookup_app_Some; [by eapply Hold|].
    apply list_lookup_singleton_Some in Hc as [_ [= -> <-]]. done.
  - simpl. rewrite (run_calls _ _ _ _ _ _ _ Hrun). apply Hold.
  - simpl. rewrite (call_step_calls _ _ _ _ _ _ _ _ Hcs).
    destruct (decide (c = c0)) as [->|Hne].
    2:{ rewrite list_lookup_insert_ne by done. apply Hold. }
    rewrite list_lookup_insert_eq by by eapply lookup_lt_Some.
    intros [= -> <-]. specialize (Hold _ Hc). clear Hok Hext.
    unfold call_step, task_system_push, make_task in Hcs.
    destruct fr; crush_step; simpl in *; try done; try (by apply Hold);
      try (by repeat case_match; simpl in *; try done; apply Hold).
    intros [= <-]. eexists.
    by rewrite lookup_app_r, Nat.sub_diag.
Qed.


(** ** Jobs and their shared states *)

Lemma due_app (t : task) (hp : heap) (m : task_model) :
  shared_state (_f m) = None →
  due t (hp ++ [m]) = due t hp + task_count t (Some (length hp)).
Proof.
  intros Hm. unfold due, task_count. destruct t as [a|]; [|by case_decide].
  destruct (decide (a < length hp)) as [Hlt|Hge].
  - rewrite lookup_app_l by done. case_decide; [simplify_eq; lia|lia].
  - rewrite (proj2 (lookup_ge_None hp a)) by lia.
    case_decide as Heq.
    + injection Heq as <-. rewrite lookup_app_r, Nat.sub_diag by done.
      simpl. by rewrite Hm.
    + rewrite (proj2 (lookup_ge_None (hp ++ [m]) a)); [done|].
      rewrite length_app. simpl. assert (a ≠ length hp) by congruence. lia.
Qed.

Lemma due_settle (t : task) (hp : heap) (a : nat) (m : task_model) (s : settled) :
  hp !! a = Some m → shared_state (_f m) = None →
  due t (<[a := settle s m]> hp) + task_count t (Some a) = due t hp.
Proof.
  intros Hm Hs. unfold due, task_count. destruct t as [a'|]; [|by case_decide].
  case_decide as Heq.
  - injection Heq as <-.
    rewrite list_lookup_insert_eq by by eapply lookup_lt_Some.
    simpl. by rewrite Hm, Hs.
  - rewrite list_lookup_insert_ne by congruence. lia.
Qed.

Lemma task_count_same (t : task) : task_count t t = 1.
Proof. unfold task_count. by case_decide. Qed.

Lemma due_le_1 (t : task) (hp : heap) : due t hp ≤ 1.
Proof. unfold due. repeat case_match; lia. Qed.

Lemma due_task_call (t : task) (hp : heap) :
  1 ≤ due t hp →
  ∃ a m, t = Some a ∧ hp !! a = Some m ∧ shared_state (_f m) = None
         ∧ task_call t hp
           = Some (inr (<[a := settle (Completed (callable (_f m) (_args m))) m]> hp)).
Proof.
  unfold due, task_call, invoke_. destruct t as [a|]; [|lia].
  destruct (hp !! a) as [m|] eqn:Hm; [|lia].
  destruct (shared_state (_f m)) eqn:Hs; [lia|]. intros _.
  exists a, m. simpl. by rewrite Hs.
Qed.

Ltac own_facts :=
  cbn -[sum_list_with]; sum_facts; cbn in *;
  repeat match goal with H : tasks_ _ = _ |- _ => rewrite H in * end;
  rewrite ?sum_list_with_app in *; cbn in *;
  rewrite ?task_count_same in *.

(** ** Lookups in a reachable world *)

Lemma step_holders_ok (a : action) (w w' : world) (evs : trace) :
  holders_ok w → step a w = Some (w', evs) → holders_ok w'.
Proof.
  intros Hok Hs c0 op0 fr0. step_cases Hs.
  - simpl. intros [Hc|[_ Hc]]%lookup_app_Some; [by eapply Hok|].
    apply list_lookup_singleton_Some in Hc as [_ [= -> <-]]. by destruct op0.
  - simpl. rewrite (run_calls _ _ _ _ _ _ _ Hrun). apply Hok.
  - simpl. rewrite (call_step_calls _ _ _ _ _ _ _ _ Hcs).
    destruct (decide (c = c0)) as [->|Hne].
    2:{ rewrite list_lookup_insert_ne by done. apply Hok. }
    rewrite list_lookup_insert_eq by by eapply lookup_lt_Some.
    intros [= -> <-] Hop.
    unfold call_step, task_system_done, reset, wait_to_completion in Hcs.
    destruct op0, fr; crush_step; try done; by repeat case_match.
Qed.

Lemma owners_thread (t : task) (w : world) (id : nat) (th : thread) :
  threads_ (pool w) !! id = Some th → t ∈ holding th → 1 ≤ owners t w.
Proof.
  intros Hth Hin. unfold owners.
  pose proof (sum_list_with_lookup
    (λ th, sum_list_with (task_count t) (holding th)) _ _ _ Hth) as H.
  destruct th; simpl in *; try (by apply elem_of_nil in Hin);
    apply list_elem_of_singleton in Hin as ->;
    rewrite task_count_same in H; lia.
Qed.


Lemma slot_lookup (n : N) (w : world) (x : N) :
  shaped n w → (0 < n)%N →
  ∃ tq, size_rem x (nthreads_ (pool w)) = Some (N.to_nat (x mod n))
        ∧ queues_ (pool w) !! N.to_nat (x mod n) = Some tq.
Proof.
  intros [Hn Hlq _ _] Hpos. unfold size_rem. rewrite Hn.
  destruct (N.eqb_spec n 0); [lia|].
  destruct (lookup_lt_is_Some_2 (queues_ (pool w)) (N.to_nat (x mod n)))
    as [tq Htq].
  { rewrite Hlq. pose proof (N.mod_upper_bound x n). lia. }
  by exists tq.
Qed.

Lemma final_store_extends (acts : list action) (w : world) :
  store_extends (store w) (store (final acts w)).
Proof.
  revert w. induction acts as [|a acts IH]; intros w; [apply store_extends_refl|].
  rewrite final_cons. destruct (step a w) as [[w1 evs]|] eqn:Hs; [|apply IH].
  eapply store_extends_trans; [by eapply step_store_extends|apply IH].
Qed.

Lemma sum_list_with_pos {X : Type} (f : X → nat) (l : list X) :
  1 ≤ sum_list_with f l → ∃ i x, l !! i = Some x ∧ 1 ≤ f x.
Proof.
  induction l as [|y l IH]; simpl; [lia|]. intros H.
  destruct (decide (1 ≤ f y)) as [Hy|Hy].
  - by exists 0, y.
  - destruct IH as (i & x & Hi & Hx); [lia|]. by exists (S i), x.
Qed.

Lemma task_count_elem (t : task) (l : list task) :
  1 ≤ sum_list_with (task_count t) l → t ∈ l.
Proof.
  intros (i & x & Hi & Hx)%sum_list_with_pos. unfold task_count in Hx.
  case_decide; [subst|lia]. apply list_elem_of_lookup. eauto.
Qed.


Lemma reachable_handle_ok (n : N) (acts : list action) :
  handle_ok (final acts (init n)).
Proof.
  apply (exec_ind (λ w _, handle_ok w)); [by intros c f x fr a [=]|].
  intros w tr a w' evs Hw Hs. by eapply step_handle_ok.
Qed.


(** ** Further properties *)

(** *** The queue operations together *)

(** X3. On an empty queue a push followed by a pop gives the job back and
    leaves the queue as it was; on a non-empty queue the pop returns the old
    head and commutes with the push.  An acquired [try_push] leaves the queue
    as [push] does.  After [set_done] a blocking pop never waits, and returns
    not-ok on an empty queue; [set_done] twice is [set_done] once; a queue
    whose latch is set still accepts a job. *)
Theorem queue_operations_compose (q : task_queue) (t : task) :
  (tasks_ q = [] →
     pop (push t q).1 = Some ((true, t), q)
     ∧ try_pop true (try_push true t q).1.2 = ((true, t), q))
  ∧ (∀ h rest, tasks_ q = h :: rest →
       pop (push t q).1
       = Some ((true, h), (push t {| tasks_ := rest; done_ := done_ q |}).1))
  ∧ (try_push true t q).1.2 = (push t q).1
  ∧ pop (set_done q).1 ≠ None
  ∧ (tasks_ q = [] → pop (set_done q).1 = Some ((false, None), (set_done q).1))
  ∧ (set_done (set_done q).1).1 = (set_done q).1
  ∧ done_ (push t (set_done q).1).1 = true
  ∧ tasks_ (push t (set_done q).1).1 = tasks_ q ++ [t].
Proof.
  destruct q as [ts d]. unfold pop, try_pop, push, try_push, set_done. simpl.
  split_and!; try done.
  - by intros ->.
  - by intros h rest ->.
  - by destruct ts.
  - by intros ->.
Qed.

(** X2. [try_pop] hands out a job exactly when the lock is acquired and the
    FIFO is not empty: it then removes the head and leaves the rest and the
    latch as they are, whether the latch is set or not; otherwise it returns
    not-ok with the empty task and leaves the queue unchanged. *)
Theorem try_pop_contract (acquired : bool) (q : task_queue) :
  ((try_pop acquired q).1.1 = true ↔ acquired = true ∧ tasks_ q ≠ [])
  ∧ ((try_pop acquired q).1.1 = false →
       (try_pop acquired q).1.2 = None ∧ (try_pop acquired q).2 = q)
  ∧ ((try_pop acquired q).1.1 = true →
       tasks_ q = (try_pop acquired q).1.2 :: tasks_ (try_pop acquired q).2
       ∧ done_ (try_pop acquired q).2 = done_ q).
Proof.
  unfold try_pop. destruct acquired, q as [[|t ts] d]; simpl;
    (split; [split; [done|by intros []]|]); by split.
Qed.

(** X4. A future that is ready stays ready with the same content, whatever
    the pool and its clients do afterwards ([reset] included). *)
Theorem settled_is_final (n : N) (acts acts' : list action) (h : future) (s : settled) :
  await (store (final acts (init n))) h = Some s →
  await (store (final (acts ++ acts') (init n))) h = Some s.
Proof.
  unfold await. intros Hs. apply bind_Some in Hs as (m & Hm & Hs).
  rewrite final_app.
  destruct (final_store_extends acts' (final acts (init n)) _ _ Hm)
    as (m' & Hm' & _ & _ & Hkeep).
  rewrite Hm'. simpl. by apply Hkeep.
Qed.

Lemma done_insert (qs : list task_queue) (q : nat) (tq tq' : task_queue) (id : nat) :
  qs !! q = Some tq → (done_ tq = true → done_ tq' = true) →
  (∃ t, qs !! id = Some t ∧ done_ t = true) →
  ∃ t, <[q := tq']> qs !! id = Some t ∧ done_ t = true.
Proof.
  intros Hq Hd (t & Ht & Hdt). destruct (decide (q = id)) as [->|Hne].
  - rewrite list_lookup_insert_eq by by eapply lookup_lt_Some.
    exists tq'. split; [done|]. apply Hd. congruence.
  - rewrite list_lookup_insert_ne by done. by exists t.
Qed.

Lemma step_past_loop_ok (a : action) (w w' : world) (evs : trace) :
  past_loop_ok w → step a w = Some (w', evs) → past_loop_ok w'.
Proof.
  unfold past_loop_ok. intros Hok Hs. step_cases Hs.
  - done.
  - pose proof (Hok _ _ Hth) as Hme.
    unfold run, run_call, try_pop, pop in *.
    destruct th; crush_step; simpl; intros id0 th0 Hth0 Hsc.
    all: destruct (decide (id = id0)) as [->|Hne];
      [ rewrite list_lookup_insert_eq in Hth0 by (by eapply lookup_lt_Some);
        simplify_eq
      | rewrite list_lookup_insert_ne in Hth0 by done;
        specialize (Hok _ _ Hth0 Hsc) ].
    all: try (by apply Hme).
    all: try (by apply Hok).
    all: try (eapply done_insert; [done|done|]; by (apply Hme || apply Hok)).
    all: try (by repeat case_match).
    rewrite list_lookup_insert_eq by by eapply lookup_lt_Some.
    eexists. split; [done|]. by destruct (done_ t).
  - unfold call_step, task_system_push, task_system_done, reset,
      wait_to_completion, try_push, push, set_done in *.
    destruct op, fr; crush_step; simpl; intros id0 th0 Hth0 Hsc.
    all: try (by apply Hok).
    all: try (eapply done_insert; [done|done|]; by eapply Hok).
    all: try (by repeat case_match; eapply Hok).
    apply lookup_replicate in Hth0 as [-> _]. done.
Qed.

Lemma reachable_past_loop_ok (n : N) (acts : list action) :
  past_loop_ok (final acts (init n)).
Proof.
  apply (exec_ind (λ w _, past_loop_ok w)).
  - intros id th Hth Hsc. simpl in Hth.
    apply lookup_replicate in Hth as [-> _]. done.
  - intros w tr a w' evs Hw Hs. by eapply step_past_loop_ok.
Qed.

Lemma ops_lookup (w : world) (c : nat) (op : api) (fr : frame) :
  calls w !! c = Some (op, fr) → op ∈ ops w.
Proof.
  intros Hc. apply list_elem_of_lookup. exists c. unfold ops.
  by rewrite list_lookup_fmap, Hc.
Qed.

Lemma step_ops_incl (a : action) (w w' : world) (evs : trace) (op : api) :
  step a w = Some (w', evs) → op ∉ ops w' → op ∉ ops w.
Proof.
  intros Hs Hno Hin. apply Hno. rewrite (step_ops _ _ _ _ Hs).
  apply elem_of_app. by left.
Qed.

Lemma step_quiet_ok (a : action) (w w' : world) (evs : trace) :
  quiet_ok w → step a w = Some (w', evs) → quiet_ok w'.
Proof.
  unfold quiet_ok. intros Hok Hs Hd Hr.
  specialize (Hok (step_ops_incl _ _ _ _ _ Hs Hd) (step_ops_incl _ _ _ _ _ Hs Hr)).
  pose proof (step_ops_incl _ _ _ _ _ Hs Hd) as Hd'.
  pose proof (step_ops_incl _ _ _ _ _ Hs Hr) as Hr'.
  step_cases Hs.
  - done.
  - unfold run, run_call, try_pop, pop in *.
    destruct th; crush_step; simpl; try done.
    all: apply Forall_insert; [done|]; simpl;
         try (by eapply (Forall_lookup_1 _ _ _ _ Hok)).
  - pose proof (ops_lookup _ _ _ _ Hc) as Hin.
    unfold call_step, task_system_push, task_system_done, reset,
      wait_to_completion, try_push, push, set_done in *.
    destruct op; try done; destruct fr; crush_step; simpl; try done.
    all: try (by repeat case_match).
    all: apply Forall_insert; [done|]; simpl;
         try (by eapply (Forall_lookup_1 _ _ _ _ Hok)).
Qed.

Lemma reachable_quiet_ok (n : N) (acts : list action) :
  quiet_ok (final acts (init n)).
Proof.
  apply (exec_ind (λ w _, quiet_ok w)).
  - intros _ _. simpl. apply Forall_forall. by intros q ->%elem_of_replicate_inv.
  - intros w tr a w' evs Hw Hs. by eapply step_quiet_ok.
Qed.

Lemma step_exited_ok (a : action) (w w' : world) (evs : trace) :
  exited_ok w → step a w = Some (w', evs) → exited_ok w'.
Proof.
  unfold exited_ok. intros Hok Hs Hr.
  specialize (Hok (step_ops_incl _ _ _ _ _ Hs Hr)).
  pose proof (step_ops_incl _ _ _ _ _ Hs Hr) as Hr'.
  step_cases Hs.
  - done.
  - destruct (run_exited _ _ _ _ _ _ _ Hrun) as [Hths Hex].
    pose proof (run_not_terminated _ _ _ _ _ _ _ Hrun) as Hnt.
    simpl. rewrite Hths. intros j Hj.
    destruct (decide (id = j)) as [->|Hne].
    + rewrite list_lookup_insert_eq by by eapply lookup_lt_Some.
      destruct Hex as [[_ Hex]|[-> _]]; [|done].
      rewrite Hex in Hj. apply Hok in Hj. congruence.
    + rewrite list_lookup_insert_ne by done. apply Hok.
      destruct Hex as [[_ Hex]|(_ & _ & Hex)]; rewrite Hex in Hj; [done|].
      by rewrite list_lookup_insert_ne in Hj.
  - pose proof (ops_lookup _ _ _ _ Hc) as Hin.
    unfold call_step, task_system_push, task_system_done, reset,
      wait_to_completion, try_push, push, set_done in *.
    destruct op; try done; destruct fr; crush_step; simpl; try done.
    all: try (by repeat case_match).
Qed.

Lemma reachable_exited_ok (n : N) (acts : list action) :
  exited_ok (final acts (init n)).
Proof.
  apply (exec_ind (λ w _, exited_ok w)).
  - intros _ j Hj. simpl in Hj. by apply lookup_replicate in Hj as [[=] _].
  - intros w tr a w' evs Hw Hs. by eapply step_exited_ok.
Qed.

(** X10. A worker leaves its main loop only when the latch of its own queue
    is set.  So until [done] or [reset] is called, every worker is in its
    main loop and no exited flag is set. *)
Theorem workers_stay_until_done (n : N) (acts : list action) :
  (∀ id th, threads_ (pool (final acts (init n))) !! id = Some th →
     scanning th = false →
     ∃ tq, queues_ (pool (final acts (init n))) !! id = Some tq
           ∧ done_ tq = true)
  ∧ (Done ∉ ops (final acts (init n)) → Reset ∉ ops (final acts (init n)) →
     Forall (λ th, scanning th = true) (threads_ (pool (final acts (init n))))
     ∧ Forall (λ b, b = false) (exited_ (pool (final acts (init n))))).
Proof.
  split; [apply reachable_past_loop_ok|]. intros Hd Hr.
  pose proof (reachable_quiet_ok n acts Hd Hr) as Hq.
  assert (Forall (λ th, scanning th = true)
            (threads_ (pool (final acts (init n))))) as Hsc.
  { apply Forall_lookup. intros id th Hth.
    destruct (scanning th) eqn:Hs; [done|].
    destruct (reachable_past_loop_ok n acts _ _ Hth Hs) as (tq & Htq & Hdone).
    pose proof (Forall_lookup_1 _ _ _ _ Hq Htq) as Hf. simpl in Hf. congruence. }
  split; [done|]. apply Forall_lookup. intros j [|] Hj; [|done].
  pose proof (reachable_exited_ok n acts Hr _ Hj) as Hth.
  by pose proof (Forall_lookup_1 _ _ _ _ Hsc Hth).
Qed.

(** X14. In a pool of at least one worker, [wait_to_completion] does not
    return unless [done] or [reset] has been called. *)
Theorem wait_needs_done (n : N) (acts : list action) (c : nat) (fr : frame) :
  (0 < n)%N →
  Done ∉ ops (final acts (init n)) → Reset ∉ ops (final acts (init n)) →
  calls (final acts (init n)) !! c = Some (WaitToCompletion, fr) →
  ∀ r, fr ≠ Returned r.
Proof.
  intros Hn Hd Hr Hc r ->.
  pose proof (reachable_wait_ok n acts c _ Hc) as [_ Hall]. simpl in Hall.
  pose proof (reachable_shaped n acts) as [_ _ _ Hlen].
  assert (exited_ (pool (final acts (init n))) !! 0 = Some true) as H0.
  { apply Hall. lia. }
  pose proof (reachable_exited_ok n acts Hr _ H0) as Hth.
  destruct (reachable_past_loop_ok n acts _ _ Hth eq_refl) as (tq & Htq & Hdone).
  pose proof (Forall_lookup_1 _ _ _ _ (reachable_quiet_ok n acts Hd Hr) Htq) as Hf.
  simpl in Hf. congruence.
Qed.

(** *** The done latches *)

Lemma latched_insert (k q : nat) (qs : list task_queue) (tq tq' : task_queue) :
  qs !! q = Some tq → (done_ tq = true → done_ tq' = true) →
  latched k qs → latched k (<[q := tq']> qs).
Proof.
  intros Hq Hd Hl i t Hi. destruct (decide (q = i)) as [->|Hne].
  - rewrite list_lookup_insert_eq by by eapply lookup_lt_Some.
    intros [= <-]. apply Hd. by apply (Hl i tq).
  - rewrite list_lookup_insert_ne by done. by apply Hl.
Qed.

Lemma done_frame_ok_insert (q : nat) (qs : list task_queue) (tq tq' : task_queue)
    (fr : frame) :
  qs !! q = Some tq → (done_ tq = true → done_ tq' = true) →
  done_frame_ok qs fr → done_frame_ok (<[q := tq']> qs) fr.
Proof.
  intros Hq Hd. destruct fr; simpl; try done.
  - by apply (latched_insert _ _ _ tq).
  - rewrite length_insert. by apply (latched_insert _ _ _ tq).
Qed.

Lemma step_done_ok (a : action) (w w' : world) (evs : trace) :
  done_ok w → step a w = Some (w', evs) → done_ok w'.
Proof.
  unfold done_ok. intros Hok Hs Hr.
  specialize (Hok (step_ops_incl _ _ _ _ _ Hs Hr)).
  pose proof (step_ops_incl _ _ _ _ _ Hs Hr) as Hr'.
  step_cases Hs.
  - simpl. intros c fr [Hc|[_ Hc]]%lookup_app_Some; [by eapply Hok|].
    apply list_lookup_singleton_Some in Hc as [_ [= -> <-]]. simpl.
    intros i tq Hi. lia.
  - simpl. rewrite (run_calls _ _ _ _ _ _ _ Hrun).
    intros c fr Hc. specialize (Hok _ _ Hc).
    unfold run, run_call, try_pop, pop in *.
    destruct th; crush_step; simpl; try done.
    all: by eapply done_frame_ok_insert.
  - pose proof (ops_lookup _ _ _ _ Hc) as Hin.
    simpl. rewrite (call_step_calls _ _ _ _ _ _ _ _ Hcs).
    intros c0 fr0 Hc0.
    assert (∀ fr1, calls w !! c0 = Some (Done, fr1) →
                   done_frame_ok (queues_ (pool w)) fr1) as Hold by eauto.
    destruct (decide (c = c0)) as [->|Hne].
    + rewrite list_lookup_insert_eq in Hc0 by by eapply lookup_lt_Some.
      injection Hc0 as -> ->. specialize (Hold _ Hc). clear Hok.
      unfold call_step, task_system_done, set_done in *.
      destruct fr; crush_step; simpl in *.
      * intros i tq Hi. destruct (decide (i = k)) as [->|Hne].
        -- rewrite list_lookup_insert_eq by by eapply lookup_lt_Some.
           by intros [= <-].
        -- rewrite list_lookup_insert_ne by done. apply Hold. lia.
      * intros i tq Hi Hq. destruct (decide (i < k)); [by eapply Hold|].
        apply lookup_ge_None in E. apply lookup_lt_Some in Hq. lia.
    + rewrite list_lookup_insert_ne in Hc0 by done. specialize (Hold _ Hc0).
      clear Hok.
      unfold call_step, task_system_push, task_system_done, reset,
        wait_to_completion, try_push, push, set_done in *.
      destruct op; try done; destruct fr; crush_step; simpl; try done.
      all: try (by repeat case_match).
      all: by eapply done_frame_ok_insert.
Qed.

Lemma reachable_done_ok (n : N) (acts : list action) :
  done_ok (final acts (init n)).
Proof.
  apply (exec_ind (λ w _, done_ok w)).
  - by intros _ c fr [=].
  - intros w tr a w' evs Hw Hs. by eapply step_done_ok.
Qed.

(** X13. Once [done] has returned, the latch of every queue is set, and it
    stays set as long as [reset] is not called. *)
Theorem done_sets_every_latch (n : N) (acts : list action) (c : nat) (r : option future) :
  calls (final acts (init n)) !! c = Some (Done, Returned r) →
  Reset ∉ ops (final acts (init n)) →
  length (queues_ (pool (final acts (init n)))) = N.to_nat n
  ∧ Forall (λ q, done_ q = true) (queues_ (pool (final acts (init n)))).
Proof.
  intros Hc Hr. split; [apply reachable_shaped|].
  pose proof (reachable_done_ok n acts Hr _ _ Hc) as Hl. simpl in Hl.
  apply Forall_lookup. intros i tq Hi. eapply Hl; [|done].
  by eapply lookup_lt_Some.
Qed.

(** *** The dispatch counter *)

Lemma step_index (a : action) (w w' : world) (evs : trace) :
  step a w = Some (w', evs) →
  (indices evs = [] ∧ current_index_ (pool w') = current_index_ (pool w))
  ∨ (indices evs = [current_index_ (pool w)]
     ∧ current_index_ (pool w') = size_inc (current_index_ (pool w))).
Proof.
  intros Hs. step_cases Hs.
  - by left.
  - unfold run, run_call, try_pop, pop in *.
    destruct th; crush_step; simpl; by left.
  - unfold call_step, task_system_push, task_system_done, reset,
      wait_to_completion, try_push, push, set_done in *.
    destruct op, fr; crush_step; simpl; try (by left); try (by right).
    all: repeat case_match; simpl; by left.
Qed.

Lemma step_index_ok (a : action) (w w' : world) (tr evs : trace) :
  index_ok w tr → step a w = Some (w', evs) → index_ok w' (tr ++ evs).
Proof.
  intros [Hi Hl] Hs. unfold index_ok, indices in *.
  rewrite flat_map_app, length_app.
  destruct (step_index _ _ _ _ Hs) as [[He ->]|[He ->]];
    unfold indices in He; rewrite He; simpl.
  - by rewrite Nat.add_0_r, app_nil_r.
  - split.
    + rewrite Hi. unfold_size.
      replace (N.of_nat (length (flat_map
        (λ e : agent * event, match e.2 with EvNextIndex idx => [idx] | _ => [] end)
        tr) + 1)) with (N.of_nat (length (flat_map
        (λ e : agent * event, match e.2 with EvNextIndex idx => [idx] | _ => [] end)
        tr)) + 1)%N by lia.
      set (x := N.of_nat _). lia.
    + rewrite seq_app, fmap_app. simpl. rewrite <- Hl. by rewrite Hi.
Qed.

Lemma step_taken_ok (a : action) (w w' : world) (tr evs : trace) :
  taken_ok w tr → step a w = Some (w', evs) → taken_ok w' (tr ++ evs).
Proof.
  unfold taken_ok, indices. intros Hi Hs.
  rewrite flat_map_app, length_app, Hi. clear Hi. step_cases Hs.
  - simpl. rewrite sum_list_with_app. simpl.
    replace (took_index (op, first_frame op)) with 0 by by destruct op.
    lia.
  - simpl. rewrite (run_calls _ _ _ _ _ _ _ Hrun).
    unfold run, run_call, try_pop, pop in *.
    destruct th; crush_step; simpl; lia.
  - simpl. rewrite (call_step_calls _ _ _ _ _ _ _ _ Hcs).
    pose proof (sum_list_with_insert took_index _ _ _ (op, fr') Hc) as F.
    unfold call_step, task_system_push, task_system_done, reset,
      wait_to_completion, try_push, push, set_done in *.
    destruct op, fr; crush_step; cbn in *; repeat case_match; cbn in *; lia.
Qed.

Lemma submitted_in_turn_app (acts1 acts2 : list action) (w : world) :
  submitted_in_turn w (acts1 ++ acts2)
  = submitted_in_turn w acts1 && submitted_in_turn (final acts1 w) acts2.
Proof.
  revert w. induction acts1 as [|a acts1 IH]; intros w; [done|].
  rewrite <- app_comm_cons. cbn [submitted_in_turn].
  rewrite IH, (final_cons' a acts1). by rewrite andb_assoc.
Qed.

Lemma step_submitting (a : action) (w w' : world) (evs : trace) :
  step a w = Some (w', evs) →
  sum_list_with submitting (calls w')
  ≤ sum_list_with submitting (calls w)
    + match a with Begin op => if is_push op then 1 else 0 | _ => 0 end.
Proof.
  intros Hs. step_cases Hs.
  - simpl. rewrite sum_list_with_app. simpl. unfold submitting at 2. simpl.
    destruct op; simpl; lia.
  - simpl. rewrite (run_calls _ _ _ _ _ _ _ Hrun). lia.
  - simpl. rewrite (call_step_calls _ _ _ _ _ _ _ _ Hcs).
    pose proof (sum_list_with_insert submitting _ _ _ (op, fr') Hc) as F.
    assert (submitting (op, fr') ≤ submitting (op, fr)); [|lia].
    unfold submitting, returned. simpl.
    unfold call_step, task_system_push, task_system_done, reset,
      wait_to_completion in Hcs.
    destruct op, fr; crush_step; simpl; repeat case_match; simpl; lia.
Qed.

Lemma reachable_in_turn (n : N) (acts : list action) :
  submitted_in_turn (init n) acts = true →
  sum_list_with submitting (calls (final acts (init n))) ≤ 1.
Proof.
  induction acts as [|a acts IH] using rev_ind; [simpl; lia|].
  rewrite submitted_in_turn_app. intros [H1 H2]%andb_prop.
  specialize (IH H1). rewrite final_app, final_cons.
  destruct (step a _) as [[w' evs]|] eqn:Hs; [|done].
  pose proof (step_submitting _ _ _ _ Hs) as Hle. unfold final, exec. simpl.
  destruct a as [op| |]; [|lia..]. simpl in H2.
  destruct (is_push op); simpl in *; [|lia].
  rewrite andb_true_r in H2. apply bool_decide_eq_true in H2. lia.
Qed.

(** X7. When the calls of [push] do not overlap, each being entered only
    once the earlier ones have returned, no two calls are ever inside [push]
    together, so that the plain [current_index_++] is never raced; the
    dispatch counter then counts the submissions: the [i]-th call of push to
    reach [current_index_++] reads [i] (on [std::size_t]), each call of push
    reads it exactly once, and [reset] does not rewind it. *)
Theorem dispatch_counter_counts (n : N) (acts : list action) :
  submitted_in_turn (init n) acts = true →
  sum_list_with submitting (calls (final acts (init n))) ≤ 1
  ∧ current_index_ (pool (final acts (init n)))
    = (N.of_nat (length (indices (history acts (init n)))) mod size_modulus)%N
  ∧ indices (history acts (init n))
    = (λ i, (N.of_nat i mod size_modulus)%N)
        <$> seq 0 (length (indices (history acts (init n))))
  ∧ length (indices (history acts (init n)))
    = sum_list_with took_index (calls (final acts (init n))).
Proof.
  intros Hturn. split; [by apply reachable_in_turn|].
  rewrite assoc by apply _. split.
  - apply (exec_ind index_ok); [done|].
    intros w tr a w' evs Hw Hs. by eapply step_index_ok.
  - apply (exec_ind taken_ok); [done|].
    intros w tr a w' evs Hw Hs. by eapply step_taken_ok.
Qed.

(** *** A pool of zero workers *)

Lemma step_zero_ok (a : action) (w w' : world) (evs : trace) :
  zero_ok w → step a w = Some (w', evs) → zero_ok w'.
Proof.
  intros (Hn & Hths & Hab & Hok) Hs. unfold zero_ok. step_cases Hs.
  - split_and!; try done. simpl.
    intros c op0 fr [Hc|[_ Hc]]%lookup_app_Some; [by eapply Hok|].
    apply list_lookup_singleton_Some in Hc as [_ [= -> <-]]. by destruct op0.
  - by rewrite Hths in Hth.
  - assert (nthreads_ (pool w1) = 0%N ∧ threads_ (pool w1) = []
            ∧ aborted w1 = false) as (? & ? & ?).
    { unfold call_step, task_system_push, task_system_done, reset,
        wait_to_completion, try_push, push, set_done in *.
      destruct op, fr; crush_step; simpl; try done.
      all: repeat case_match; simpl; try done.
      all: by rewrite Hn. }
    split_and!; try done. simpl.
    rewrite (call_step_calls _ _ _ _ _ _ _ _ Hcs). intros c0 op0 fr0 Hc0 Hop.
    destruct (decide (c = c0)) as [->|Hne].
    2:{ rewrite list_lookup_insert_ne in Hc0 by done. by eapply Hok. }
    rewrite list_lookup_insert_eq in Hc0 by by eapply lookup_lt_Some.
    injection Hc0 as -> ->. specialize (Hok _ _ _ Hc Hop).
    unfold call_step, task_system_push, size_rem in *.
    rewrite Hn in *.
    destruct op0; try done; destruct fr; crush_step; simpl in *; try done.
Qed.

Lemma reachable_zero_ok (acts : list action) : zero_ok (final acts (init 0)).
Proof.
  apply (exec_ind (λ w _, zero_ok w)).
  - by split_and!.
  - intros w tr a w' evs Hw Hs. by eapply step_zero_ok.
Qed.

(** X9. In a pool of zero workers no call of push returns: it ends at
    [idx % nthreads_] with [nthreads_ = 0], the remainder by zero, which is
    the only point where it has no defined step. *)
Theorem zero_workers_push_never_returns (acts : list action) (c : nat)
    (op : api) (fr : frame) :
  is_push op = true →
  calls (final acts (init 0)) !! c = Some (op, fr) →
  (∀ r, fr ≠ Returned r)
  ∧ ∀ b, step (Advance c b) (final acts (init 0)) = None
         ↔ ∃ t fut idx, fr = BlockingPush t fut idx.
Proof.
  intros Hop Hc.
  destruct (reachable_zero_ok acts) as (Hn & Hths & Hab & Hok).
  specialize (Hok _ _ _ Hc Hop). split.
  - intros r ->. done.
  - intros b. unfold step. rewrite Hab, Hc.
    unfold call_step, task_system_push, size_rem. rewrite Hn.
    destruct op; try done; destruct fr; simpl in *; try done.
    all: subst; simpl; repeat case_match; simpl.
    all: (split; [intros Hnone|intros (? & ? & ? & Hnone)]);
         try discriminate; try done; eauto.
Qed.

(** *** Push never waits *)

Lemma step_frames_ok (a : action) (w w' : world) (evs : trace) :
  frames_ok w → step a w = Some (w', evs) → frames_ok w'.
Proof.
  intros Hok Hs c0 op0 fr0. step_cases Hs.
  - simpl. intros [Hc|[_ Hc]]%lookup_app_Some; [by eapply Hok|].
    apply list_lookup_singleton_Some in Hc as [_ [= -> <-]]. by destruct op0.
  - simpl. rewrite (run_calls _ _ _ _ _ _ _ Hrun). apply Hok.
  - simpl. rewrite (call_step_calls _ _ _ _ _ _ _ _ Hcs).
    destruct (decide (c = c0)) as [->|Hne].
    2:{ rewrite list_lookup_insert_ne by done. apply Hok. }
    rewrite list_lookup_insert_eq by by eapply lookup_lt_Some.
    intros [= -> <-] Hop.
    unfold call_step, task_system_push in Hcs.
    destruct op0; try done; destruct fr; crush_step; try done;
      by repeat case_match.
Qed.

Lemma reachable_frames_ok (n : N) (acts : list action) :
  frames_ok (final acts (init n)).
Proof.
  apply (exec_ind (λ w _, frames_ok w)); [by intros c op fr [=]|].
  intros w tr a w' evs Hw Hs. by eapply step_frames_ok.
Qed.

(** X8. In a pool of at least one worker a call of push that has not
    returned can always take its next step, whether its [try_to_lock]
    succeeds or not, and after the step it is strictly closer to its return:
    a call of push returns within [3 * (10 * n) + 4] steps of its own. *)
Theorem push_never_waits (n : N) (acts : list action) (c : nat) (op : api)
    (fr : frame) (b : bool) :
  (0 < n)%N → (10 * n < size_modulus)%N →
  aborted (final acts (init n)) = false →
  is_push op = true →
  calls (final acts (init n)) !! c = Some (op, fr) →
  (∀ r, fr ≠ Returned r) →
  ∃ w' fr' evs,
    step (Advance c b) (final acts (init n)) = Some (w', evs)
    ∧ calls w' !! c = Some (op, fr')
    ∧ push_steps_left (N.to_nat (10 * n)) fr'
      < push_steps_left (N.to_nat (10 * n)) fr.
Proof.
  intros Hpos Hn Hab Hop Hc Hnr.
  pose proof (reachable_shaped n acts) as Hsh.
  destruct (reachable_push_ok n acts Hn) as [_ Hp].
  specialize (Hp _ _ _ Hc Hop).
  pose proof (reachable_frames_ok n acts _ _ _ Hc Hop) as Hfr.
  set (w := final acts (init n)) in *.
  assert (∀ w1 fr1 evs1,
            call_step c b op fr w = Some (w1, fr1, evs1) →
            push_steps_left (N.to_nat (10 * n)) fr1
              < push_steps_left (N.to_nat (10 * n)) fr →
            ∃ w' fr' evs,
              step (Advance c b) w = Some (w', evs)
              ∧ calls w' !! c = Some (op, fr')
              ∧ push_steps_left (N.to_nat (10 * n)) fr'
                < push_steps_left (N.to_nat (10 * n)) fr) as Hgo.
  { intros w1 fr1 evs1 Hcs Hlt. unfold step. rewrite Hab, Hc, Hcs.
    eexists _, fr1, _. split; [done|]. split; [|done]. simpl.
    rewrite (call_step_calls _ _ _ _ _ _ _ _ Hcs).
    rewrite list_lookup_insert_eq; [done|]. by eapply lookup_lt_Some. }
  assert (size_mul 10 (nthreads_ (pool w)) = 10 * n)%N as HT.
  { destruct Hsh as [-> _ _ _]. unfold size_mul. by rewrite N.mod_small. }
  replace (call_step c b op fr w) with (task_system_push op b fr w) in Hgo
    by by destruct op.
  unfold task_system_push in Hgo. rewrite HT in Hgo.
  destruct fr; simpl in Hp, Hfr; try done; try (by destruct (Hnr r)).
  - destruct op as [f x|[[f x]|]| | |]; try done;
      (eapply Hgo; [done|]); simpl; lia.
  - eapply Hgo; [done|]. simpl. lia.
  - destruct Hp as [Hk _]. eapply Hgo; [done|]. case_match; simpl.
    + apply N.ltb_lt in H. lia.
    + apply N.ltb_ge in H. lia.
  - destruct Hp as [Hk _].
    destruct (slot_lookup n w (size_add idx k) Hsh Hpos) as (tq & Hq & Htq).
    rewrite Hq in Hgo. simpl in Hgo. rewrite Htq in Hgo. simpl in Hgo.
    destruct (try_push b t tq) as [[[ok t'] tq'] cvs] eqn:Htp.
    eapply Hgo; [done|]. simpl. destruct ok; simpl; lia.
  - destruct Hp as [Hk _]. eapply Hgo; [done|]. simpl. unfold_size.
    rewrite N.mod_small by lia. lia.
  - destruct (slot_lookup n w idx Hsh Hpos) as (tq & Hq & Htq).
    rewrite Hq in Hgo. simpl in Hgo. rewrite Htq in Hgo. simpl in Hgo.
    eapply Hgo; [done|]. simpl. lia.
Qed.

(** *** Ownership of the jobs, in general *)

#[local] Arguments due : simpl never.

Lemma due_drop (a : nat) (hp : heap) (t : task) :
  due (Some a) (task_drop hp t)
  = if decide (t = Some a) then 0 else due (Some a) hp.
Proof.
  unfold task_drop, due. destruct t as [a'|]; [|by case_decide].
  destruct (hp !! a') as [m|] eqn:Hm.
  2:{ case_decide as Heq; [|done]. injection Heq as ->. by rewrite Hm. }
  destruct (shared_state (_f m)) eqn:Hs.
  { case_decide as Heq; [|done]. injection Heq as ->. by rewrite Hm, Hs. }
  case_decide as Heq.
  - injection Heq as ->.
    by rewrite list_lookup_insert_eq by by eapply lookup_lt_Some.
  - rewrite list_lookup_insert_ne; [done|congruence].
Qed.

Lemma due_drops (a : nat) (ts : list task) (hp : heap) :
  due (Some a) (foldl task_drop hp ts)
  = if decide (Some a ∈ ts) then 0 else due (Some a) hp.
Proof.
  revert hp. induction ts as [|t ts IH]; intros hp.
  - destruct (decide (Some a ∈ [])) as [H|H]; [by apply elem_of_nil in H|done].
  - cbn [foldl]. rewrite IH, due_drop.
    destruct (decide (Some a ∈ ts)) as [H1|H1],
      (decide (t = Some a)) as [H2|H2],
      (decide (Some a ∈ t :: ts)) as [H3|H3]; try done.
    + destruct H3. by right.
    + destruct H3. by right.
    + destruct H3. subst. by left.
    + apply elem_of_cons in H3 as [?|?]; [by destruct H2|by destruct H1].
Qed.

Lemma bystander_holds_nothing (cs : list (api * frame)) (t : task) :
  forallb bystander cs = true →
  sum_list_with (λ c : api * frame, sum_list_with (task_count t) (frame_task c.2)) cs
  = 0.
Proof.
  intros H. apply sum_list_with_zero. apply Forall_forall. intros [op fr] Hin.
  rewrite forallb_forall in H. apply list_elem_of_In in Hin. apply H in Hin.
  unfold bystander in *. simpl in *. by destruct fr.
Qed.

Lemma queues_hold (t : task) (qs : list task_queue) :
  1 ≤ sum_list_with (λ q, sum_list_with (task_count t) (tasks_ q)) qs →
  t ∈ concat (tasks_ <$> qs).
Proof.
  induction qs as [|q qs IH]; simpl; [lia|]. intros H.
  apply elem_of_app.
  destruct (decide (1 ≤ sum_list_with (task_count t) (tasks_ q))) as [Hq|Hq].
  - left. by apply task_count_elem.
  - right. apply IH. lia.
Qed.

Lemma others_quiet_holds (c : nat) (cs : list (api * frame)) (x : api * frame)
    (t : task) :
  others_quiet c cs = true → cs !! c = Some x →
  sum_list_with (λ c : api * frame, sum_list_with (task_count t) (frame_task c.2)) cs
  = sum_list_with (task_count t) (frame_task x.2).
Proof.
  unfold others_quiet. intros [Ht Hd]%andb_prop Hc.
  rewrite <- (take_drop_middle cs c x Hc), sum_list_with_app. simpl.
  rewrite !bystander_holds_nothing by done. lia.
Qed.

Lemma step_owned_ok (a : action) (w w' : world) (evs : trace) :
  join_ok w → holders_ok w → owned_ok w → step a w = Some (w', evs) →
  owned_ok w'.
Proof.
  intros [_ Hjoin] Hhold Hown Hs. unfold owned_ok, owners in *. step_cases Hs.
  - intros t. rewrite <- Hown. simpl. rewrite sum_list_with_app. simpl.
    replace (frame_task (first_frame op)) with (@nil task) by by destruct op.
    simpl. lia.
  - pose proof (λ t, sum_list_with_lookup
       (λ th, sum_list_with (task_count t) (holding th)) _ _ _ Hth) as Hheld.
    unfold run, run_call, try_pop, pop in *.
    destruct th; try done; crush_step.
    all: try match goal with
         | H : task_call ?t _ = Some _ |- _ =>
             let a0 := fresh "a0" in
             destruct t as [a0|];
             [ let a := fresh "a" in let m := fresh "m" in
               destruct (due_task_call (Some a0) (store w))
                 as (a & m & ? & Hm & Hs & Hcall);
               [ rewrite <- Hown; specialize (Hheld (Some a0));
                 simpl in Hheld; rewrite task_count_same in Hheld; lia
               | rewrite Hcall in H; simplify_eq ]
             | simpl in H; simplify_eq ]
         end.
    all: intros a1; specialize (Hown a1); simpl;
         try (rewrite <- (due_settle (Some a1) _ _ _
                (Completed (callable (_f m) (_args m))) Hm Hs) in Hown);
         own_facts; repeat case_match; simpl in *; lia.
  - unfold call_step, task_system_push, task_system_done, reset,
      wait_to_completion, make_task, try_push, push, set_done in *.
    destruct op as [f x|[[f x]|]| | |]; destruct fr; crush_step.
    all: try (intros t1; specialize (Hown t1); simpl;
              rewrite ?due_app by done;
              own_facts; repeat case_match; simpl in *; lia).
    intros a. specialize (Hown a). simpl.
    pose proof (others_quiet_holds _ _ _ (Some a) E Hc) as Hq. simpl in Hq.
    pose proof (sum_list_with_insert
      (λ c : api * frame, sum_list_with (task_count (Some a)) (frame_task c.2))
      _ _ _ (Reset, Returned None) Hc) as Hins. simpl in Hins.
    assert (sum_list_with (λ th, sum_list_with (task_count (Some a)) (holding th))
              (threads_ (pool w)) = 0) as Hths.
    { apply sum_list_with_zero. apply Forall_lookup. intros i th Hi.
      specialize (Hjoin _ _ _ Hc). simpl in Hjoin.
      by rewrite (Hjoin _ _ Hi). }
    rewrite !sum_list_with_replicate. simpl. rewrite !Nat.mul_0_r.
    rewrite due_drops. case_decide as Hin; [lia|].
    destruct (decide (1 ≤ sum_list_with
      (λ q, sum_list_with (task_count (Some a)) (tasks_ q)) (queues_ (pool w))))
      as [Hge|Hlt]; [by apply queues_hold in Hge|lia].
Qed.

Lemma init_owned_ok (n : N) : owned_ok (init n).
Proof.
  intros a. unfold owners. simpl. rewrite !sum_list_with_replicate.
  simpl. by rewrite !Nat.mul_0_r.
Qed.


Lemma reachable_owned_ok (n : N) (acts : list action) :
  owned_ok (final acts (init n)).
Proof.
  cut (join_ok (final acts (init n)) ∧ holders_ok (final acts (init n))
       ∧ owned_ok (final acts (init n))); [by intros (_ & _ & ?)|].
  apply (exec_ind (λ w _, join_ok w ∧ holders_ok w ∧ owned_ok w)).
  - split_and!; [apply init_join_ok|by intros c op fr [=]|apply init_owned_ok].
  - intros w tr a w' evs (Hj & Hh & Ho) Hs.
    split_and!; [by eapply step_join_ok|by eapply step_holders_ok
                |by eapply step_owned_ok].
Qed.

(** *** Every job is run at most once *)

Lemma step_executed (a : action) (w w' : world) (evs : trace) :
  step a w = Some (w', evs) →
  executed evs = []
  ∨ ∃ a0 m, executed evs = [Some a0] ∧ store w !! a0 = Some m
            ∧ shared_state (_f m) = None
            ∧ store w'
              = <[a0 := settle (Completed (callable (_f m) (_args m))) m]> (store w).
Proof.
  intros Hs. step_cases Hs.
  - by left.
  - unfold run, run_call, try_pop, pop, task_call, invoke_ in *.
    destruct th; crush_step; simpl; try (by left); right; eauto 10.
  - unfold call_step, task_system_push, task_system_done, reset,
      wait_to_completion, try_push, push, set_done in *.
    left. destruct op, fr; crush_step; simpl; try done.
    all: by repeat case_match.
Qed.

Lemma step_ran_ok (a : action) (w w' : world) (tr evs : trace) :
  ran_ok w tr → step a w = Some (w', evs) → ran_ok w' (tr ++ evs).
Proof.
  intros [Hnd Hran] Hs. unfold ran_ok, executed in *. rewrite flat_map_app.
  pose proof (step_store_extends _ _ _ _ Hs) as Hext.
  assert (∀ t, t ∈ flat_map (λ e : agent * event,
                 match e.2 with EvInvoke t => [t] | _ => [] end) tr →
            ∃ a m, t = Some a ∧ store w' !! a = Some m
                   ∧ shared_state (_f m)
                     = Some (Completed (callable (_f m) (_args m)))) as Hold.
  { intros t Ht. destruct (Hran _ Ht) as (a0 & m & -> & Hm & Hst).
    destruct (Hext _ _ Hm) as (m' & Hm' & Hc' & Ha' & Hk).
    exists a0, m'. split_and!; [done..|]. rewrite Hc', Ha'. by apply Hk. }
  destruct (step_executed _ _ _ _ Hs) as [He|(a0 & m & He & Hm & Hst & Hw')];
    unfold executed in He; rewrite He.
  - by rewrite app_nil_r.
  - split.
    + apply NoDup_app. split_and!; [done| |apply NoDup_singleton].
      intros t Ht Hin. apply list_elem_of_singleton in Hin as ->.
      destruct (Hran _ Ht) as (a1 & m1 & Heq & Hm1 & Hst1).
      injection Heq as <-. congruence.
    + intros t [Ht|Ht]%elem_of_app; [by apply Hold|].
      apply list_elem_of_singleton in Ht as ->.
      exists a0, (settle (Completed (callable (_f m) (_args m))) m).
      split_and!; [done| |done]. rewrite Hw'.
      apply list_lookup_insert_eq. by eapply lookup_lt_Some.
Qed.

Lemma reachable_ran_ok (n : N) (acts : list action) :
  ran_ok (final acts (init n)) (history acts (init n)).
Proof.
  apply (exec_ind ran_ok).
  - split; [apply NoDup_nil_2|]. by intros t Ht%elem_of_nil.
  - intros w tr a w' evs Hw Hs. by eapply step_ran_ok.
Qed.

Lemma step_thrown (a : action) (w w' : world) (evs : trace) :
  owned_ok w → step a w = Some (w', evs) →
  (thrown evs = [] ∧ aborted w' = false)
  ∨ (thrown evs = [logic_error "bad task access"]
     ∧ ∃ id, threads_ (pool w) !! id = Some (Call None)
             ∨ ∃ k, threads_ (pool w) !! id = Some (DrainCall None k)).
Proof.
  intros Hown Hs. unfold owned_ok, owners in Hown. step_cases Hs.
  - by left.
  - pose proof (λ t, sum_list_with_lookup
       (λ th, sum_list_with (task_count t) (holding th)) _ _ _ Hth) as Hheld.
    unfold run, run_call, try_pop, pop in *.
    destruct th; try done; crush_step; simpl; try (by left).
    all: match goal with
         | H : task_call ?t _ = Some _ |- _ =>
             let a0 := fresh "a0" in
             destruct t as [a0|];
             [ let a := fresh "a" in let m := fresh "m" in
               destruct (due_task_call (Some a0) (store w))
                 as (a & m & ? & Hm & Hst & Hcall);
               [ rewrite <- Hown; specialize (Hheld (Some a0));
                 simpl in Hheld; rewrite task_count_same in Hheld; lia
               | rewrite Hcall in H; simplify_eq ]
             | simpl in H; simplify_eq ]
         end.
    all: right; split; [done|]; eauto.
  - left.
    unfold call_step, task_system_push, task_system_done, reset,
      wait_to_completion, try_push, push, set_done in *.
    destruct op, fr; crush_step; simpl; try done.
    all: by repeat case_match.
Qed.

Lemma reachable_thrown (n : N) (acts : list action) :
  Forall (λ e, e = logic_error "bad task access") (thrown (history acts (init n))).
Proof.
  cut (owned_ok (final acts (init n))
       ∧ Forall (λ e, e = logic_error "bad task access")
           (thrown (history acts (init n)))); [by intros []|].
  cut (join_ok (final acts (init n)) ∧ holders_ok (final acts (init n))
       ∧ owned_ok (final acts (init n))
       ∧ Forall (λ e, e = logic_error "bad task access")
           (thrown (history acts (init n)))); [by intros (_ & _ & ? & ?)|].
  apply (exec_ind (λ w tr, join_ok w ∧ holders_ok w ∧ owned_ok w
           ∧ Forall (λ e, e = logic_error "bad task access") (thrown tr))).
  - split_and!; [apply init_join_ok|by intros c op fr [=]|apply init_owned_ok
                |by constructor].
  - intros w tr a w' evs (Hj & Hh & Ho & Ht) Hs.
    split_and!; [by eapply step_join_ok|by eapply step_holders_ok
                |by eapply step_owned_ok|].
    unfold thrown in *. rewrite flat_map_app. apply Forall_app. split; [done|].
    destruct (step_thrown _ _ _ _ Ho Hs) as [[He _]|[He _]];
      unfold thrown in He; rewrite He; by repeat constructor.
Qed.

(** X5. The tasks that reach the pool being empty or fresh from
    [make_task]: no job is run twice; every job that ran has left the result
    of its callable in its shared state; and the only exception that ever
    leaves [run] is the [std::logic_error] of an empty task: in particular
    the pool never calls a packaged task a second time. *)
Theorem jobs_run_at_most_once (n : N) (acts : list action) :
  NoDup (executed (history acts (init n)))
  ∧ (∀ t, t ∈ executed (history acts (init n)) →
       ∃ a m, t = Some a ∧ store (final acts (init n)) !! a = Some m
              ∧ await (store (final acts (init n))) a
                = Some (Completed (callable (_f m) (_args m))))
  ∧ ∀ ag e, (ag, EvThrow e) ∈ history acts (init n) →
            e = logic_error "bad task access".
Proof.
  destruct (reachable_ran_ok n acts) as [Hnd Hran]. split_and!; [done| |].
  - intros t Ht. destruct (Hran _ Ht) as (a & m & -> & Hm & Hst).
    exists a, m. split_and!; [done..|]. unfold await. by rewrite Hm.
  - intros ag e Hin.
    pose proof (reachable_thrown n acts) as Hall. rewrite Forall_forall in Hall.
    apply Hall. unfold thrown. apply list_elem_of_In, in_flat_map.
    exists (ag, EvThrow e). split; [by apply list_elem_of_In|]. simpl. by left.
Qed.

(** *** The empty task *)

Lemma step_empty_ok (a : action) (w w' : world) (evs : trace) :
  join_ok w → owned_ok w → empty_ok w → step a w = Some (w', evs) → empty_ok w'.
Proof.
  intros [_ Hjoin] Hown Hok Hs Hno. unfold empty_ok in *.
  destruct (Hok (step_ops_incl _ _ _ _ _ Hs Hno)) as [Hab0 Hnone].
  pose proof (step_ops_incl _ _ _ _ _ Hs Hno) as Hno'. clear Hok.
  unfold owned_ok, owners in *. step_cases Hs.
  - split; [done|]. rewrite <- Hnone. simpl. rewrite sum_list_with_app. simpl.
    replace (frame_task (first_frame op)) with (@nil task) by by destruct op.
    simpl. lia.
  - pose proof (λ t, sum_list_with_lookup
       (λ th, sum_list_with (task_count t) (holding th)) _ _ _ Hth) as Hheld.
    unfold run, run_call, try_pop, pop in *.
    destruct th; try done; crush_step.
    all: try match goal with
         | H : task_call ?t _ = Some _ |- _ =>
             let a0 := fresh "a0" in
             destruct t as [a0|];
             [ let a := fresh "a" in let m := fresh "m" in
               destruct (due_task_call (Some a0) (store w))
                 as (a & m & ? & Hm & Hst & Hcall);
               [ rewrite <- Hown; specialize (Hheld (Some a0));
                 simpl in Hheld; rewrite task_count_same in Hheld; lia
               | rewrite Hcall in H; simplify_eq ]
             | exfalso; specialize (Hheld None); simpl in Hheld;
               rewrite ?task_count_same in Hheld; lia ]
         end.
    all: split; [done|]; simpl;
         own_facts; repeat case_match; simpl in *; lia.
  - pose proof (ops_lookup _ _ _ _ Hc) as Hin.
    unfold call_step, task_system_push, task_system_done, reset,
      wait_to_completion, make_task, try_push, push, set_done in *.
    destruct op as [f x|[[f x]|]| | |]; try done; destruct fr; crush_step.
    all: try (split; [done|]; simpl;
              own_facts; repeat case_match; simpl in *;
              unfold task_count in *; repeat case_decide; simplify_eq; lia).
    split; [done|]. simpl.
    pose proof (others_quiet_holds _ _ _ None E Hc) as Hq. simpl in Hq.
    pose proof (sum_list_with_insert
      (λ c : api * frame, sum_list_with (task_count None) (frame_task c.2))
      _ _ _ (Reset, Returned None) Hc) as Hins. simpl in Hins.
    rewrite !sum_list_with_replicate. simpl. lia.
Qed.

Lemma reachable_empty_ok (n : N) (acts : list action) :
  empty_ok (final acts (init n)).
Proof.
  cut (join_ok (final acts (init n)) ∧ holders_ok (final acts (init n))
       ∧ owned_ok (final acts (init n)) ∧ empty_ok (final acts (init n)));
    [by intros (_ & _ & _ & ?)|].
  apply (exec_ind (λ w _, join_ok w ∧ holders_ok w ∧ owned_ok w ∧ empty_ok w)).
  - split_and!; [apply init_join_ok|by intros c op fr [=]|apply init_owned_ok|].
    intros _. split; [done|]. unfold owners. simpl.
    rewrite !sum_list_with_replicate. simpl. by rewrite !Nat.mul_0_r.
  - intros w tr a w' evs (Hj & Hh & Ho & He) Hs.
    split_and!; [by eapply step_join_ok|by eapply step_holders_ok
                |by eapply step_owned_ok|by eapply step_empty_ok].
Qed.

Lemma empty_submission_dec (l : list api) :
  PushTask None ∈ l ∨ PushTask None ∉ l.
Proof.
  induction l as [|op l [IH|IH]].
  - right. by intros H%elem_of_nil.
  - left. by right.
  - destruct op as [f x|[mk|]| | |];
      try (right; intros [H|H]%elem_of_cons; [discriminate|done]).
    left. by left.
Qed.

(** X6. The tasks handed to [push (task &&)] being empty or fresh from
    [make_task]: an exception leaves [run] (and ends the process) only if an
    empty one was; as long as none was, every task in every queue is
    non-empty. *)
Theorem only_an_empty_task_ends_the_process (n : N) (acts : list action) :
  (aborted (final acts (init n)) = true → PushTask None ∈ ops (final acts (init n)))
  ∧ (PushTask None ∉ ops (final acts (init n)) →
     ∀ q tq, queues_ (pool (final acts (init n))) !! q = Some tq →
       Forall (λ t, task_bool t = true) (tasks_ tq)).
Proof.
  pose proof (reachable_empty_ok n acts) as Hok. split.
  - intros Hab. destruct (empty_submission_dec (ops (final acts (init n))))
      as [|Hno]; [done|].
    destruct (Hok Hno) as [Hab' _]. congruence.
  - intros Hno q tq Hq. destruct (Hok Hno) as [_ Hnone].
    unfold owners in Hnone. apply Forall_forall. intros [a|] Hin; [done|].
    exfalso.
    pose proof (sum_list_with_lookup
      (λ q0, sum_list_with (task_count None) (tasks_ q0)) _ _ _ Hq) as Hle.
    simpl in Hle. apply list_elem_of_lookup in Hin as [i Hi].
    pose proof (sum_list_with_lookup (task_count None) _ _ _ Hi) as Hle'.
    rewrite task_count_same in Hle'. lia.
Qed.

(** *** What [reset] discards *)

Lemma drops_abandon (a : nat) (ts : list task) (hp : heap) (m : task_model) :
  Some a ∈ ts → hp !! a = Some m → shared_state (_f m) = None →
  await (foldl task_drop hp ts) a = Some BrokenPromise.
Proof.
  revert hp m. induction ts as [|t ts IH]; intros hp m Hin Hm Hs.
  { by apply elem_of_nil in Hin. }
  cbn [foldl]. destruct (decide (t = Some a)) as [->|Hne].
  - unfold task_drop at 2. rewrite Hm, Hs.
    destruct (store_extends_drops ts (<[a := settle BrokenPromise m]> hp) a
                (settle BrokenPromise m)) as (m' & Hm' & _ & _ & Hk).
    { apply list_lookup_insert_eq. by eapply lookup_lt_Some. }
    unfold await. rewrite Hm'. simpl. by apply Hk.
  - apply elem_of_cons in Hin as [Heq|Hin]; [congruence|].
    destruct t as [a'|]; [|by eapply IH].
    unfold task_drop. destruct (hp !! a') as [m'|] eqn:Hm'; [|by eapply IH].
    destruct (shared_state (_f m')); [by eapply IH|].
    eapply IH; [done| |done]. rewrite list_lookup_insert_ne; [done|congruence].
Qed.

Lemma queued_in_concat (qs : list task_queue) (q : nat) (tq : task_queue) (t : task) :
  qs !! q = Some tq → t ∈ tasks_ tq → t ∈ concat (tasks_ <$> qs).
Proof.
  revert q. induction qs as [|q0 qs IH]; intros [|q] Hq Hin; simplify_eq/=;
    apply elem_of_app; [by left|right; eauto].
Qed.

(** X17. The tasks that reach the pool being fresh from [make_task] (or
    empty): a job that is still in a queue when [reset] clears the queues
    has never been run; [reset] makes its future yield the abandoned-job
    failure, and nothing that happens afterwards changes that. *)
Theorem reset_abandons_queued_jobs (n : N) (acts : list action) (c : nat)
    (b : bool) (w' : world) (evs : trace) (q : nat) (tq : task_queue) (a : nat) :
  calls (final acts (init n)) !! c = Some (Reset, Rebuild) →
  step (Advance c b) (final acts (init n)) = Some (w', evs) →
  queues_ (pool (final acts (init n))) !! q = Some tq → Some a ∈ tasks_ tq →
  await (store (final acts (init n))) a = None
  ∧ await (store w') a = Some BrokenPromise
  ∧ ∀ acts', await (store (final acts' w')) a = Some BrokenPromise.
Proof.
  intros Hc Hs Hq Hin.
  pose proof (reachable_owned_ok n acts a) as Hown.
  set (w := final acts (init n)) in *.
  assert (∃ m, store w !! a = Some m ∧ shared_state (_f m) = None) as (m & Hm & Hst).
  { assert (1 ≤ owners (Some a) w) as Hge.
    { unfold owners.
      pose proof (sum_list_with_lookup
        (λ q0, sum_list_with (task_count (Some a)) (tasks_ q0)) _ _ _ Hq) as Hle.
      simpl in Hle. apply list_elem_of_lookup in Hin as [i Hi].
      pose proof (sum_list_with_lookup (task_count (Some a)) _ _ _ Hi) as Hle'.
      rewrite task_count_same in Hle'. lia. }
    rewrite Hown in Hge. unfold due in Hge.
    destruct (store w !! a) as [m|]; [|lia]. exists m. split; [done|].
    destruct (shared_state (_f m)); [lia|done]. }
  assert (await (store w') a = Some BrokenPromise) as Hw'.
  { unfold step in Hs. destruct (aborted w); [done|]. rewrite Hc in Hs.
    simpl in Hs. destruct (others_quiet c (calls w)); [|done].
    injection Hs as <- <-. simpl. eapply drops_abandon; [|done..].
    by eapply queued_in_concat. }
  split_and!; [unfold await; by rewrite Hm|done|].
  intros acts'. unfold await in *. apply bind_Some in Hw' as (m1 & Hm1 & Hs1).
  destruct (final_store_extends acts' w' _ _ Hm1) as (m2 & Hm2 & _ & _ & Hk).
  rewrite Hm2. simpl. by apply Hk.
Qed.

(** *** What [wait_to_completion] guarantees *)

Lemma run_holding (id : nat) (b : bool) (th th' : thread) (w w1 : world)
    (evs : list event) :
  run id b th w = Some (w1, th', evs) →
  threads_ (pool w1) = threads_ (pool w)
  ∧ (∀ t, t ∈ holding th →
       t ∈ holding th' ∨ t ∈ executed (pair (Worker id) <$> evs)
       ∨ aborted w1 = true)
  ∧ (∀ q t, t ∈ popped_from q (pair (Worker id) <$> evs) → t ∈ holding th')
  ∧ (aborted w1 = false → aborted w = false).
Proof.
  intros Hrun. unfold run, run_call, try_pop, pop in *.
  destruct th; crush_step; simpl.
  all: split_and!; try done.
  all: try (by intros t0 Ht0%elem_of_nil).
  all: try (by intros q0 t0 Ht0%elem_of_nil).
  all: intros; repeat case_bool_decide; rewrite ?app_nil_r in *;
       try (match goal with H : _ ∈ [] |- _ => by apply elem_of_nil in H end);
       eauto.
Qed.

Lemma call_step_holding (c : nat) (b : bool) (op : api) (fr fr' : frame)
    (w w1 : world) (evs : list event) :
  join_ok w → calls w !! c = Some (op, fr) →
  call_step c b op fr w = Some (w1, fr', evs) →
  aborted w1 = aborted w
  ∧ (∀ q, popped_from q (pair (Caller c) <$> evs) = [])
  ∧ executed (pair (Caller c) <$> evs) = []
  ∧ ∀ id th t, threads_ (pool w) !! id = Some th → t ∈ holding th →
      threads_ (pool w1) !! id = Some th.
Proof.
  intros [_ Hjoin] Hc Hcs. specialize (Hjoin _ _ _ Hc).
  unfold call_step, task_system_push, task_system_done, reset,
    wait_to_completion, try_push, push, set_done in *.
  destruct op, fr; crush_step; simpl; split_and!; try done.
  all: try (by repeat case_match).
  intros id th t Hth Hin. simpl in Hjoin. rewrite (Hjoin _ _ Hth) in Hin.
  by apply elem_of_nil in Hin.
Qed.

Lemma popped_from_app (q : nat) (tr1 tr2 : trace) :
  popped_from q (tr1 ++ tr2) = popped_from q tr1 ++ popped_from q tr2.
Proof. apply flat_map_app. Qed.

Lemma executed_app (tr1 tr2 : trace) :
  executed (tr1 ++ tr2) = executed tr1 ++ executed tr2.
Proof. apply flat_map_app. Qed.

Lemma step_popped_ok (a : action) (w w' : world) (tr evs : trace) :
  join_ok w → popped_ok w tr → step a w = Some (w', evs) →
  popped_ok w' (tr ++ evs).
Proof.
  intros Hj Hok Hs q t. rewrite popped_from_app, executed_app.
  rewrite !elem_of_app. step_cases Hs.
  - simpl. intros [Hin|Hin]; [|by apply elem_of_nil in Hin].
    destruct (Hok _ _ Hin) as [?|[?|?]]; eauto.
  - destruct (run_holding _ _ _ _ _ _ _ Hrun) as (Hths & Hkeep & Hnew & Hab').
    simpl. rewrite Hths. intros [Hin|Hin].
    + destruct (Hok _ _ Hin) as [?|[?|(id0 & th0 & Hth0 & Hh)]];
        [eauto|congruence|].
      destruct (decide (id = id0)) as [->|Hne].
      * assert (th0 = th) as -> by congruence.
        destruct (Hkeep _ Hh) as [?|[?|?]]; [|eauto..].
        right. right. exists id0, th'. split; [|done].
        apply list_lookup_insert_eq. by eapply lookup_lt_Some.
      * right. right. exists id0, th0. split; [|done].
        by rewrite list_lookup_insert_ne.
    + right. right. exists id, th'. split; [|by eapply Hnew].
      apply list_lookup_insert_eq. by eapply lookup_lt_Some.
  - destruct (call_step_holding _ _ _ _ _ _ _ _ Hj Hc Hcs)
      as (Hab' & Hnone & Hex & Hths).
    simpl. rewrite Hnone, Hex. intros [Hin|Hin]; [|by apply elem_of_nil in Hin].
    destruct (Hok _ _ Hin) as [?|[?|(id0 & th0 & Hth0 & Hh)]];
      [eauto|congruence|].
    right. right. exists id0, th0. eauto.
Qed.

Lemma reachable_popped_ok (n : N) (acts : list action) :
  popped_ok (final acts (init n)) (history acts (init n)).
Proof.
  cut (join_ok (final acts (init n))
       ∧ popped_ok (final acts (init n)) (history acts (init n)));
    [by intros []|].
  apply (exec_ind (λ w tr, join_ok w ∧ popped_ok w tr)).
  - split; [apply init_join_ok|]. by intros q t Hin%elem_of_nil.
  - intros w tr a w' evs [Hj Hp] Hs.
    split; [by eapply step_join_ok|by eapply step_popped_ok].
Qed.

Lemma pushed_to_app (q : nat) (tr1 tr2 : trace) :
  pushed_to q (tr1 ++ tr2) = pushed_to q tr1 ++ pushed_to q tr2.
Proof. apply flat_map_app. Qed.

Lemma submitted_frame_ok_app (n : N) (tr evs : trace) (fr : frame) (h : future) :
  submitted_frame_ok n tr fr h → submitted_frame_ok n (tr ++ evs) fr h.
Proof.
  destruct fr; simpl; try done. intros (q & Hq & Hin). exists q.
  split; [done|]. rewrite pushed_to_app. apply elem_of_app. by left.
Qed.

Lemma step_submitted_ok (n : N) (a : action) (w w' : world) (tr evs : trace) :
  shaped n w → submitted_ok n w tr → step a w = Some (w', evs) →
  submitted_ok n w' (tr ++ evs).
Proof.
  intros Hsh Hok Hs c0 f0 x0 fr0 h0.
  assert (∀ fr, calls w !! c0 = Some (Push f0 x0, fr) →
                frame_future fr = Some h0 →
                submitted_frame_ok n (tr ++ evs) fr h0) as Hold.
  { intros fr Hc Hfut. apply submitted_frame_ok_app. eauto. }
  step_cases Hs.
  - simpl. intros [Hc|[_ Hc]]%lookup_app_Some; [by eapply Hold|].
    apply list_lookup_singleton_Some in Hc as [_ [= -> <-]]. done.
  - simpl. rewrite (run_calls _ _ _ _ _ _ _ Hrun). apply Hold.
  - simpl. rewrite (call_step_calls _ _ _ _ _ _ _ _ Hcs).
    destruct (decide (c = c0)) as [->|Hne].
    2:{ rewrite list_lookup_insert_ne by done. apply Hold. }
    rewrite list_lookup_insert_eq by by eapply lookup_lt_Some.
    intros [= -> <-] Hfut. specialize (Hok _ _ _ _ h0 Hc). clear Hold.
    destruct Hsh as [Hn Hlq _ _].
    unfold call_step, task_system_push, make_task, try_push, push, size_rem in Hcs.
    destruct fr; crush_step; simpl in *; try done.
    all: try (by apply Hok).
    all: try (by repeat case_match; simpl in *; apply Hok).
    all: try (specialize (Hok eq_refl); simplify_eq).
    all: eexists; (split; [rewrite <- Hlq; by eapply lookup_lt_Some|]);
         rewrite pushed_to_app; apply elem_of_app; right; simpl;
         rewrite bool_decide_true by done; by left.
Qed.

Lemma reachable_submitted_ok (n : N) (acts : list action) :
  submitted_ok n (final acts (init n)) (history acts (init n)).
Proof.
  cut (shaped n (final acts (init n))
       ∧ submitted_ok n (final acts (init n)) (history acts (init n)));
    [by intros []|].
  apply (exec_ind (λ w tr, shaped n w ∧ submitted_ok n w tr)).
  - split; [apply init_shaped|]. by intros c f x fr h [=].
  - intros w tr a w' evs [Hsh Hp] Hs.
    split; [by eapply step_shaped|by eapply step_submitted_ok].
Qed.

Lemma history_app (acts1 acts2 : list action) (w : world) :
  ∃ tr, history (acts1 ++ acts2) w = history acts1 w ++ tr.
Proof.
  induction acts2 as [|a acts2 IH] using rev_ind.
  - exists []. by rewrite !app_nil_r.
  - destruct IH as [tr IH]. unfold history in *.
    rewrite app_assoc, exec_snoc. unfold apply_action.
    destruct (step a _) as [[w' evs]|]; simpl.
    + exists (tr ++ evs). by rewrite IH, app_assoc.
    + by exists tr.
Qed.

Lemma ops_prefix (acts1 acts2 : list action) (w : world) (op : api) :
  op ∉ ops (final (acts1 ++ acts2) w) → op ∉ ops (final acts1 w).
Proof.
  induction acts2 as [|a acts2 IH] using rev_ind.
  - by rewrite app_nil_r.
  - intros Hno. apply IH. unfold final in *.
    rewrite app_assoc, exec_snoc in Hno. unfold apply_action in Hno.
    destruct (step a _) as [[w' evs]|] eqn:Hs; simpl in Hno; [|done].
    by eapply step_ops_incl.
Qed.

(** Once [wait_to_completion] has returned on a pool never [reset], every
    worker has returned. *)
Lemma waited_all_terminated (n : N) (acts : list action) (c : nat) (r : option future) :
  calls (final acts (init n)) !! c = Some (WaitToCompletion, Returned r) →
  Reset ∉ ops (final acts (init n)) →
  ∀ id th, threads_ (pool (final acts (init n))) !! id = Some th →
    th = Terminated.
Proof.
  intros Hc Hr id th Hth.
  pose proof (reachable_wait_ok n acts c _ Hc) as [_ Hall]. simpl in Hall.
  pose proof (reachable_shaped n acts) as [_ _ Hlt Hle].
  assert (exited_ (pool (final acts (init n))) !! id = Some true) as Hex.
  { apply Hall. apply lookup_lt_Some in Hth. lia. }
  pose proof (reachable_exited_ok n acts Hr _ Hex). congruence.
Qed.

Lemma accepted_before_zero_has_run (n : N) (acts1 acts2 : list action) (c c' : nat)
    (f : A → result) (x : A) (h : future) (r : option future) :
  (N.of_nat (length acts1) < size_modulus)%N →
  queued_ (pool (final acts1 (init n))) = 0%N →
  calls (final acts1 (init n)) !! c' = Some (Push f x, Returned (Some h)) →
  calls (final (acts1 ++ acts2) (init n)) !! c
    = Some (WaitToCompletion, Returned r) →
  Reset ∉ ops (final (acts1 ++ acts2) (init n)) →
  aborted (final (acts1 ++ acts2) (init n)) = false →
  await (store (final (acts1 ++ acts2) (init n))) h = Some (Completed (f x)).
Proof.
  intros Hlen Hzero Hc' Hc Hr Hab.
  pose proof (ops_prefix _ _ _ _ Hr) as Hr1.
  destruct (reachable_submitted_ok n acts1 _ _ _ _ h Hc' eq_refl)
    as (q & Hq & Hpushed).
  pose proof (reachable_shaped n acts1) as [_ Hlq _ _].
  destruct (lookup_lt_is_Some_2 (queues_ (pool (final acts1 (init n)))) q)
    as [tq Htq]; [lia|].
  assert (tasks_ tq = []) as Hempty.
  { pose proof (reachable_counter_ok n acts1) as Hcnt.
    pose proof (reachable_work_bound n acts1) as Hb.
    unfold counter_ok in Hcnt. rewrite Hzero in Hcnt.
    rewrite N.mod_small in Hcnt by lia.
    pose proof (sum_list_with_lookup (λ q0, length (tasks_ q0)) _ _ _ Htq) as Hle.
    unfold jobs_queued in Hcnt. simpl in Hle.
    destruct (tasks_ tq); [done|simpl in Hle; lia]. }
  pose proof (reachable_fifo_ok n acts1 q tq Htq) as Hfifo.
  rewrite Hempty, app_nil_r in Hfifo.
  destruct (reachable_no_clear n acts1 Hr1) as [_ Hnc].
  rewrite Hfifo, Hnc in Hpushed.
  destruct (history_app acts1 acts2 (init n)) as [tr2 Htr].
  assert (Some h ∈ popped_from q (history (acts1 ++ acts2) (init n))) as Hpop.
  { rewrite Htr, popped_from_app. apply elem_of_app. by left. }
  destruct (reachable_popped_ok n (acts1 ++ acts2) _ _ Hpop)
    as [Hex|[?|(id & th & Hth & Hh)]]; [|congruence|].
  2:{ rewrite (waited_all_terminated n _ _ _ Hc Hr _ _ Hth) in Hh.
      by apply elem_of_nil in Hh. }
  destruct (reachable_ran_ok n (acts1 ++ acts2)) as [_ Hran].
  destruct (Hran _ Hex) as (a & m & [= <-] & Hm & Hst).
  destruct (reachable_handle_ok n acts1 _ _ _ _ h Hc' eq_refl)
    as (m1 & Hm1 & <- & <-).
  destruct (final_store_extends acts2 (final acts1 (init n)) _ _ Hm1)
    as (m2 & Hm2 & Hc2 & Ha2 & _).
  rewrite <- final_app in Hm2. assert (m2 = m) as -> by congruence.
  unfold await. rewrite Hm. simpl. by rewrite Hst, Hc2, Ha2.
Qed.

(** X15. If the counter is zero at some moment, and [wait_to_completion]
    has returned at a later one, on a pool that was never [reset] and whose
    process is alive, then every [push (f, x)] that had returned by the
    first moment has its future ready with [f (x)]. *)
Theorem drain_guarantee (n : N) (acts1 acts2 : list action) (c c' : nat)
    (f : A → result) (x : A) (h : future) (r : option future) :
  (N.of_nat (length acts1) < size_modulus)%N →
  queued_ (pool (final acts1 (init n))) = 0%N →
  calls (final acts1 (init n)) !! c' = Some (Push f x, Returned (Some h)) →
  calls (final (acts1 ++ acts2) (init n)) !! c
    = Some (WaitToCompletion, Returned r) →
  Reset ∉ ops (final (acts1 ++ acts2) (init n)) →
  aborted (final (acts1 ++ acts2) (init n)) = false →
  await (store (final (acts1 ++ acts2) (init n))) h = Some (Completed (f x)).
Proof. apply accepted_before_zero_has_run. Qed.

(** *** A client that makes its calls one after the other *)

Lemma serial_app (acts1 acts2 : list action) (w : world) :
  serial w (acts1 ++ acts2) = serial w acts1 && serial (final acts1 w) acts2.
Proof.
  revert w. induction acts1 as [|a acts1 IH]; intros w; [done|].
  rewrite <- app_comm_cons. cbn [serial]. rewrite IH, (final_cons' a acts1).
  by rewrite andb_assoc.
Qed.

Lemma step_returned (a : action) (w w' : world) (evs : trace) (c : nat)
    (op : api) (r : option future) :
  step a w = Some (w', evs) → calls w !! c = Some (op, Returned r) →
  calls w' !! c = Some (op, Returned r).
Proof.
  intros Hs Hc. step_cases Hs.
  - simpl. by apply lookup_app_l_Some.
  - simpl. by rewrite (run_calls _ _ _ _ _ _ _ Hrun).
  - simpl. rewrite (call_step_calls _ _ _ _ _ _ _ _ Hcs).
    destruct (decide (c0 = c)) as [->|Hne].
    + exfalso. rewrite Hc in Hc0. injection Hc0 as <- <-.
      unfold call_step, task_system_push, task_system_done, reset,
        wait_to_completion in Hcs. by destruct op.
    + by rewrite list_lookup_insert_ne.
Qed.

Lemma final_returned (acts : list action) (w : world) (c : nat) (op : api)
    (r : option future) :
  calls w !! c = Some (op, Returned r) →
  calls (final acts w) !! c = Some (op, Returned r).
Proof.
  induction acts as [|a acts IH] using rev_ind; [done|]. intros Hc.
  unfold final in *. rewrite exec_snoc. unfold apply_action.
  destruct (step a _) as [[w' evs]|] eqn:Hs; simpl; [|by apply IH].
  eapply step_returned; [done|]. by apply IH.
Qed.

Lemma step_calls_length (a : action) (w w' : world) (evs : trace) :
  step a w = Some (w', evs) →
  length (calls w') = length (calls w) + (if is_begin a then 1 else 0).
Proof.
  intros Hs. pose proof (step_ops _ _ _ _ Hs) as Hops. unfold ops in Hops.
  apply (f_equal length) in Hops. rewrite length_app, !length_fmap in Hops.
  rewrite Hops. by destruct a.
Qed.

(** In a serial schedule every call but the last has returned. *)
Lemma serial_earlier_returned (acts : list action) (w0 : world) :
  calls w0 = [] → serial w0 acts = true →
  ∀ c, S c < length (calls (final acts w0)) →
    ∃ op r, calls (final acts w0) !! c = Some (op, Returned r).
Proof.
  intros H0. induction acts as [|a acts IH] using rev_ind.
  { intros _ c. unfold final, exec. simpl. rewrite H0. simpl. lia. }
  rewrite serial_app. intros [Hs1 Hs2]%andb_prop. specialize (IH Hs1).
  simpl in Hs2. rewrite andb_true_r in Hs2.
  intros c. unfold final in *. rewrite exec_snoc. unfold apply_action.
  destruct (step a _) as [[w' evs]|] eqn:Hs; simpl; [|apply IH].
  pose proof (step_calls_length _ _ _ _ Hs) as Hlen. intros Hc.
  destruct a as [op|id b|c1 b]; simpl in Hlen.
  - rewrite forallb_forall in Hs2.
    destruct (lookup_lt_is_Some_2 (calls (exec acts w0).1) c) as [[op0 fr0] Hc0];
      [lia|].
    assert (returned (op0, fr0) = true) as Hret.
    { apply Hs2. apply list_elem_of_In, list_elem_of_lookup. eauto. }
    destruct fr0; try done. exists op0, r.
    by eapply step_returned.
  - destruct (IH c) as (op0 & r & Hc0); [lia|]. exists op0, r.
    by eapply step_returned.
  - destruct (IH c) as (op0 & r & Hc0); [lia|]. exists op0, r.
    by eapply step_returned.
Qed.

Lemma wait_read_zero (acts : list action) (w0 : world) (c : nat) (fr : frame) :
  calls w0 = [] →
  calls (final acts w0) !! c = Some (WaitToCompletion, fr) → leaving fr = true →
  ∃ acts1 acts2, acts = acts1 ++ acts2
    ∧ queued_ (pool (final acts1 w0)) = 0%N
    ∧ c < length (calls (final acts1 w0)).
Proof.
  intros H0. revert fr. induction acts as [|a acts IH] using rev_ind.
  { intros fr. unfold final, exec. simpl. by rewrite H0. }
  intros fr. unfold final in *. rewrite exec_snoc. unfold apply_action.
  destruct (step a _) as [[w' evs]|] eqn:Hs; simpl.
  2:{ intros Hc Hl. destruct (IH _ Hc Hl) as (acts1 & acts2 & -> & Hz & Hlt).
      exists acts1, (acts2 ++ [a]). by rewrite app_assoc. }
  intros Hc Hl.
  assert ((∃ fr0, calls (exec acts w0).1 !! c = Some (WaitToCompletion, fr0)
                  ∧ leaving fr0 = true)
          ∨ (queued_ (pool w') = 0%N ∧ c < length (calls w'))) as [Hold|Hnew].
  { pose proof Hs as Hs'. step_cases Hs.
    - simpl in Hc. apply lookup_app_Some in Hc as [Hc|[_ Hc]]; [eauto|].
      apply list_lookup_singleton_Some in Hc as [_ [= -> <-]]. done.
    - simpl in Hc. rewrite (run_calls _ _ _ _ _ _ _ Hrun) in Hc. eauto.
    - simpl in Hc. rewrite (call_step_calls _ _ _ _ _ _ _ _ Hcs) in Hc.
      destruct (decide (c0 = c)) as [->|Hne].
      2:{ rewrite list_lookup_insert_ne in Hc by done. eauto. }
      rewrite list_lookup_insert_eq in Hc by by eapply lookup_lt_Some.
      injection Hc as -> ->.
      unfold call_step, wait_to_completion in Hcs.
      destruct fr0; crush_step; simpl in *; try done.
      + right. split; [by apply N.eqb_eq|].
        rewrite length_insert. by eapply lookup_lt_Some.
      + left. eexists. split; [done|]. simpl. by destruct should_exit.
      + left. eexists. by split. }
  - destruct Hold as (fr0 & Hc0 & Hl0).
    destruct (IH _ Hc0 Hl0) as (acts1 & acts2 & -> & Hz & Hlt).
    exists acts1, (acts2 ++ [a]). by rewrite app_assoc.
  - exists (acts ++ [a]), []. rewrite app_nil_r. split; [done|].
    rewrite exec_snoc. unfold apply_action. rewrite Hs. done.
Qed.

Lemma step_future_ok (a : action) (w w' : world) (evs : trace) :
  future_ok w → step a w = Some (w', evs) → future_ok w'.
Proof.
  intros Hok Hs c0 f0 x0 fr0. step_cases Hs.
  - simpl. intros [Hc|[_ Hc]]%lookup_app_Some; [by eapply Hok|].
    by apply list_lookup_singleton_Some in Hc as [_ [= -> <-]].
  - simpl. rewrite (run_calls _ _ _ _ _ _ _ Hrun). apply Hok.
  - simpl. rewrite (call_step_calls _ _ _ _ _ _ _ _ Hcs).
    destruct (decide (c = c0)) as [->|Hne].
    2:{ rewrite list_lookup_insert_ne by done. apply Hok. }
    rewrite list_lookup_insert_eq by by eapply lookup_lt_Some.
    intros [= -> <-]. specialize (Hok _ _ _ _ Hc).
    unfold call_step, task_system_push, make_task in Hcs.
    destruct fr; crush_step; simpl in *; try done;
      try (by repeat case_match).
    + by destruct (k <? size_mul 10 (nthreads_ (pool w)))%N.
    + by destruct p0.1.
Qed.

Lemma reachable_future_ok (n : N) (acts : list action) :
  future_ok (final acts (init n)).
Proof.
  apply (exec_ind (λ w _, future_ok w)); [by intros c f x fr [=]|].
  intros w tr a w' evs Hw Hs. by eapply step_future_ok.
Qed.

(** X16. The protocol of [perform_search]: a client that, from a single
    thread, submits [find_matches] for every file, then calls [done] and
    [wait_to_completion], finds every future ready with the result of
    [find_matches] on its file once [wait_to_completion] has returned. *)
Theorem perform_search_results_ready (n : N) (acts : list action)
    (find_matches : A → result) (files : list A) :
  (N.of_nat (length acts) < size_modulus)%N →
  serial (init n) acts = true →
  ops (final acts (init n)) = perform_search find_matches files →
  calls (final acts (init n)) !! S (length files)
    = Some (WaitToCompletion, Returned None) →
  ∀ i x, files !! i = Some x →
    ∃ h, calls (final acts (init n)) !! i
         = Some (Push find_matches x, Returned (Some h))
         ∧ await (store (final acts (init n))) h
           = Some (Completed (find_matches x)).
Proof.
  intros Hlen Hser Hops Hc i x Hi.
  assert (Reset ∉ ops (final acts (init n))) as Hr.
  { rewrite Hops. unfold perform_search. intros [Hin|Hin]%elem_of_app.
    - by apply list_elem_of_fmap in Hin as (? & [=] & _).
    - repeat (apply elem_of_cons in Hin as [Hin|Hin]; [discriminate|]).
      by apply elem_of_nil in Hin. }
  assert (aborted (final acts (init n)) = false) as Hab.
  { apply (reachable_empty_ok n acts). rewrite Hops. unfold perform_search.
    intros [Hin|Hin]%elem_of_app.
    - by apply list_elem_of_fmap in Hin as (? & [=] & _).
    - repeat (apply elem_of_cons in Hin as [Hin|Hin]; [discriminate|]).
      by apply elem_of_nil in Hin. }
  destruct (wait_read_zero acts (init n) _ _ eq_refl Hc eq_refl)
    as (acts1 & acts2 & -> & Hz & Hlt).
  rewrite serial_app in Hser. apply andb_prop in Hser as [Hser1 _].
  assert (i < length files) as Hil by by eapply lookup_lt_Some.
  destruct (serial_earlier_returned acts1 (init n) eq_refl Hser1 i)
    as (op & r & Hci); [lia|].
  pose proof (final_returned acts2 _ _ _ _ Hci) as Hci2.
  rewrite <- final_app in Hci2.
  assert (op = Push find_matches x) as ->.
  { pose proof (f_equal (λ l, l !! i) Hops) as Hopi. simpl in Hopi.
    unfold ops, perform_search in Hopi.
    rewrite list_lookup_fmap, Hci2, lookup_app_l in Hopi
      by (by rewrite length_fmap).
    rewrite list_lookup_fmap, Hi in Hopi. simpl in Hopi. congruence. }
  destruct (reachable_future_ok n acts1 _ _ _ _ Hci) as [h Hh].
  simpl in Hh. subst r. exists h. split; [done|].
  eapply accepted_before_zero_has_run; try done.
  rewrite length_app in Hlen. lia.
Qed.

(** *** Where a thread can wait *)

Lemma step_framed_ok (a : action) (w w' : world) (evs : trace) :
  framed_ok w → step a w = Some (w', evs) → framed_ok w'.
Proof.
  intros Hok Hs c0 op0 fr0. step_cases Hs.
  - simpl. intros [Hc|[_ Hc]]%lookup_app_Some; [by eapply Hok|].
    apply list_lookup_singleton_Some in Hc as [_ [= -> <-]]. by destruct op0.
  - simpl. rewrite (run_calls _ _ _ _ _ _ _ Hrun). apply Hok.
  - simpl. rewrite (call_step_calls _ _ _ _ _ _ _ _ Hcs).
    destruct (decide (c = c0)) as [->|Hne].
    2:{ rewrite list_lookup_insert_ne by done. apply Hok. }
    rewrite list_lookup_insert_eq by by eapply lookup_lt_Some.
    intros [= -> <-].
    unfold call_step, task_system_push, task_system_done, reset,
      wait_to_completion in Hcs.
    destruct op0, fr; crush_step; try done; by repeat case_match.
Qed.

Lemma reachable_framed_ok (n : N) (acts : list action) :
  framed_ok (final acts (init n)).
Proof.
  apply (exec_ind (λ w _, framed_ok w)); [by intros c op fr [=]|].
  intros w tr a w' evs Hw Hs. by eapply step_framed_ok.
Qed.

Lemma pop_waits (q : task_queue) :
  pop q = None ↔ tasks_ q = [] ∧ done_ q = false.
Proof.
  unfold pop. destruct q as [[|t ts] [|]]; simpl; split; try done;
    by intros [].
Qed.

(** X11. A worker that has not returned is without a next step only at the
    blocking pop of its own queue, past a full scan, that queue being empty;
    and there it is without one as long as the queue is empty and its latch
    unset.  Nothing else in [run] waits, no index is out of range and no
    task it holds is dangling.  (Nothing is said of a worker at the blocking
    pop of an empty queue whose latch is set: whether it is woken is a
    matter of the notification of [set_done].) *)
Theorem worker_waits_only_in_pop (n : N) (acts : list action) (id : nat)
    (th : thread) (b : bool) :
  aborted (final acts (init n)) = false →
  threads_ (pool (final acts (init n))) !! id = Some th →
  (step (Work id b) (final acts (init n)) = None →
   th = Terminated
   ∨ ∃ k tq, th = Scan k ∧ (size_mul 10 n ≤ k)%N
       ∧ queues_ (pool (final acts (init n))) !! id = Some tq
       ∧ tasks_ tq = [])
  ∧ (∀ k tq, th = Scan k → (size_mul 10 n ≤ k)%N →
       queues_ (pool (final acts (init n))) !! id = Some tq →
       tasks_ tq = [] → done_ tq = false →
       step (Work id b) (final acts (init n)) = None).
Proof.
  intros Hab Hth.
  pose proof (reachable_shaped n acts) as Hsh.
  pose proof (reachable_owned_ok n acts) as Hown.
  set (w := final acts (init n)) in *.
  assert (0 < n)%N as Hpos.
  { destruct Hsh as [_ _ Hlt _]. apply lookup_lt_Some in Hth. lia. }
  destruct (lookup_lt_is_Some_2 (queues_ (pool w)) id) as [tq Htq].
  { destruct Hsh as [_ -> Hlt _]. apply lookup_lt_Some in Hth. lia. }
  assert (∀ t k, (th = Call t ∨ th = DrainCall t k) →
            is_Some (task_call t (store w))) as Hcall.
  { intros [a|] k Ht; [|by eexists].
    destruct (due_task_call (Some a) (store w)) as (a' & m & _ & _ & _ & ->);
      [|by eexists].
    rewrite <- Hown. eapply owners_thread; [done|].
    destruct Ht as [-> | ->]; simpl; by left. }
  assert (nthreads_ (pool w) = n) as Hn by by destruct Hsh.
  split.
  - unfold step. rewrite Hab, Hth.
    destruct th; simpl; rewrite ?Hn; try done.
    + destruct (k <? size_mul 10 n)%N eqn:Hk.
      * destruct (slot_lookup n w (size_add (N.of_nat id) k) Hsh Hpos)
          as (tq1 & Hq1 & Htq1).
        rewrite Hn in Hq1. rewrite Hq1. simpl. rewrite Htq1. simpl.
        by destruct (try_pop b tq1) as [r tq1'].
      * apply N.ltb_ge in Hk. rewrite Htq. simpl.
        destruct (pop tq) as [[r tq1]|] eqn:Hpop; [done|].
        intros _. right. exists k, tq.
        apply pop_waits in Hpop as [? ?]. done.
    + unfold run_call. destruct (Hcall t 0%N (or_introl eq_refl)) as [r ->].
      simpl. by destruct r.
    + destruct (k <? n)%N; [|done].
      destruct (slot_lookup n w (size_add (N.of_nat id) k) Hsh Hpos)
        as (tq1 & Hq1 & Htq1).
      rewrite Hn in Hq1. rewrite Hq1. simpl. rewrite Htq1. simpl.
      by destruct (try_pop b tq1) as [r tq1'].
    + unfold run_call. destruct (Hcall t k (or_intror eq_refl)) as [r ->].
      simpl. by destruct r.
    + destruct Hsh as [_ _ Hlt Hex]. apply lookup_lt_Some in Hth.
      rewrite bool_decide_true by lia. done.
    + intros _. by left.
  - intros k tq' -> Hk Htq' Ht Hd. unfold step. rewrite Hab, Hth. simpl.
    rewrite Hn. apply N.ltb_ge in Hk. rewrite Hk, Htq'. simpl.
    assert (pop tq' = None) as -> by by apply pop_waits. done.
Qed.

(** X12. In a pool of at least one worker, a call that has not returned has
    a next step unless it is [reset] joining a worker that has not returned,
    or [reset] about to clear the vectors while another call is using them. *)
Theorem call_waits_only_in_join (n : N) (acts : list action) (c : nat)
    (op : api) (fr : frame) (b : bool) :
  (0 < n)%N →
  aborted (final acts (init n)) = false →
  calls (final acts (init n)) !! c = Some (op, fr) →
  step (Advance c b) (final acts (init n)) = None
  ↔ (∃ r, fr = Returned r)
    ∨ (∃ j th, fr = Join j
         ∧ threads_ (pool (final acts (init n))) !! j = Some th
         ∧ th ≠ Terminated)
    ∨ (fr = Rebuild ∧ others_quiet c (calls (final acts (init n))) = false).
Proof.
  intros Hpos Hab Hc.
  pose proof (reachable_shaped n acts) as Hsh.
  pose proof (reachable_framed_ok n acts _ _ _ Hc) as Hfr.
  set (w := final acts (init n)) in *.
  unfold step. rewrite Hab, Hc.
  assert (∀ x, ∃ q tq, size_rem x (nthreads_ (pool w)) = Some q
                       ∧ queues_ (pool w) !! q = Some tq) as Hslot.
  { intros x. destruct (slot_lookup n w x Hsh Hpos) as (tq & ? & ?). eauto. }
  assert (match fr with Returned _ | Join _ | Rebuild => True
          | _ => is_Some (call_step c b op fr w) end) as Hsome.
  { unfold call_step, task_system_push, task_system_done, reset,
      wait_to_completion.
    destruct op as [f x|[[f x]|]| | |], fr; simpl in Hfr; try done; simpl.
    all: repeat match goal with
         | |- context [size_rem ?x _] =>
             let q := fresh "q" in let tq := fresh "tq" in
             let H1 := fresh "H" in let H2 := fresh "H" in
             destruct (Hslot x) as (q & tq & H1 & H2);
             rewrite H1; simpl; rewrite H2; simpl
         end.
    all: repeat case_match; by eexists. }
  destruct fr;
    try (lazymatch type of Hsome with is_Some _ => idtac end;
         destruct Hsome as [[[w1 fr1] evs1] ->]; simpl;
         split; [done|];
         by intros [(? & [=])|[(? & ? & [=] & _)|[[=] _]]]).
  - destruct op; try done; simpl.
    destruct (threads_ (pool w) !! j) as [th|] eqn:Hth.
    + destruct th; simpl;
        try (split; [intros _; right; left; by eauto|done]).
      split; [done|].
      intros [(? & [=])|[(j0 & th & [= <-] & Hth' & Hne)|[[=] _]]].
      congruence.
    + simpl. split; [done|].
      intros [(? & [=])|[(j0 & th & [= <-] & Hth' & Hne)|[[=] _]]].
      congruence.
  - destruct op; try done; simpl.
    destruct (others_quiet c (calls w)) eqn:Hq; simpl.
    + split; [done|].
      by intros [(? & [=])|[(j0 & th & [=] & _)|[_ [=]]]].
    + split; [by eauto|done].
  - assert (call_step c b op (Returned r) w = None) as ->.
    { by destruct op. }
    split; [by eauto|done].
Qed.

(** ** Result fidelity *)

(** *** No more jobs than calls *)



(** *** The latches while [done] is under way *)












(** *** A worker heading for a job *)













(** *** Getting a job to a worker *)








(** *** A job nobody is left to run *)





(** *** The handle of a submission *)



End TaskSystem.

(** ** utility: index sequences and apply *)

Lemma merge_iota (a b : nat) :
  utility.merge (seq 0 a) (seq 0 b) = seq 0 (a + b).
Proof.
  unfold utility.merge, utility.size. rewrite seq_app, length_seq. f_equal.
  change (λ i, a + i) with (Nat.add a). rewrite fmap_add_seq. f_equal. lia.
Qed.

Lemma seq_gen_iota (n : nat) : utility.seq_gen n = seq 0 n.
Proof.
  induction (lt_wf n) as [n _ IH]. rewrite utility.seq_gen_equation.
  destruct n as [|[|n]]; [done..|].
  assert (0 < S (S n) / 2) by (apply Nat.div_str_pos; lia).
  assert (S (S n) / 2 < S (S n)) by (apply Nat.div_lt; lia).
  rewrite !IH by lia. rewrite merge_iota. f_equal. lia.
Qed.

(** X18. [make_index_sequence <N>] is the pack [0, 1, ..., N - 1], of size
    [N], for every [N]; and [merge] of the packs of sizes [a] and [b] is the
    pack of size [a + b]. *)
Theorem make_index_sequence_iota (n : nat) :
  utility.make_index_sequence n = seq 0 n
  ∧ utility.size (utility.make_index_sequence n) = n
  ∧ ∀ a b, utility.merge (utility.make_index_sequence a)
             (utility.make_index_sequence b)
           = utility.make_index_sequence (a + b).
Proof.
  unfold utility.make_index_sequence, utility.size. split_and!.
  - apply seq_gen_iota.
  - by rewrite seq_gen_iota, length_seq.
  - intros a b. rewrite !seq_gen_iota. apply merge_iota.
Qed.

Lemma mapM_lookup_seq {V : Type} (t : list V) :
  mapM (λ i, t !! i) (seq 0 (length t)) = Some t.
Proof.
  apply mapM_Some. apply Forall2_lookup. intros i.
  destruct (decide (i < length t)) as [Hlt|Hge].
  - rewrite lookup_seq_lt by done. simpl.
    destruct (lookup_lt_is_Some_2 t i Hlt) as [x Hx]. rewrite Hx.
    constructor. done.
  - rewrite lookup_seq_ge by lia. rewrite (proj2 (lookup_ge_None t i)) by lia.
    constructor.
Qed.

(** X19. [apply (f, t)] with the tuple [t] passed as an rvalue calls [f] on
    the elements of [t], all of them, once each and in their order; with
    [t] passed as an lvalue, which is how [task_model::invoke_] passes its
    [_args], the call does not compile.  [apply_] with a pack of indices
    calls [f] on the elements at those indices, in the order of the pack,
    and compiles exactly when every index is within the tuple. *)
Theorem apply_passes_every_element {V Res : Type} (f : list V → Res) (t : list V) :
  utility.apply f utility.rvalue t = Some (f t)
  ∧ utility.apply f utility.lvalue t = None
  ∧ ∀ s r, utility.detail.apply_ f t s = Some r ↔
      ∃ args, r = f args ∧ Forall2 (λ i x, t !! i = Some x) s args.
Proof.
  split_and!.
  - unfold utility.apply, utility.detail.apply_, utility.make_index_sequence.
    simpl. rewrite seq_gen_iota, mapM_lookup_seq. done.
  - done.
  - intros s r. unfold utility.detail.apply_, utility.detail.invoke_. split.
    + destruct (mapM _ s) as [args|] eqn:Hm; [|done]. intros [= <-].
      exists args. split; [done|]. by apply mapM_Some.
    + intros (args & -> & Hall). apply mapM_Some in Hall. by rewrite Hall.
Qed.

(** ** fsearch: what parse_args accepts and what it rejects *)

(** The two tables of [parse_args] have the same keys. *)
Lemma filters_cover_syntaxes (s : string) :
  is_Some (fsearch.syntaxes !! s) → is_Some (fsearch.filters !! s).
Proof.
  rewrite <- !elem_of_dom.
  assert (dom fsearch.syntaxes = dom fsearch.filters) as ->; [|done].
  unfold fsearch.syntaxes, fsearch.filters. rewrite !dom_list_to_map_L. done.
Qed.

Lemma emplace_all_patterns (env : fsearch.environment)
    (fl : fsearch.syntax_option_type) (ps : list string)
    (acc ms : list fsearch.regex) :
  fsearch.emplace_all env fl ps acc = inr ms →
  ms = acc ++ ((λ p, fsearch.Regex p fl) <$> ps)
  ∧ Forall (λ p, fsearch.well_formed env p fl = true) ps.
Proof.
  revert acc. induction ps as [|p ps IH]; intros acc; simpl.
  { intros [= <-]. by rewrite app_nil_r. }
  unfold fsearch.make_regex.
  destruct (fsearch.well_formed env p fl) eqn:Hp; [|done].
  intros [-> Hall]%IH. split; [by rewrite <- app_assoc|by constructor].
Qed.

Lemma from_files_patterns (env : fsearch.environment)
    (fl : fsearch.syntax_option_type) (fs : list string)
    (acc ms : list fsearch.regex) :
  fsearch.from_files env fl fs acc = inr ms →
  ms = acc ++ ((λ p, fsearch.Regex p fl)
                 <$> (fs ≫= λ f, fsearch.read_patterns (fsearch.getlines env f)))
  ∧ Forall (λ f, fsearch.is_regular_file env f = true) fs
  ∧ Forall (λ p, fsearch.well_formed env p fl = true)
      (fs ≫= λ f, fsearch.read_patterns (fsearch.getlines env f)).
Proof.
  revert acc. induction fs as [|f fs IH]; intros acc; simpl.
  { intros [= <-]. by rewrite app_nil_r. }
  destruct (fsearch.status_error env f); [done|].
  destruct (fsearch.is_regular_file env f) eqn:Hf; [|done]. simpl.
  destruct (fsearch.emplace_all env fl _ acc) as [e|acc'] eqn:He; [done|].
  apply emplace_all_patterns in He as [-> Hwf].
  intros (-> & Hall & Hwfs)%IH. split_and!.
  - by rewrite fmap_app, app_assoc.
  - by constructor.
  - by apply Forall_app.
Qed.

Lemma read_patterns_prefix (ls : list string) :
  fsearch.read_patterns ls `prefix_of` ls
  ∧ Forall (λ l, l ≠ ""%string) (fsearch.read_patterns ls)
  ∧ (fsearch.read_patterns ls = ls
     ∨ ∃ rest, ls = fsearch.read_patterns ls ++ ""%string :: rest).
Proof.
  induction ls as [|l ls (IH1 & IH2 & IH3)]; simpl.
  { split_and!; [done|done|by left]. }
  case_bool_decide as Hl.
  - subst. split_and!; [apply prefix_nil|done|]. right. by exists ls.
  - split_and!; [by apply prefix_cons|by constructor|].
    destruct IH3 as [->|[rest Hrest]]; [by left|].
    right. exists rest. simpl. by f_equal.
Qed.

Lemma emplace_all_error (env : fsearch.environment)
    (fl : fsearch.syntax_option_type) (ps : list string)
    (acc : list fsearch.regex) (e : fsearch.exception) :
  fsearch.emplace_all env fl ps acc = inl e →
  ∃ p, e = fsearch.regex_error p ∧ p ∈ ps ∧ fsearch.well_formed env p fl = false.
Proof.
  revert acc. induction ps as [|p ps IH]; intros acc; simpl; [done|].
  unfold fsearch.make_regex.
  destruct (fsearch.well_formed env p fl) eqn:Hp.
  - intros (p' & -> & Hin & Hwf)%IH. exists p'. split_and!; [done|by right|done].
  - intros [= <-]. exists p. split_and!; [done|by left|done].
Qed.

Lemma from_files_error (env : fsearch.environment)
    (fl : fsearch.syntax_option_type) (fs : list string)
    (acc : list fsearch.regex) (e : fsearch.exception) :
  fsearch.from_files env fl fs acc = inl e →
  (∃ p, e = fsearch.regex_error p ∧ fsearch.well_formed env p fl = false)
  ∨ (∃ f, e = fsearch.runtime_error (fsearch.not_a_file f) ∧ f ∈ fs
          ∧ fsearch.is_regular_file env f = false)
  ∨ (∃ f, e = fsearch.filesystem_error f ∧ f ∈ fs
          ∧ fsearch.status_error env f = true).
Proof.
  revert acc. induction fs as [|f fs IH]; intros acc; simpl; [done|].
  destruct (fsearch.status_error env f) eqn:Hst.
  { intros [= <-]. right. right. exists f. split_and!; [done|by left|done]. }
  destruct (fsearch.is_regular_file env f) eqn:Hf; simpl.
  - destruct (fsearch.emplace_all env fl _ acc) as [e'|acc'] eqn:He.
    + intros [= <-]. apply emplace_all_error in He as (p & -> & _ & Hwf).
      left. by exists p.
    + intros [(p & -> & Hwf)|[(f' & -> & Hin & Hf')|(f' & -> & Hin & Hf')]]%IH.
      * left. by exists p.
      * right. left. exists f'. split_and!; [done|by right|done].
      * right. right. exists f'. split_and!; [done|by right|done].
  - intros [= <-]. right. left. exists f. split_and!; [done|by left|done].
Qed.

(** X20. [parse_args] fails in these ways and no other: the command line
    is rejected by [boost::program_options]; no search pattern was given; a
    status query of [boost::filesystem] fails, on the search path or, with
    [--use-file], on one of the names; the search path is not a directory;
    the grammar is not one of the six of the table; a pattern, or the
    filter, is not well formed in the grammar; with [--use-file], one of the
    names is not a regular file; no pattern was found.  It never fails in a
    table lookup, the two tables having the same keys, and it never reports
    that the search path does not exist: a missing path is reported as not
    being a directory (the status of the path being the same at the two
    tests). *)
Theorem parse_args_failures (env : fsearch.environment)
    (parsed : string + fsearch.variables_map) :
  (∀ e, fsearch.parse_command_line env parsed = inl e →
     (∃ what, parsed = inl what ∧ e = fsearch.program_options_error what)
     ∨ ∃ vars, parsed = inr vars
         ∧ ((e = fsearch.runtime_error fsearch.must_provide_search
             ∧ fsearch.opt_search vars = None)
            ∨ (e = fsearch.filesystem_error (fsearch.opt_path vars)
               ∧ fsearch.status_error env (fsearch.opt_path vars) = true)
            ∨ (e = fsearch.runtime_error
                     (fsearch.not_a_directory (fsearch.opt_path vars))
               ∧ fsearch.is_directory env (fsearch.opt_path vars) = false)
            ∨ (e = fsearch.runtime_error
                     (fsearch.does_not_exist (fsearch.opt_path vars))
               ∧ fsearch.is_directory env (fsearch.opt_path vars) = true
               ∧ fsearch.exists_ env (fsearch.opt_path vars) = false)
            ∨ (e = fsearch.runtime_error
                     (fsearch.unrecognized_syntax (fsearch.opt_syntax vars))
               ∧ fsearch.syntaxes !! fsearch.opt_syntax vars = None)
            ∨ (∃ p fl, e = fsearch.regex_error p
                       ∧ fsearch.syntaxes !! fsearch.opt_syntax vars = Some fl
                       ∧ fsearch.well_formed env p fl = false)
            ∨ (∃ f, e = fsearch.runtime_error (fsearch.not_a_file f)
                    ∧ fsearch.opt_use_file vars = true
                    ∧ fsearch.is_regular_file env f = false)
            ∨ (∃ f, e = fsearch.filesystem_error f
                    ∧ fsearch.opt_use_file vars = true
                    ∧ fsearch.status_error env f = true)
            ∨ e = fsearch.runtime_error fsearch.no_search_regex))
  ∧ fsearch.parse_command_line env parsed ≠ inl fsearch.out_of_range
  ∧ ((∀ p, fsearch.is_directory env p = true → fsearch.exists_ env p = true) →
     ∀ p, fsearch.parse_command_line env parsed
          ≠ inl (fsearch.runtime_error (fsearch.does_not_exist p))).
Proof.
  match goal with |- ?P ∧ _ => assert P as Hcases end.
  { intros e. destruct parsed as [what|vars]; simpl.
    { intros [= <-]. left. by exists what. }
    intros He. right. exists vars. split; [done|]. revert He.
    unfold fsearch.parse_args, fsearch.at_, fsearch.make_regex.
    destruct (fsearch.opt_search vars) as [search|];
      [|intros [= <-]; left; by split].
    destruct (fsearch.status_error env _) eqn:Hst;
      [intros [= <-]; right; left; by split|].
    destruct (fsearch.is_directory env _) eqn:Hd; simpl;
      [|intros [= <-]; do 2 right; left; by split].
    destruct (fsearch.exists_ env _) eqn:Hex; simpl;
      [|intros [= <-]; do 3 right; left; by split].
    case_bool_decide as Hsyn;
      [intros [= <-]; do 4 right; left; by split|].
    destruct (fsearch.syntaxes !! _) as [fl|] eqn:Hfl; [|done].
    destruct (filters_cover_syntaxes (fsearch.opt_syntax vars)) as [dflt Hdflt];
      [by rewrite Hfl|]. rewrite Hdflt.
    set (fp := if bool_decide (fsearch.opt_filter vars = ""%string)
               then _ else _).
    assert (∃ pat, fp = inr pat) as [pat ->].
    { unfold fp. case_bool_decide; eauto. }
    destruct (fsearch.well_formed env pat fl) eqn:Hwf;
      [|intros [= <-]; do 5 right; left; by exists pat, fl].
    destruct (fsearch.opt_use_file vars) eqn:Huse.
    - destruct (fsearch.from_files env fl search []) as [e'|ms] eqn:Hms.
      + intros [= <-].
        apply from_files_error in Hms
          as [(p & -> & Hp)|[(f & -> & _ & Hf)|(f & -> & _ & Hf)]].
        * do 5 right. left. by exists p, fl.
        * do 6 right. left. by exists f.
        * do 7 right. left. by exists f.
      + case_bool_decide; [|done]. intros [= <-]. by do 8 right.
    - destruct (fsearch.emplace_all env fl search []) as [e'|ms] eqn:Hms.
      + intros [= <-]. apply emplace_all_error in Hms as (p & -> & _ & Hp).
        do 5 right. left. by exists p, fl.
      + case_bool_decide; [|done]. intros [= <-]. by do 8 right. }
  split_and!; [exact Hcases| |].
  - intros He. apply Hcases in He.
    destruct He as [(? & _ & ?)|(vars & _ & He)]; [done|].
    destruct He as [[? _]|[[? _]|[[? _]|[[? _]|[[? _]|[(? & ? & ? & _)
                   |[(? & ? & _)|[(? & ? & _)|?]]]]]]]]; done.
  - intros Hfs p He. apply Hcases in He.
    destruct He as [(? & _ & ?)|(vars & _ & He)]; [done|].
    destruct He as [[? _]|[[? _]|[[? _]|[(_ & Hd & Hex)|[[? _]|[(? & ? & ? & _)
                   |[(? & ? & _)|[(? & ? & _)|?]]]]]]]]; try done.
    apply Hfs in Hd. congruence.
Qed.

(** X21. When [parse_args] succeeds, the search path is a directory, the
    grammar is one of the table and every regular expression of the context
    is built in it from a well-formed pattern; the filter is the one given,
    or the default of the grammar when the one given is empty; the patterns
    are the strings given, or, with [--use-file], the lines of each of the
    files, file after file, up to the first empty line of each, every file
    being a regular file; there is at least one pattern; and a match or a
    file name is printed unless its suppression was asked for. *)
Theorem parse_args_postcondition (env : fsearch.environment)
    (vars : fsearch.variables_map) (c : fsearch.context) :
  fsearch.parse_args env vars = inr c →
  ∃ fl dflt,
    fsearch.syntaxes !! fsearch.syntax c = Some fl
    ∧ fsearch.filters !! fsearch.syntax c = Some dflt
    ∧ fsearch.is_directory env (fsearch.search_path c) = true
    ∧ fsearch.search_path c = fsearch.opt_path vars
    ∧ fsearch.syntax c = fsearch.opt_syntax vars
    ∧ fsearch.opt_search vars = Some (fsearch.matcher_strings c)
    ∧ fsearch.filter c
      = fsearch.Regex (if bool_decide (fsearch.opt_filter vars = ""%string)
                       then dflt else fsearch.opt_filter vars) fl
    ∧ fsearch.well_formed env (fsearch.pattern (fsearch.filter c)) fl = true
    ∧ fsearch.matchers c ≠ []
    ∧ Forall (λ r, fsearch.flags r = fl
                   ∧ fsearch.well_formed env (fsearch.pattern r) fl = true)
        (fsearch.matchers c)
    ∧ fsearch.pattern <$> fsearch.matchers c
      = (if fsearch.use_file c
         then fsearch.matcher_strings c
                ≫= λ f, fsearch.read_patterns (fsearch.getlines env f)
         else fsearch.matcher_strings c)
    ∧ (fsearch.use_file c = true →
       Forall (λ f, fsearch.is_regular_file env f = true)
         (fsearch.matcher_strings c))
    ∧ fsearch.use_file c = fsearch.opt_use_file vars
    ∧ fsearch.print_matches c = negb (fsearch.opt_suppress_matches vars)
    ∧ fsearch.print_files c = negb (fsearch.opt_suppress_files vars)
    ∧ fsearch.num_threads c = fsearch.opt_threads vars
    ∧ ∀ ls, fsearch.read_patterns ls `prefix_of` ls
            ∧ Forall (λ l, l ≠ ""%string) (fsearch.read_patterns ls)
            ∧ (fsearch.read_patterns ls = ls
               ∨ ∃ rest, ls = fsearch.read_patterns ls ++ ""%string :: rest).
Proof.
  unfold fsearch.parse_args, fsearch.at_, fsearch.make_regex.
  destruct (fsearch.opt_search vars) as [search|]; [|done].
  destruct (fsearch.status_error env _); [done|].
  destruct (fsearch.is_directory env _) eqn:Hd; simpl; [|done].
  destruct (fsearch.exists_ env _) eqn:Hex; simpl; [|done].
  case_bool_decide as Hsyn; [done|].
  destruct (fsearch.syntaxes !! _) as [fl|] eqn:Hfl; [|done].
  destruct (filters_cover_syntaxes (fsearch.opt_syntax vars)) as [dflt Hdflt];
    [by rewrite Hfl|]. rewrite Hdflt.
  set (pat := if bool_decide (fsearch.opt_filter vars = ""%string)
              then dflt else fsearch.opt_filter vars).
  replace (if bool_decide (fsearch.opt_filter vars = ""%string)
           then inr dflt else inr (fsearch.opt_filter vars))
    with (@inr fsearch.exception _ pat) by (unfold pat; by case_bool_decide).
  destruct (fsearch.well_formed env pat fl) eqn:Hwf; [|done].
  assert (∀ ms, Forall (λ r, fsearch.flags r = fl
                  ∧ fsearch.well_formed env (fsearch.pattern r) fl = true)
                  ((λ p, fsearch.Regex p fl) <$> ms)
                ↔ Forall (λ p, fsearch.well_formed env p fl = true) ms) as Hall.
  { intros ms. rewrite Forall_fmap. apply Forall_proper; [|done].
    intros p. simpl. split; [by intros [_ ?]|by split]. }
  destruct (fsearch.opt_use_file vars) eqn:Huse.
  - destruct (fsearch.from_files env fl search []) as [e'|ms] eqn:Hms; [done|].
    case_bool_decide as Hne; [done|]. intros [= <-]. simpl.
    exists fl, dflt.
    apply from_files_patterns in Hms as (-> & Hreg & Hwfs).
    simpl in *. split_and!; try done; try apply read_patterns_prefix.
    + by apply Hall.
    + rewrite <- list_fmap_compose. simpl. by rewrite list_fmap_id.
  - destruct (fsearch.emplace_all env fl search []) as [e'|ms] eqn:Hms; [done|].
    case_bool_decide as Hne; [done|]. intros [= <-]. simpl.
    exists fl, dflt.
    apply emplace_all_patterns in Hms as [-> Hwfs]. simpl in *.
    split_and!; try done; try apply read_patterns_prefix.
    + by apply Hall.
    + rewrite <- list_fmap_compose. simpl. by rewrite list_fmap_id.
Qed.

(** ** Concrete executions *)




Lemma push_dispatch_protocol_witness :
  ∃ t idx fails,
    fails ≤ N.to_nat (10 * 1)
    ∧ events_of (Caller 0)
        (history (singleton (λ _ : unit, @Value N unit 7%N) tt) (init 1))
      = dispatch_protocol 1 idx t (Some 0) fails
    ∧ ∀ k, (idx + N.of_nat k < size_modulus)%N →
           queue_slot 1 idx k = N.to_nat ((idx + N.of_nat k) mod 1).
Proof.
  refine (proj1 (push_dispatch_protocol 1
    (singleton (λ _ : unit, @Value N unit 7%N) tt) 0
    (Push (λ _, Value 7%N) tt) (Some 0) _ _ _)).
  - reflexivity.
  - reflexivity.
  - vm_compute. reflexivity.
Defined.

(** C4, as stated, fails: a submission accepted between the read of the
    counter and the return of [wait_to_completion] leaves the counter at one
    when [wait_to_completion] returns. *)
Lemma wait_to_completion_counterexample :
  calls (final (submission_during_wait (λ _ : unit, @Value N unit 7%N) tt)
           (init 1)) !! 1
  = Some (WaitToCompletion, Returned None)
  ∧ last (history (submission_during_wait (λ _ : unit, @Value N unit 7%N) tt)
            (init 1))
    = Some (Caller 1, EvReturn None)
  ∧ queued_ (pool (final (submission_during_wait
                            (λ _ : unit, @Value N unit 7%N) tt) (init 1)))
    = 1%N.
Proof. split_and!; vm_compute; reflexivity. Qed.

Lemma wait_to_completion_witness :
  exited_ (pool (final ((shutdown ++ [Begin WaitToCompletion])
                          ++ replicate 4 (Advance 1 true))
                   (@init unit N unit 1))) = [true]
  ∧ queued_ (pool (final ((shutdown ++ [Begin WaitToCompletion])
                            ++ replicate 4 (Advance 1 true))
                     (@init unit N unit 1))) = 0%N.
Proof.
  split.
  - refine (proj2 (proj1 (wait_to_completion_postcondition 1) _ 1 _)).
    vm_compute. reflexivity.
  - refine (proj2 (wait_to_completion_postcondition 1)
              (shutdown ++ [Begin WaitToCompletion])
              (replicate 4 (Advance 1 true)) 1 Yielding _ _ _ _ _).
    + reflexivity.
    + vm_compute. reflexivity.
    + reflexivity.
    + repeat constructor.
    + vm_compute. reflexivity.
Defined.

Lemma draining_termination_witness :
  ∃ rds pre,
    Forall (full_round 1) rds
    ∧ events_of (Worker 0)
        (history (drain_two_rounds (λ _ : unit, @Value N unit 7%N) tt) (init 1))
      = pre ++ EvPop 0 (false, None)
            :: drain_rounds 1 0 rds ++ [EvLoad 0; EvExited 0].
Proof.
  refine (proj1 (proj2 (draining_termination 1
    (drain_two_rounds (λ _ : unit, @Value N unit 7%N) tt) 0 Terminated _ _))
    eq_refl).
  - vm_compute. discriminate.
  - vm_compute. reflexivity.
Defined.

Lemma reset_keeps_exited_flags_witness :
  exited_ (pool (final (late_submission_then_reset
                          (λ _ : unit, @Value N unit 7%N) tt
                          ++ [Advance 2 true]) (init 1))) = [true]
  ∧ threads_ (pool (final (late_submission_then_reset
                             (λ _ : unit, @Value N unit 7%N) tt
                             ++ [Advance 2 true]) (init 1))) = [Scan 0].
Proof.
  destruct (reset_keeps_exited_flags 1
    (late_submission_then_reset (λ _ : unit, @Value N unit 7%N) tt) 2 true
    (final (late_submission_then_reset (λ _ : unit, @Value N unit 7%N) tt
              ++ [Advance 2 true]) (init 1))
    [(Caller 2, EvClear [[Some 0]]); (Caller 2, EvReturn None)])
    as (_ & _ & He & Ht & _).
  - vm_compute. reflexivity.
  - vm_compute. reflexivity.
  - split; assumption.
Defined.


Lemma pop_contract_witness : pop (TaskQueue [] false) = None.
Proof.
  apply (proj2 (proj1 (pop_contract (TaskQueue [] false)))).
  split; reflexivity.
Defined.

(** C8, as stated, fails in a pool of two workers: two jobs pushed to queue 0
    are popped in the order of their pushes, by two workers, and the second
    is run before the first. *)
Lemma fifo_per_queue_counterexample :
  pushed_to 0 (history (overtaking (λ _ : unit, @Value N unit 7%N) tt) (init 2))
  = [Some 0; Some 1]
  ∧ popped_from 0
      (history (overtaking (λ _ : unit, @Value N unit 7%N) tt) (init 2))
    = [Some 0; Some 1]
  ∧ executed (history (overtaking (λ _ : unit, @Value N unit 7%N) tt) (init 2))
    = [Some 1; Some 0].
Proof. split_and!; vm_compute; reflexivity. Qed.

Lemma fifo_per_queue_witness :
  executed (history (two_submissions (λ _ : unit, @Value N unit 7%N) tt) (init 1))
  = [Some 0; Some 1]
  ∧ popped_by 0
      (history (two_submissions (λ _ : unit, @Value N unit 7%N) tt) (init 1))
    = executed_by 0
        (history (two_submissions (λ _ : unit, @Value N unit 7%N) tt) (init 1))
      ++ []
  ∧ executed (history (two_submissions (λ _ : unit, @Value N unit 7%N) tt) (init 1))
      `prefix_of`
    accepted (history (two_submissions (λ _ : unit, @Value N unit 7%N) tt) (init 1)).
Proof.
  split_and!.
  - vm_compute. reflexivity.
  - refine (proj1 (proj2 (fifo_per_queue 1
      (two_submissions (λ _ : unit, @Value N unit 7%N) tt))) 0 (Scan 0) _).
    vm_compute. reflexivity.
  - refine (proj2 (proj2 (proj2 (proj2 (fifo_per_queue 1
      (two_submissions (λ _ : unit, @Value N unit 7%N) tt))) eq_refl)) _).
    vm_compute. intros H.
    repeat (apply elem_of_cons in H as [H|H]; [discriminate|]).
    by apply elem_of_nil in H.
Defined.

Lemma settled_is_final_witness :
  await (store (final (singleton (λ _ : unit, @Value N unit 7%N) tt
                         ++ [Begin Reset]) (init 1))) 0
  = Some (Completed (Value 7%N)).
Proof.
  apply (settled_is_final 1 (singleton (λ _ : unit, @Value N unit 7%N) tt)
           [Begin Reset] 0 (Completed (Value 7%N))).
  vm_compute. reflexivity.
Defined.

Lemma wait_needs_done_witness :
  (0 < 1)%N ∧ ∀ r : option nat, ReadExited 0 true ≠ Returned r.
Proof.
  split; [reflexivity|].
  apply (wait_needs_done (A := unit) (R := N) (Exn := unit) 1
           [Begin WaitToCompletion; Advance 0 true; Advance 0 true] 0).
  - reflexivity.
  - vm_compute. intros H.
    repeat (apply elem_of_cons in H as [H|H]; [discriminate|]).
    by apply elem_of_nil in H.
  - vm_compute. intros H.
    repeat (apply elem_of_cons in H as [H|H]; [discriminate|]).
    by apply elem_of_nil in H.
  - vm_compute. reflexivity.
Defined.

Lemma done_sets_every_latch_witness :
  length (queues_ (pool (final shutdown (@init unit N unit 1)))) = N.to_nat 1
  ∧ Forall (λ q, done_ q = true)
      (queues_ (pool (final shutdown (@init unit N unit 1)))).
Proof.
  apply (done_sets_every_latch 1 shutdown 0 None).
  - vm_compute. reflexivity.
  - vm_compute. intros H.
    repeat (apply elem_of_cons in H as [H|H]; [discriminate|]).
    by apply elem_of_nil in H.
Defined.

Lemma dispatch_counter_counts_witness :
  indices (history (two_submissions (λ _ : unit, @Value N unit 7%N) tt) (init 1))
  = [0%N; 1%N]
  ∧ length (indices (history (two_submissions (λ _ : unit, @Value N unit 7%N) tt)
                       (init 1)))
    = sum_list_with took_index
        (calls (final (two_submissions (λ _ : unit, @Value N unit 7%N) tt)
                  (init 1))).
Proof.
  split; [vm_compute; reflexivity|].
  refine (proj2 (proj2 (proj2 (dispatch_counter_counts 1
    (two_submissions (λ _ : unit, @Value N unit 7%N) tt) _)))).
  vm_compute. reflexivity.
Defined.

Lemma zero_workers_push_never_returns_witness :
  step (Advance 0 true)
    (final (speculative_increment (λ _ : unit, @Value N unit 7%N) tt) (init 0))
  = None.
Proof.
  apply (proj2 (zero_workers_push_never_returns
    (speculative_increment (λ _ : unit, @Value N unit 7%N) tt) 0
    (Push (λ _, Value 7%N) tt) (BlockingPush (Some 0) (Some 0) 0)
    eq_refl eq_refl) true).
  by exists (Some 0), (Some 0), 0%N.
Defined.

Lemma push_never_waits_witness :
  ∃ w' fr' evs,
    step (Advance 0 false)
      (final (speculative_increment (λ _ : unit, @Value N unit 7%N) tt) (init 1))
    = Some (w', evs)
    ∧ calls w' !! 0 = Some (Push (λ _, Value 7%N) tt, fr')
    ∧ push_steps_left (N.to_nat (10 * 1)) fr'
      < push_steps_left (N.to_nat (10 * 1)) (TryPush (Some 0) (Some 0) 0 0).
Proof.
  apply (push_never_waits 1
    (speculative_increment (λ _ : unit, @Value N unit 7%N) tt) 0
    (Push (λ _, Value 7%N) tt) (TryPush (Some 0) (Some 0) 0 0) false).
  - reflexivity.
  - reflexivity.
  - vm_compute. reflexivity.
  - reflexivity.
  - vm_compute. reflexivity.
  - intros r. discriminate.
Defined.

Lemma reset_abandons_queued_jobs_witness :
  await (store (final (late_submission_then_reset
                         (λ _ : unit, @Value N unit 7%N) tt) (init 1))) 0
  = None
  ∧ await (store (final (late_submission_then_reset
                           (λ _ : unit, @Value N unit 7%N) tt
                           ++ [Advance 2 true]) (init 1))) 0
    = Some BrokenPromise
  ∧ ∀ acts', await (store (final acts'
               (final (late_submission_then_reset
                         (λ _ : unit, @Value N unit 7%N) tt
                         ++ [Advance 2 true]) (init 1)))) 0
             = Some BrokenPromise.
Proof.
  apply (reset_abandons_queued_jobs 1
    (late_submission_then_reset (λ _ : unit, @Value N unit 7%N) tt) 2 true
    (final (late_submission_then_reset (λ _ : unit, @Value N unit 7%N) tt
              ++ [Advance 2 true]) (init 1))
    [(Caller 2, EvClear [[Some 0]]); (Caller 2, EvReturn None)]
    0 (TaskQueue [Some 0] true) 0).
  - vm_compute. reflexivity.
  - vm_compute. reflexivity.
  - vm_compute. reflexivity.
  - by left.
Defined.

Lemma drain_guarantee_witness :
  await (store (final (client_session_start (λ _ : unit, @Value N unit 7%N) tt
                         ++ client_session_end) (init 1))) 0
  = Some (Completed (Value 7%N)).
Proof.
  apply (drain_guarantee 1
    (client_session_start (λ _ : unit, @Value N unit 7%N) tt)
    client_session_end 2 0 (λ _, Value 7%N) tt 0 None).
  - reflexivity.
  - vm_compute. reflexivity.
  - vm_compute. reflexivity.
  - vm_compute. reflexivity.
  - vm_compute. intros H.
    repeat (apply elem_of_cons in H as [H|H]; [discriminate|]).
    by apply elem_of_nil in H.
  - vm_compute. reflexivity.
Defined.

Lemma perform_search_results_ready_witness :
  ∃ h, calls (final (client_session_start (λ _ : unit, @Value N unit 7%N) tt
                       ++ client_session_end) (init 1)) !! 0
       = Some (Push (λ _, Value 7%N) tt, Returned (Some h))
       ∧ await (store (final (client_session_start
                                (λ _ : unit, @Value N unit 7%N) tt
                                ++ client_session_end) (init 1))) h
         = Some (Completed (Value 7%N)).
Proof.
  apply (perform_search_results_ready 1
    (client_session_start (λ _ : unit, @Value N unit 7%N) tt
       ++ client_session_end) (λ _, Value 7%N) [tt]).
  - reflexivity.
  - vm_compute. reflexivity.
  - vm_compute. reflexivity.
  - vm_compute. reflexivity.
  - reflexivity.
Defined.

Lemma worker_waits_only_in_pop_witness :
  step (Work 0 true)
    (final (replicate 10 (Work 0 true)) (@init unit N unit 1)) = None.
Proof.
  apply (proj2 (worker_waits_only_in_pop (A := unit) (R := N) (Exn := unit)
           1 (replicate 10 (Work 0 true)) 0 (Scan 10) true eq_refl
           ltac:(vm_compute; reflexivity)) 10%N (TaskQueue [] false)).
  - reflexivity.
  - vm_compute. discriminate.
  - vm_compute. reflexivity.
  - reflexivity.
  - reflexivity.
Defined.

Lemma call_waits_only_in_join_witness :
  step (Advance 0 true) (final reset_joining (@init unit N unit 1)) = None.
Proof.
  apply (call_waits_only_in_join (A := unit) (R := N) (Exn := unit)
           1 reset_joining 0 Reset (Join 0) true).
  - reflexivity.
  - reflexivity.
  - vm_compute. reflexivity.
  - right. left. exists 0, (Scan 0). split_and!; [done|done|discriminate].
Defined.

Lemma parse_args_postcondition_witness :
  ∃ c, fsearch.parse_args fsearch.sample_environment fsearch.sample_variables
       = inr c
       ∧ fsearch.matchers c ≠ []
       ∧ fsearch.is_directory fsearch.sample_environment (fsearch.search_path c)
         = true.
Proof.
  eexists. split; [vm_compute; reflexivity|].
  edestruct (parse_args_postcondition fsearch.sample_environment
               fsearch.sample_variables)
    as (fl & dflt & _ & _ & Hd & _ & _ & _ & _ & _ & Hne & _);
    [vm_compute; reflexivity|].
  split; [exact Hne|exact Hd].
Defined.
